(** * Averigua: a shallow embedding of [Averigua.js]

    Averigua is a class of static queries over the ambient JavaScript host
    (window, document, navigator, process, require and the identifier
    DocumentTouch).  The embedding makes the host an
    explicit [World] record, threads it through a state-and-exception monad
    [M], and writes every query as the source does, statement by statement.

    Conventions:
    - JavaScript values are the inductive [value]; numbers are the finite
      rationals (every finite double is one), the two infinities and NaN;
      [-0] is identified with [0], which no test of this file separates.
    - Strings are sequences of 8-bit code units.
    - A global that is not declared is [None] in the [World]; reading it
      raises [ReferenceError], [typeof] on it does not. *)

From Stdlib Require Import ZArith QArith Qcanon Ascii String List.
From stdpp Require Import base numbers option list strings gmap.

Set Warnings "-register-all".
Open Scope string_scope.
Open Scope list_scope.

(** ** Values *)

Inductive number :=
| Fin (q : Qc)
| Infinity (negative : bool)
| NaN.

Inductive value :=
| Undefined
| Null
| Bool (b : bool)
| Num (n : number)
| Str (s : string)
| Func (name : string)
| Obj (fields : list (string * value))
| Arr (items : list value).

Definition Int (z : Z) : value := Num (Fin (Qc_of_Z z)).

Definition number_eqb (a b : number) : bool :=
  match a, b with
  | Fin p, Fin q => bool_decide (p = q)
  | Infinity s, Infinity t => Bool.eqb s t
  | _, _ => false
  end.

(** ToBoolean. *)
Definition truthy (v : value) : bool :=
  match v with
  | Undefined | Null => false
  | Bool b => b
  | Num (Fin q) => negb (bool_decide (q = Qc_of_Z 0))
  | Num (Infinity _) => true
  | Num NaN => false
  | Str s => negb (String.eqb s "")
  | Func _ | Obj _ | Arr _ => true
  end.

(** [v === 'lit'] and [v === n] against a literal. *)
Definition strict_eq_str (v : value) (lit : string) : bool :=
  match v with Str s => String.eqb s lit | _ => false end.

Definition strict_eq_num (v : value) (lit : Z) : bool :=
  match v with Num n => number_eqb n (Fin (Qc_of_Z lit)) | _ => false end.

(** [typeof v !== 'undefined'] for a property that exists or not. *)
Definition is_defined (v : value) : bool :=
  match v with Undefined => false | _ => true end.

(** [a || b] on values. *)
Definition or_else (a b : value) : value := if truthy a then a else b.

(** [obj.name] on a record; a value without the property gives
    [undefined]. *)
Fixpoint assoc (name : string) (fields : list (string * value)) : value :=
  match fields with
  | [] => Undefined
  | (k, v) :: rest => if String.eqb k name then v else assoc name rest
  end.

Definition field (name : string) (v : value) : value :=
  match v with Obj fields => assoc name fields | _ => Undefined end.

(** ** The host *)

Inductive Exn :=
| ReferenceError (name : string)
| TypeError (msg : string)
| HostError (msg : string).

Inductive Completion (A : Type) :=
| Return (a : A)
| Throw (e : Exn).
Arguments Return {A} a.
Arguments Throw {A} e.

(** A 3D context as [gpuInfo] uses it. *)
Record GLExtension := {
  UNMASKED_VENDOR_WEBGL : value;
  UNMASKED_RENDERER_WEBGL : value }.

Record GLContext := {
  gl_getExtension : string → option GLExtension;
  gl_getParameter : value → value;
  gl_VENDOR : value;
  gl_RENDERER : value }.

Record Window := {
  win_orientation : value;
  win_WebGLRenderingContext : value;
  win_has_ontouchstart : bool;            (* 'ontouchstart' in window *)
  win_DocumentTouch : value;
  (* what [document instanceof C] gives for a function [C]: a boolean, or
     the TypeError of a function whose [prototype] is not an object *)
  win_document_is_DocumentTouch : Completion bool;
  (* [matchMedia], when it is a function: the value it returns for a query *)
  win_matchMedia : option (string → value);
  win_localStorage : Completion value;    (* a getter, which may throw *)
  win_sessionStorage : Completion value;
  win_indexedDB : Completion value }.

Record MimeType := {
  mime_description : value;
  mime_type : value;
  mime_suffixes : value }.

Record Plugin := {
  plugin_name : value;
  plugin_description : value;
  plugin_filename : value;
  plugin_mimes : list MimeType }.

Record Navigator := {
  nav_userAgent : string;
  nav_getVRDisplays : value;
  nav_requestMIDIAccess : value;
  nav_doNotTrack : value;
  nav_appName : value;
  nav_appVersion : value;
  nav_plugins : option (list Plugin);
  nav_oscpu : value;
  nav_hardwareConcurrency : value;
  nav_platform : value }.

(** DOM nodes are indices into the document's node store. *)
Abbreviation node := nat.

Record Element := {
  el_tag : string;
  el_style : gmap string string;
  el_innerHTML : string;
  el_parent : option node;
  el_children : list node }.

Record Document := {
  doc_nodes : list Element;
  doc_body : option node;      (* getElementsByTagName('body')[0] *)
  (* the layout engine: offsetWidth and offsetHeight of a node, computed by
     the host from the whole node store *)
  doc_layout : list Element → node → Z * Z;
  (* what the throwaway canvas, audio, video and track elements answer *)
  doc_canvas_getContext : string → option GLContext;
  doc_audio_canPlayType : option (string → value);
  doc_video_canPlayType : option (string → value);
  doc_video_has_poster : bool;  (* 'poster' in createElement('video') *)
  doc_track_has_src : bool }.   (* 'src' in createElement('track') *)

Record Process := {
  proc_version : value;
  proc_platform : value;
  proc_env : value }.

(** The results of the calls on [require('os')]. *)
Record OS := {
  os_arch : value; os_type : value; os_release : value; os_cpus : value;
  os_freemem : value; os_totalmem : value; os_homedir : value;
  os_hostname : value; os_userInfo : value; os_networkInterfaces : value }.

Record World := {
  window : option Window;
  document : option Document;
  navigator : option Navigator;
  process : option Process;
  require_os : option OS;      (* [None]: [require] is not defined *)
  DocumentTouch : option value; (* the global identifier; [None]: not declared *)
  console : list string }.     (* lines written by console.error *)

(** ** The monad of queries: state and exceptions *)

Definition M (A : Type) : Type := World → Completion A * World.

Global Instance M_ret : MRet M := λ A a w, (Return a, w).
Global Instance M_bind : MBind M := λ A B f m w,
  match m w with
  | (Return a, w') => f a w'
  | (Throw e, w') => (Throw e, w')
  end.

Definition throw {A} (e : Exn) : M A := λ w, (Throw e, w).
Definition gets {A} (f : World → A) : M A := λ w, (Return (f w), w).
Definition modify (f : World → World) : M unit := λ w, (Return tt, f w).

(** Reading a global identifier. *)
Definition global {A} (name : string) (f : World → option A) : M A := λ w,
  match f w with
  | Some a => (Return a, w)
  | None => (Throw (ReferenceError name), w)
  end.

(** Running a host getter. *)
Definition getter {A} (g : Completion A) : M A := λ w, (g, w).

Definition set_console (c : list string) (w : World) : World :=
  {| window := window w; document := document w; navigator := navigator w;
     process := process w; require_os := require_os w;
     DocumentTouch := DocumentTouch w; console := c |}.

Definition set_document (d : Document) (w : World) : World :=
  {| window := window w; document := Some d; navigator := navigator w;
     process := process w; require_os := require_os w;
     DocumentTouch := DocumentTouch w; console := console w |}.

Definition console_error (line : string) : M value := λ w,
  (Return Undefined, set_console (console w ++ [line]) w).

(** ** Runtime classification *)

Definition _browserErr : M value :=
  console_error "Averigua: this is not a browser".

Definition isNode : M value :=
  p ← gets process;
  match p with
  | Some p => mret (proc_version p)
  | None => mret (Bool false)
  end.

Definition isBrowser : M bool :=
  w ← gets window;
  d ← gets document;
  mret (bool_decide (is_Some w) && bool_decide (is_Some d)).

(** ** Strings as the source uses them *)

(** [s.split(sep)] for a one-character separator: [n] occurrences give
    [n + 1] pieces, empty ones included. *)
Fixpoint split (sep : ascii) (s : string) : list string :=
  match s with
  | EmptyString => [""]
  | String c t =>
      if Ascii.eqb c sep then "" :: split sep t
      else match split sep t with
           | piece :: pieces => String c piece :: pieces
           | [] => [String c ""]
           end
  end.

(** [l.join(sep)]. *)
Fixpoint join (sep : string) (l : list string) : string :=
  match l with
  | [] => ""
  | [s] => s
  | s :: rest => s +:+ sep +:+ join sep rest
  end.

Fixpoint drop_chars (n : nat) (s : string) : string :=
  match n, s with
  | S n', String _ t => drop_chars n' t
  | _, _ => s
  end.

(** [s.replace(pat, rep)] with a string pattern: the first occurrence only. *)
Fixpoint replace (pat rep s : string) : string :=
  if String.prefix pat s then rep +:+ drop_chars (String.length pat) s
  else match s with
       | EmptyString => EmptyString
       | String c t => String c (replace pat rep t)
       end.

(** ** Regular expressions

    A backtracking matcher in continuation-passing style, as ECMAScript
    defines pattern semantics: a matcher takes a state and a continuation
    and answers the first state, in priority order, that the continuation
    accepts.  Captures are not reset from one iteration of a repetition to
    the next; no pattern of the source has a group under a repetition. *)

Inductive regex :=
| Eps
| Char (c : ascii)
| Class (p : ascii → bool)
| Seq (r1 r2 : regex)
| Alt (r1 r2 : regex)
| Star (r : regex)            (* greedy [r*] *)
| Group (n : nat) (r : regex) (* capturing parentheses, numbered from 1 *)
| Lookahead (r : regex)       (* [(?=r)] *)
| WordBoundary.               (* [\b] *)

Definition Plus (r : regex) : regex := Seq r (Star r).
Definition Opt (r : regex) : regex := Alt r Eps.

Fixpoint lit (s : string) : regex :=
  match s with
  | EmptyString => Eps
  | String c EmptyString => Char c
  | String c t => Seq (Char c) (lit t)
  end.

Fixpoint alts (rs : list regex) : regex :=
  match rs with
  | [] => Eps
  | [r] => r
  | r :: rest => Alt r (alts rest)
  end.

Definition code (c : ascii) : nat := nat_of_ascii c.

Definition is_digit (c : ascii) : bool :=
  (48 <=? code c)%nat && (code c <=? 57)%nat.
Definition is_upper (c : ascii) : bool :=
  (65 <=? code c)%nat && (code c <=? 90)%nat.
Definition is_lower (c : ascii) : bool :=
  (97 <=? code c)%nat && (code c <=? 122)%nat.
(** [\w] *)
Definition is_word (c : ascii) : bool :=
  is_digit c || is_upper c || is_lower c || Ascii.eqb c "_".
(** [\s] on 8-bit code units: tab, LF, VT, FF, CR, space, NBSP. *)
Definition is_space (c : ascii) : bool :=
  ((9 <=? code c)%nat && (code c <=? 13)%nat)
  || (code c =? 32)%nat || (code c =? 160)%nat.

(** Canonicalize under the [i] flag; a code unit above 127 never folds to
    one below, so against the ASCII letters of the patterns of this file
    folding a-z is all there is. *)
Definition canonicalize (icase : bool) (c : ascii) : ascii :=
  if icase && is_lower c then ascii_of_nat (code c - 32) else c.

Record mstate := {
  ms_prev : option ascii;       (* the character before the position *)
  ms_rest : list ascii;         (* the input from the position on *)
  ms_caps : gmap nat string }.  (* the captures so far *)

Definition with_caps (x : mstate) (caps : gmap nat string) : mstate :=
  {| ms_prev := ms_prev x; ms_rest := ms_rest x; ms_caps := caps |}.

(** The text between two positions of one input. *)
Definition consumed (x y : mstate) : string :=
  string_of_list_ascii
    (take (length (ms_rest x) - length (ms_rest y)) (ms_rest x)).

Definition opt_is_word (c : option ascii) : bool :=
  match c with Some c => is_word c | None => false end.

Fixpoint matcher (icase : bool) (r : regex) (x : mstate)
    (k : mstate → option mstate) : option mstate :=
  match r with
  | Eps => k x
  | Char c =>
      match ms_rest x with
      | ch :: t =>
          if Ascii.eqb (canonicalize icase ch) (canonicalize icase c)
          then k {| ms_prev := Some ch; ms_rest := t; ms_caps := ms_caps x |}
          else None
      | [] => None
      end
  | Class p =>
      match ms_rest x with
      | ch :: t =>
          if p ch
          then k {| ms_prev := Some ch; ms_rest := t; ms_caps := ms_caps x |}
          else None
      | [] => None
      end
  | Seq r1 r2 => matcher icase r1 x (λ y, matcher icase r2 y k)
  | Alt r1 r2 =>
      match matcher icase r1 x k with
      | Some z => Some z
      | None => matcher icase r2 x k
      end
  | Star r' =>
      (* one more iteration first; an iteration that consumes nothing is
         rejected, so the input length bounds the iterations *)
      (fix loop (fuel : nat) (x : mstate) : option mstate :=
         match fuel with
         | O => k x
         | S fuel' =>
             match matcher icase r' x
                     (λ y, if (length (ms_rest y) <? length (ms_rest x))%nat
                           then loop fuel' y else None) with
             | Some z => Some z
             | None => k x
             end
         end) (S (length (ms_rest x))) x
  | Group n r' =>
      matcher icase r' x
        (λ y, k (with_caps y (<[n := consumed x y]> (ms_caps y))))
  | Lookahead r' =>
      match matcher icase r' x Some with
      | Some y => k (with_caps x (ms_caps y))
      | None => None
      end
  | WordBoundary =>
      if xorb (opt_is_word (ms_prev x)) (opt_is_word (head (ms_rest x)))
      then k x else None
  end.

Record RegExp := {
  re_body : regex;
  re_ignoreCase : bool;
  re_groups : nat }.

(** The match array: the matched text, then captures 1 to [re_groups];
    [None] is an [undefined] entry. *)
Definition match_array (re : RegExp) (x y : mstate) : list (option string) :=
  Some (consumed x y) :: map (λ n, ms_caps y !! n) (seq 1 (re_groups re)).

(** The leftmost match from the start of the input: [s.match(re)] for a
    regular expression without the [g] flag, and [re.exec(s)] on a fresh
    regular expression, whose [lastIndex] is 0; [None] is [null]. *)
Fixpoint search (re : RegExp) (prev : option ascii) (s : list ascii)
    : option (list (option string)) :=
  let x := {| ms_prev := prev; ms_rest := s; ms_caps := ∅ |} in
  match matcher (re_ignoreCase re) (re_body re) x Some with
  | Some y => Some (match_array re x y)
  | None =>
      match s with
      | [] => None
      | c :: t => search re (Some c) t
      end
  end.

Definition exec (re : RegExp) (s : string) : option (list (option string)) :=
  search re None (list_ascii_of_string s).

(** ToString of a string or [undefined], the two things a match array holds. *)
Definition opt_to_string (o : option string) : string :=
  match o with Some s => s | None => "undefined" end.

Definition test (re : RegExp) (s : string) : bool :=
  bool_decide (is_Some (exec re s)).

(** [M[i]] on a match array, or on [[]]. *)
Definition at_index (m : list (option string)) (i : nat) : option string :=
  mjoin (m !! i).

Definition opt_value (o : option string) : value :=
  match o with Some s => Str s | None => Undefined end.

Definition digit : regex := Class is_digit.
Definition space : regex := Class is_space.

(** ** The regular expressions of the source *)

(** [/Android|webOS|iPhone|iPad|iPod|BlackBerry|BB|PlayBook|IEMobile|Windows Phone|Kindle|Silk|Opera Mini/i] *)
Definition mobile_re : RegExp :=
  {| re_body := alts (map lit
       ["Android"; "webOS"; "iPhone"; "iPad"; "iPod"; "BlackBerry"; "BB";
        "PlayBook"; "IEMobile"; "Windows Phone"; "Kindle"; "Silk";
        "Opera Mini"]);
     re_ignoreCase := true; re_groups := 0 |}.

(** [/(opera|chrome|safari|firefox|msie|trident(?=\/))\/?\s*(\d+)/i] *)
Definition browser_re : RegExp :=
  {| re_body :=
       Seq (Group 1 (alts [lit "opera"; lit "chrome"; lit "safari";
                           lit "firefox"; lit "msie";
                           Seq (lit "trident") (Lookahead (lit "/"))]))
      (Seq (Opt (lit "/"))
      (Seq (Star space)
           (Group 2 (Plus digit))));
     re_ignoreCase := true; re_groups := 2 |}.

(** [/trident/i] *)
Definition trident_re : RegExp :=
  {| re_body := lit "trident"; re_ignoreCase := true; re_groups := 0 |}.

(** [/\brv[ :]+(\d+)/g], used once on a fresh object. *)
Definition rv_re : RegExp :=
  {| re_body :=
       Seq WordBoundary
      (Seq (lit "rv")
      (Seq (Plus (Class (λ c, Ascii.eqb c " " || Ascii.eqb c ":")))
           (Group 1 (Plus digit))));
     re_ignoreCase := false; re_groups := 1 |}.

(** [/\b(OPR|Edge)\/(\d+)/] *)
Definition opr_edge_re : RegExp :=
  {| re_body :=
       Seq WordBoundary
      (Seq (Group 1 (alts [lit "OPR"; lit "Edge"]))
      (Seq (lit "/")
           (Group 2 (Plus digit))));
     re_ignoreCase := false; re_groups := 2 |}.

(** [/version\/(\d+)/i] *)
Definition version_re : RegExp :=
  {| re_body := Seq (lit "version/") (Group 1 (Plus digit));
     re_ignoreCase := true; re_groups := 1 |}.

(** ** The guarded queries *)

Definition isMobile : M value :=
  b ← isBrowser;
  if negb b then _browserErr else
  nav ← global "navigator" navigator;
  if test mobile_re (nav_userAgent nav) then mret (Bool true)
  else mret (Bool false).

Definition hasWebGL : M value :=
  b ← isBrowser;
  if negb b then _browserErr else
  win ← global "window" window;
  if negb (truthy (win_WebGLRenderingContext win)) then mret (Bool false) else
  doc ← global "document" document;
  mret (Bool (bool_decide
                (is_Some (doc_canvas_getContext doc "experimental-webgl")))).

Definition hasWebVR : M value :=
  b ← isBrowser;
  if negb b then _browserErr else
  nav ← global "navigator" navigator;
  mret (Bool (is_defined (nav_getVRDisplays nav))).

Definition hasMIDI : M value :=
  b ← isBrowser;
  if negb b then _browserErr else
  nav ← global "navigator" navigator;
  if truthy (nav_requestMIDIAccess nav) then mret (Bool true)
  else mret (Bool false).

(** [' -webkit- -moz- -o- -ms- '.split(' ')] *)
Definition hasTouch_prefixes : list string :=
  split " " " -webkit- -moz- -o- -ms- ".

(** [['(', prefixes.join('touch-enabled),('), 'heartz', ')'].join('')] *)
Definition hasTouch_query : string :=
  join "" ["("; join "touch-enabled),(" hasTouch_prefixes; "heartz"; ")"].

(** [v.matches]: reading a property of [null] or [undefined] raises. *)
Definition get_matches (v : value) : M value :=
  match v with
  | Undefined | Null =>
      throw (TypeError "Cannot read properties of undefined (reading 'matches')")
  | _ => mret (field "matches" v)
  end.

(** [mq]: [window.matchMedia(query).matches] *)
Definition mq (query : string) : M value :=
  win ← global "window" window;
  match win_matchMedia win with
  | Some matchMedia => get_matches (matchMedia query)
  | None => throw (TypeError "window.matchMedia is not a function")
  end.

(** [document instanceof C]: for a right-hand side that is not callable the
    operator raises. *)
Definition document_instanceof (win : Window) (C : value) : M bool :=
  match C with
  | Func _ => getter (win_document_is_DocumentTouch win)
  | _ => throw (TypeError "Right-hand side of 'instanceof' is not callable")
  end.

Definition hasTouch : M value :=
  b ← isBrowser;
  if negb b then _browserErr else
  let prefixes := hasTouch_prefixes in
  win ← global "window" window;
  touch ← (if win_has_ontouchstart win then mret true
           else if negb (truthy (win_DocumentTouch win)) then mret false
           else (doc ← global "document" document;
                 C ← global "DocumentTouch" DocumentTouch;
                 document_instanceof win C));
  if (touch : bool) then mret (Bool true) else
  let query := hasTouch_query in
  m ← mq query;
  if truthy m then mret (Bool true) else mret (Bool false).

Definition doNotTrack : M value :=
  b ← isBrowser;
  if negb b then _browserErr else
  nav ← global "navigator" navigator;
  if strict_eq_str (nav_doNotTrack nav) "1"
     || strict_eq_str (nav_doNotTrack nav) "yes"
  then mret (Bool true) else mret (Bool false).

Definition orientation : M value :=
  b ← isBrowser;
  if negb b then _browserErr else
  win ← global "window" window;
  if truthy (win_orientation win) then
    if strict_eq_num (win_orientation win) (-90)
       || strict_eq_num (win_orientation win) 90
    then mret (Str "landscape")
    else mret (Str "portrait")
  else mret (Str "no-support").

(** [gpuInfo] has no guard: [document] is read as it is. *)
Definition gpuInfo : M value :=
  doc ← global "document" document;
  match doc_canvas_getContext doc "webgl" with
  | None => throw (TypeError "Cannot read properties of null (reading 'getExtension')")
  | Some gl =>
      let dbgRenNfo := gl_getExtension gl "WEBGL_debug_renderer_info" in
      let vendor := gl_getParameter gl (gl_VENDOR gl) in
      let renderer := gl_getParameter gl (gl_RENDERER gl) in
      match dbgRenNfo with
      | Some ext =>
          let vendor := gl_getParameter gl (UNMASKED_VENDOR_WEBGL ext) in
          let renderer := gl_getParameter gl (UNMASKED_RENDERER_WEBGL ext) in
          mret (Obj [("vendor", vendor); ("renderer", renderer)])
      | None => mret (Obj [("vendor", vendor); ("renderer", renderer)])
      end
  end.

(** [M.splice(1, 1, x)]: one element out at index 1, [x] in. *)
Definition splice_1_1 (m : list value) (x : value) : list value :=
  take 1 m ++ x :: drop 2 m.

Definition index_value (m : list value) (i : nat) : value :=
  default Undefined (m !! i).

Definition browserInfo : M value :=
  b ← isBrowser;
  if negb b then _browserErr else
  nav ← global "navigator" navigator;
  let ua := nav_userAgent nav in
  let M := default [] (exec browser_re ua) in
  if test trident_re (opt_to_string (at_index M 1)) then
    let tem := default [] (exec rv_re ua) in
    mret (Str ("IE " +:+ default "" (at_index tem 1)))
  else
  let continue :=
    let M :=
      if truthy (opt_value (at_index M 2))
      then [opt_value (at_index M 1); opt_value (at_index M 2)]
      else [nav_appName nav; nav_appVersion nav; Str "-?"] in
    let M :=
      match exec version_re ua with
      | Some tem => splice_1_1 M (opt_value (at_index tem 1))
      | None => M
      end in
    mret (Obj [("name", index_value M 0); ("version", index_value M 1)]) in
  if bool_decide (at_index M 1 = Some "Chrome") then
    match exec opr_edge_re ua with
    | Some tem =>
        mret (Str (replace "OPR" "Opera"
                     (join " " (map (default "") (drop 1 tem)))))
    | None => continue
    end
  else continue.

Definition platformInfo : M value :=
  b ← isBrowser;
  if (b : bool) then
    (mobile ← isMobile;
     browser ← browserInfo;
     nav ← global "navigator" navigator;
     mret (Obj [("mobile", mobile); ("browser", browser);
                ("oscpu", nav_oscpu nav);
                ("processors", nav_hardwareConcurrency nav);
                ("platform", nav_platform nav)]))
  else
    os ← global "require" require_os;
    proc ← global "process" process;
    mret (Obj [("platform", proc_platform proc);
               ("os", Obj [("arch", os_arch os); ("type", os_type os);
                           ("release", os_release os); ("cpus", os_cpus os);
                           ("freemem", os_freemem os);
                           ("totalmem", os_totalmem os);
                           ("homedir", os_homedir os);
                           ("hostname", os_hostname os);
                           ("userInfo", os_userInfo os);
                           ("networkInterfaces", os_networkInterfaces os)]);
               ("env", proc_env proc)]).

Definition dquote : string := String (ascii_of_nat 34) EmptyString.

(** [codecs="c"] *)
Definition codecs (c : string) : string := "codecs=" +:+ dquote +:+ c +:+ dquote.

(** [x = canPlayType(mime); if (x === '') x = 'no'] *)
Definition probe_codec (canPlayType : string → value) (mime : string) : value :=
  let x := canPlayType mime in
  if strict_eq_str x "" then Str "no" else x.

Definition audioSupport : M value :=
  b ← isBrowser;
  if negb b then _browserErr else
  doc ← global "document" document;
  match doc_audio_canPlayType doc with
  | Some canPlayType =>
      let mp3 := probe_codec canPlayType "audio/mpeg;" in
      let vorbis := probe_codec canPlayType ("audio/ogg; " +:+ codecs "vorbis") in
      let wav := probe_codec canPlayType ("audio/wav; " +:+ codecs "1") in
      let aac := probe_codec canPlayType ("audio/mp4; " +:+ codecs "mp4a.40.2") in
      mret (Obj [("mp3", mp3); ("vorbis", vorbis); ("wav", wav); ("aac", aac)])
  | None =>
      mret (Obj [("mp3", Str "no"); ("vorbis", Str "no"); ("wav", Str "no");
                 ("aac", Str "no")])
  end.

Definition videoSupport : M value :=
  b ← isBrowser;
  if negb b then _browserErr else
  doc ← global "document" document;
  match doc_video_canPlayType doc with
  | Some canPlayType =>
      let webm := probe_codec canPlayType ("video/webm; " +:+ codecs "vp8, vorbis") in
      let h264 :=
        probe_codec canPlayType ("video/mp4; " +:+ codecs "avc1.42E01E, mp4a.40.2") in
      let theora := probe_codec canPlayType ("video/ogg; " +:+ codecs "theora") in
      let poster := if doc_video_has_poster doc then Str "probably" else Str "no" in
      let captions := if doc_track_has_src doc then Str "probably" else Str "no" in
      mret (Obj [("captions", captions); ("poster", poster); ("webm", webm);
                 ("h264", h264); ("theora", theora)])
  | None =>
      mret (Obj [("captions", Str "no"); ("poster", Str "no");
                 ("webm", Str "no"); ("h264", Str "no"); ("theora", Str "no")])
  end.

Definition mime_entry (m : MimeType) : value :=
  Obj [("description", mime_description m); ("type", mime_type m);
       ("suffixes", mime_suffixes m)].

Definition plugin_entry (p : Plugin) : value :=
  Obj [("name", plugin_name p); ("description", plugin_description p);
       ("filename", plugin_filename p);
       ("array", Arr (map mime_entry (plugin_mimes p)))].

Definition pluginSupport : M value :=
  b ← isBrowser;
  if negb b then _browserErr else
  nav ← global "navigator" navigator;
  match nav_plugins nav with
  | Some plugins => mret (Arr (map plugin_entry plugins))
  | None => throw (TypeError "Cannot read properties of undefined (reading 'length')")
  end.

Definition storageSupport : M value :=
  b ← isBrowser;
  if negb b then _browserErr else
  win ← global "window" window;
  l ← getter (win_localStorage win);
  let s_localStorage := if truthy l then true else false in
  s ← getter (win_sessionStorage win);
  let s_sessionStorage := if truthy s then true else false in
  i ← getter (win_indexedDB win);
  let s_indexedDB := if truthy i then true else false in
  mret (Obj [("localStorage", Bool s_localStorage);
             ("sessionStorage", Bool s_sessionStorage);
             ("indexedDB", Bool s_indexedDB)]).

(** ** The DOM

    Nodes live in the document's store, [doc_nodes]; a node is its index.
    [createElement] allocates at the end of the store, [appendChild] moves
    the child under its new parent. *)

Definition set_nodes (ns : list Element) (d : Document) : Document :=
  {| doc_nodes := ns; doc_body := doc_body d; doc_layout := doc_layout d;
     doc_canvas_getContext := doc_canvas_getContext d;
     doc_audio_canPlayType := doc_audio_canPlayType d;
     doc_video_canPlayType := doc_video_canPlayType d;
     doc_video_has_poster := doc_video_has_poster d;
     doc_track_has_src := doc_track_has_src d |}.

Definition new_element (tag : string) : Element :=
  {| el_tag := tag; el_style := ∅; el_innerHTML := ""; el_parent := None;
     el_children := [] |}.

Definition with_style (prop val : string) (e : Element) : Element :=
  {| el_tag := el_tag e; el_style := <[prop := val]> (el_style e);
     el_innerHTML := el_innerHTML e; el_parent := el_parent e;
     el_children := el_children e |}.

Definition with_innerHTML (html : string) (e : Element) : Element :=
  {| el_tag := el_tag e; el_style := el_style e; el_innerHTML := html;
     el_parent := el_parent e; el_children := el_children e |}.

Definition with_parent (p : option node) (e : Element) : Element :=
  {| el_tag := el_tag e; el_style := el_style e;
     el_innerHTML := el_innerHTML e; el_parent := p;
     el_children := el_children e |}.

Definition with_children (f : list node → list node) (e : Element) : Element :=
  {| el_tag := el_tag e; el_style := el_style e;
     el_innerHTML := el_innerHTML e; el_parent := el_parent e;
     el_children := f (el_children e) |}.

(** The store after [parent.appendChild(child)]. *)
Definition attach (parent child : node) (ns : list Element) : list Element :=
  let ns :=
    match ns !! child ≫= el_parent with
    | Some old => alter (with_children (filter (λ c, c ≠ child))) old ns
    | None => ns
    end in
  let ns := alter (with_parent (Some parent)) child ns in
  alter (with_children (λ cs, cs ++ [child])) parent ns.

Definition update_nodes (f : list Element → list Element) : M unit :=
  d ← global "document" document;
  modify (set_document (set_nodes (f (doc_nodes d)) d)).

Definition createElement (tag : string) : M node :=
  d ← global "document" document;
  update_nodes (λ ns, ns ++ [new_element tag]);;
  mret (length (doc_nodes d)).

Definition set_style (s : node) (prop val : string) : M unit :=
  update_nodes (alter (with_style prop val) s).

Definition set_innerHTML (s : node) (html : string) : M unit :=
  update_nodes (alter (with_innerHTML html) s).

Definition appendChild (parent child : node) : M unit :=
  update_nodes (attach parent child).

(** [h.appendChild(child)] where [h] may be [undefined]. *)
Definition appendChild_to (h : option node) (child : node) : M unit :=
  match h with
  | Some parent => appendChild parent child
  | None => throw (TypeError "Cannot read properties of undefined (reading 'appendChild')")
  end.

Definition offsetWidth (s : node) : M Z :=
  d ← global "document" document;
  mret (fst (doc_layout d (doc_nodes d) s)).

Definition offsetHeight (s : node) : M Z :=
  d ← global "document" document;
  mret (snd (doc_layout d (doc_nodes d) s)).

(** ** fontSupport *)

Definition baseFonts : list string := ["monospace"; "sans-serif"; "serif"].

Definition fontList : list string :=
  [
   "Andale Mono"; "Arial"; "Arial Black"; "Arial Hebrew"; "Arial MT"; "Arial Narrow"; "Arial Rounded MT Bold"; "Arial Unicode MS";
   "Bitstream Vera Sans Mono"; "Book Antiqua"; "Bookman Old Style";
   "Calibri"; "Cambria"; "Cambria Math"; "Century"; "Century Gothic"; "Century Schoolbook"; "Comic Sans"; "Comic Sans MS"; "Consolas"; "Courier"; "Courier New";
   "Geneva"; "Georgia";
   "Helvetica"; "Helvetica Neue";
   "Impact";
   "Lucida Bright"; "Lucida Calligraphy"; "Lucida Console"; "Lucida Fax"; "LUCIDA GRANDE"; "Lucida Handwriting"; "Lucida Sans"; "Lucida Sans Typewriter"; "Lucida Sans Unicode";
   "Microsoft Sans Serif"; "Monaco"; "Monotype Corsiva"; "MS Gothic"; "MS Outlook"; "MS PGothic"; "MS Reference Sans Serif"; "MS Sans Serif"; "MS Serif"; "MYRIAD"; "MYRIAD PRO";
   "Palatino"; "Palatino Linotype";
   "Segoe Print"; "Segoe Script"; "Segoe UI"; "Segoe UI Light"; "Segoe UI Semibold"; "Segoe UI Symbol";
   "Tahoma"; "Times"; "Times New Roman"; "Times New Roman PS"; "Trebuchet MS";
   "Verdana"; "Wingdings"; "Wingdings 2"; "Wingdings 3";
   "Abadi MT Condensed Light"; "Academy Engraved LET"; "ADOBE CASLON PRO"; "Adobe Garamond"; "ADOBE GARAMOND PRO"; "Agency FB"; "Aharoni"; "Albertus Extra Bold"; "Albertus Medium"; "Algerian"; "Amazone BT"; "American Typewriter";
   "American Typewriter Condensed"; "AmerType Md BT"; "Andalus"; "Angsana New"; "AngsanaUPC"; "Antique Olive"; "Aparajita"; "Apple Chancery"; "Apple Color Emoji"; "Apple SD Gothic Neo"; "Arabic Typesetting"; "ARCHER";
   "ARNO PRO"; "Arrus BT"; "Aurora Cn BT"; "AvantGarde Bk BT"; "AvantGarde Md BT"; "AVENIR"; "Ayuthaya"; "Bandy"; "Bangla Sangam MN"; "Bank Gothic"; "BankGothic Md BT"; "Baskerville";
   "Baskerville Old Face"; "Batang"; "BatangChe"; "Bauer Bodoni"; "Bauhaus 93"; "Bazooka"; "Bell MT"; "Bembo"; "Benguiat Bk BT"; "Berlin Sans FB"; "Berlin Sans FB Demi"; "Bernard MT Condensed"; "BernhardFashion BT"; "BernhardMod BT"; "Big Caslon"; "BinnerD";
   "Blackadder ITC"; "BlairMdITC TT"; "Bodoni 72"; "Bodoni 72 Oldstyle"; "Bodoni 72 Smallcaps"; "Bodoni MT"; "Bodoni MT Black"; "Bodoni MT Condensed"; "Bodoni MT Poster Compressed";
   "Bookshelf Symbol 7"; "Boulder"; "Bradley Hand"; "Bradley Hand ITC"; "Bremen Bd BT"; "Britannic Bold"; "Broadway"; "Browallia New"; "BrowalliaUPC"; "Brush Script MT"; "Californian FB"; "Calisto MT"; "Calligrapher"; "Candara";
   "CaslonOpnface BT"; "Castellar"; "Centaur"; "Cezanne"; "CG Omega"; "CG Times"; "Chalkboard"; "Chalkboard SE"; "Chalkduster"; "Charlesworth"; "Charter Bd BT"; "Charter BT"; "Chaucer";
   "ChelthmITC Bk BT"; "Chiller"; "Clarendon"; "Clarendon Condensed"; "CloisterBlack BT"; "Cochin"; "Colonna MT"; "Constantia"; "Cooper Black"; "Copperplate"; "Copperplate Gothic"; "Copperplate Gothic Bold";
   "Copperplate Gothic Light"; "CopperplGoth Bd BT"; "Corbel"; "Cordia New"; "CordiaUPC"; "Cornerstone"; "Coronet"; "Cuckoo"; "Curlz MT"; "DaunPenh"; "Dauphin"; "David"; "DB LCD Temp"; "DELICIOUS"; "Denmark";
   "DFKai-SB"; "Didot"; "DilleniaUPC"; "DIN"; "DokChampa"; "Dotum"; "DotumChe"; "Ebrima"; "Edwardian Script ITC"; "Elephant"; "English 111 Vivace BT"; "Engravers MT"; "EngraversGothic BT"; "Eras Bold ITC"; "Eras Demi ITC"; "Eras Light ITC"; "Eras Medium ITC";
   "EucrosiaUPC"; "Euphemia"; "Euphemia UCAS"; "EUROSTILE"; "Exotc350 Bd BT"; "FangSong"; "Felix Titling"; "Fixedsys"; "FONTIN"; "Footlight MT Light"; "Forte";
   "FrankRuehl"; "Fransiscan"; "Freefrm721 Blk BT"; "FreesiaUPC"; "Freestyle Script"; "French Script MT"; "FrnkGothITC Bk BT"; "Fruitger"; "FRUTIGER";
   "Futura"; "Futura Bk BT"; "Futura Lt BT"; "Futura Md BT"; "Futura ZBlk BT"; "FuturaBlack BT"; "Gabriola"; "Galliard BT"; "Gautami"; "Geeza Pro"; "Geometr231 BT"; "Geometr231 Hv BT"; "Geometr231 Lt BT"; "GeoSlab 703 Lt BT";
   "GeoSlab 703 XBd BT"; "Gigi"; "Gill Sans"; "Gill Sans MT"; "Gill Sans MT Condensed"; "Gill Sans MT Ext Condensed Bold"; "Gill Sans Ultra Bold"; "Gill Sans Ultra Bold Condensed"; "Gisha"; "Gloucester MT Extra Condensed"; "GOTHAM"; "GOTHAM BOLD";
   "Goudy Old Style"; "Goudy Stout"; "GoudyHandtooled BT"; "GoudyOLSt BT"; "Gujarati Sangam MN"; "Gulim"; "GulimChe"; "Gungsuh"; "GungsuhChe"; "Gurmukhi MN"; "Haettenschweiler"; "Harlow Solid Italic"; "Harrington"; "Heather"; "Heiti SC"; "Heiti TC"; "HELV";
   "Herald"; "High Tower Text"; "Hiragino Kaku Gothic ProN"; "Hiragino Mincho ProN"; "Hoefler Text"; "Humanst 521 Cn BT"; "Humanst521 BT"; "Humanst521 Lt BT"; "Imprint MT Shadow"; "Incised901 Bd BT"; "Incised901 BT";
   "Incised901 Lt BT"; "INCONSOLATA"; "Informal Roman"; "Informal011 BT"; "INTERSTATE"; "IrisUPC"; "Iskoola Pota"; "JasmineUPC"; "Jazz LET"; "Jenson"; "Jester"; "Jokerman"; "Juice ITC"; "Kabel Bk BT"; "Kabel Ult BT"; "Kailasa"; "KaiTi"; "Kalinga"; "Kannada Sangam MN";
   "Kartika"; "Kaufmann Bd BT"; "Kaufmann BT"; "Khmer UI"; "KodchiangUPC"; "Kokila"; "Korinna BT"; "Kristen ITC"; "Krungthep"; "Kunstler Script"; "Lao UI"; "Latha"; "Leelawadee"; "Letter Gothic"; "Levenim MT"; "LilyUPC"; "Lithograph"; "Lithograph Light"; "Long Island";
   "Lydian BT"; "Magneto"; "Maiandra GD"; "Malayalam Sangam MN"; "Malgun Gothic";
   "Mangal"; "Marigold"; "Marion"; "Marker Felt"; "Market"; "Marlett"; "Matisse ITC"; "Matura MT Script Capitals"; "Meiryo"; "Meiryo UI"; "Microsoft Himalaya"; "Microsoft JhengHei"; "Microsoft New Tai Lue"; "Microsoft PhagsPa"; "Microsoft Tai Le";
   "Microsoft Uighur"; "Microsoft YaHei"; "Microsoft Yi Baiti"; "MingLiU"; "MingLiU_HKSCS"; "MingLiU_HKSCS-ExtB"; "MingLiU-ExtB"; "Minion"; "Minion Pro"; "Miriam"; "Miriam Fixed"; "Mistral"; "Modern"; "Modern No. 20"; "Mona Lisa Solid ITC TT"; "Mongolian Baiti";
   "MONO"; "MoolBoran"; "Mrs Eaves"; "MS LineDraw"; "MS Mincho"; "MS PMincho"; "MS Reference Specialty"; "MS UI Gothic"; "MT Extra"; "MUSEO"; "MV Boli";
   "Nadeem"; "Narkisim"; "NEVIS"; "News Gothic"; "News GothicMT"; "NewsGoth BT"; "Niagara Engraved"; "Niagara Solid"; "Noteworthy"; "NSimSun"; "Nyala"; "OCR A Extended"; "Old Century"; "Old English Text MT"; "Onyx"; "Onyx BT"; "OPTIMA"; "Oriya Sangam MN";
   "OSAKA"; "OzHandicraft BT"; "Palace Script MT"; "Papyrus"; "Parchment"; "Party LET"; "Pegasus"; "Perpetua"; "Perpetua Titling MT"; "PetitaBold"; "Pickwick"; "Plantagenet Cherokee"; "Playbill"; "PMingLiU"; "PMingLiU-ExtB";
   "Poor Richard"; "Poster"; "PosterBodoni BT"; "PRINCETOWN LET"; "Pristina"; "PTBarnum BT"; "Pythagoras"; "Raavi"; "Rage Italic"; "Ravie"; "Ribbon131 Bd BT"; "Rockwell"; "Rockwell Condensed"; "Rockwell Extra Bold"; "Rod"; "Roman"; "Sakkal Majalla";
   "Santa Fe LET"; "Savoye LET"; "Sceptre"; "Script"; "Script MT Bold"; "SCRIPTINA"; "Serifa"; "Serifa BT"; "Serifa Th BT"; "ShelleyVolante BT"; "Sherwood";
   "Shonar Bangla"; "Showcard Gothic"; "Shruti"; "Signboard"; "SILKSCREEN"; "SimHei"; "Simplified Arabic"; "Simplified Arabic Fixed"; "SimSun"; "SimSun-ExtB"; "Sinhala Sangam MN"; "Sketch Rockwell"; "Skia"; "Small Fonts"; "Snap ITC"; "Snell Roundhand"; "Socket";
   "Souvenir Lt BT"; "Staccato222 BT"; "Steamer"; "Stencil"; "Storybook"; "Styllo"; "Subway"; "Swis721 BlkEx BT"; "Swiss911 XCm BT"; "Sylfaen"; "Synchro LET"; "System"; "Tamil Sangam MN"; "Technical"; "Teletype"; "Telugu Sangam MN"; "Tempus Sans ITC";
   "Terminal"; "Thonburi"; "Traditional Arabic"; "Trajan"; "TRAJAN PRO"; "Tristan"; "Tubular"; "Tunga"; "Tw Cen MT"; "Tw Cen MT Condensed"; "Tw Cen MT Condensed Extra Bold";
   "TypoUpright BT"; "Unicorn"; "Univers"; "Univers CE 55 Medium"; "Univers Condensed"; "Utsaah"; "Vagabond"; "Vani"; "Vijaya"; "Viner Hand ITC"; "VisualUI"; "Vivaldi"; "Vladimir Script"; "Vrinda"; "Westminster"; "WHITNEY"; "Wide Latin";
   "ZapfEllipt BT"; "ZapfHumnst BT"; "ZapfHumnst Dm BT"; "Zapfino"; "Zurich BlkEx BT"; "Zurich Ex BT"; "ZWAdobeF"].

Definition testString : string := "mmmmmmmmmmlli".
Definition testSize : string := "72px".

Definition createSpan : M node :=
  s ← createElement "span";
  set_style s "position" "absolute";;
  set_style s "left" "-9999px";;
  set_style s "fontSize" testSize;;
  set_style s "fontStyle" "normal";;
  set_style s "fontWeight" "normal";;
  set_style s "letterSpacing" "normal";;
  set_style s "lineBreak" "auto";;
  set_style s "lineHeight" "normal";;
  set_style s "textTransform" "none";;
  set_style s "textAlign" "left";;
  set_style s "textDecoration" "none";;
  set_style s "textShadow" "none";;
  set_style s "whiteSpace" "normal";;
  set_style s "wordBreak" "normal";;
  set_style s "wordSpacing" "normal";;
  set_innerHTML s testString;;
  mret s.

(** The template [`'${fontToDetect}',${baseFont}`]. *)
Definition font_stack (fontToDetect baseFont : string) : string :=
  "'" +:+ fontToDetect +:+ "'," +:+ baseFont.

Definition createSpanWithFonts (fontToDetect baseFont : string) : M node :=
  s ← createSpan;
  set_style s "fontFamily" (font_stack fontToDetect baseFont);;
  mret s.

(** The loop of [initializeBaseFontsSpans] over the rest of [baseFonts]. *)
Fixpoint initializeBaseFontsSpans_from (baseFontsDiv : node)
    (rest : list string) (spans : list node) : M (list node) :=
  match rest with
  | [] => mret spans
  | baseFont :: rest =>
      s ← createSpan;
      set_style s "fontFamily" baseFont;;
      appendChild baseFontsDiv s;;
      initializeBaseFontsSpans_from baseFontsDiv rest (spans ++ [s])
  end.

Definition initializeBaseFontsSpans (baseFontsDiv : node) : M (list node) :=
  initializeBaseFontsSpans_from baseFontsDiv baseFonts [].

(** The inner loop of [initializeFontsSpans]: one span per base font. *)
Fixpoint fontSpans_from (fontsDiv : node) (font : string)
    (rest : list string) (fontSpans : list node) : M (list node) :=
  match rest with
  | [] => mret fontSpans
  | baseFont :: rest =>
      s ← createSpanWithFonts font baseFont;
      appendChild fontsDiv s;;
      fontSpans_from fontsDiv font rest (fontSpans ++ [s])
  end.

(** The outer loop; [spans] is the object keyed by font name. *)
Fixpoint initializeFontsSpans_from (fontsDiv : node) (rest : list string)
    (spans : gmap string (list node)) : M (gmap string (list node)) :=
  match rest with
  | [] => mret spans
  | font :: rest =>
      fontSpans ← fontSpans_from fontsDiv font baseFonts [];
      initializeFontsSpans_from fontsDiv rest (<[font := fontSpans]> spans)
  end.

Definition initializeFontsSpans (fontsDiv : node) : M (gmap string (list node)) :=
  initializeFontsSpans_from fontsDiv fontList ∅.

(** [fontSpans[i]] where [fontSpans] or the entry may be [undefined]: the
    property read that follows raises. *)
Definition span_at (fontSpans : option (list node)) (i : nat) : M node :=
  match fontSpans ≫= (.!! i) with
  | Some s => mret s
  | None => throw (TypeError "Cannot read properties of undefined (reading 'offsetWidth')")
  end.

(** The loop of [isFontAvailable] from index [i] on.  The source reads
    [offsetHeight] only when the widths agree; a read changes nothing, so
    both are read here. *)
Fixpoint isFontAvailable_from (defaultWidth defaultHeight : gmap string Z)
    (fontSpans : option (list node)) (i : nat) (rest : list string) : M bool :=
  match rest with
  | [] => mret false
  | baseFont :: rest =>
      s ← span_at fontSpans i;
      w ← offsetWidth s;
      h ← offsetHeight s;
      let d := bool_decide (Some w ≠ defaultWidth !! baseFont)
               || bool_decide (Some h ≠ defaultHeight !! baseFont) in
      if d then mret d
      else isFontAvailable_from defaultWidth defaultHeight fontSpans (S i) rest
  end.

Definition isFontAvailable (defaultWidth defaultHeight : gmap string Z)
    (fontSpans : option (list node)) : M bool :=
  isFontAvailable_from defaultWidth defaultHeight fontSpans 0 baseFonts.

(** The loop that records the default dimensions. *)
Fixpoint record_defaults_from (baseFontsSpans : list node) (idx : nat)
    (rest : list string) (defaultWidth defaultHeight : gmap string Z)
    : M (gmap string Z * gmap string Z) :=
  match rest with
  | [] => mret (defaultWidth, defaultHeight)
  | baseFont :: rest =>
      s ← span_at (Some baseFontsSpans) idx;
      w ← offsetWidth s;
      h ← offsetHeight s;
      record_defaults_from baseFontsSpans (S idx) rest
        (<[baseFont := w]> defaultWidth) (<[baseFont := h]> defaultHeight)
  end.

(** The last loop: the fonts judged available, in the order of the list. *)
Fixpoint collect_available (defaultWidth defaultHeight : gmap string Z)
    (fontsSpans : gmap string (list node)) (rest : list string)
    (available : list string) : M (list string) :=
  match rest with
  | [] => mret available
  | font :: rest =>
      a ← isFontAvailable defaultWidth defaultHeight (fontsSpans !! font);
      collect_available defaultWidth defaultHeight fontsSpans rest
        (if (a : bool) then available ++ [font] else available)
  end.

(** [fontSupport] has no guard either: [document] is read as it is. *)
Definition fontSupport : M value :=
  d ← global "document" document;
  let h := doc_body d in
  baseFontsDiv ← createElement "div";
  fontsDiv ← createElement "div";
  baseFontsSpans ← initializeBaseFontsSpans baseFontsDiv;
  appendChild_to h baseFontsDiv;;
  defaults ← record_defaults_from baseFontsSpans 0 baseFonts ∅ ∅;
  let defaultWidth := fst defaults in
  let defaultHeight := snd defaults in
  fontsSpans ← initializeFontsSpans fontsDiv;
  appendChild_to h fontsDiv;;
  available ← collect_available defaultWidth defaultHeight fontsSpans fontList [];
  mret (Arr (map Str available)).

(** ** The queries of the class *)

Inductive query :=
| QisNode | QisBrowser | QisMobile
| QhasWebGL | QhasWebVR | QhasMIDI | QhasTouch
| QdoNotTrack | Qorientation
| QgpuInfo | QbrowserInfo | QplatformInfo
| QaudioSupport | QvideoSupport | QpluginSupport | QstorageSupport
| QfontSupport.

Global Instance query_eq_dec : EqDecision query.
Proof. solve_decision. Defined.

Definition run (q : query) : M value :=
  match q with
  | QisNode => isNode
  | QisBrowser => b ← isBrowser; mret (Bool b)
  | QisMobile => isMobile
  | QhasWebGL => hasWebGL
  | QhasWebVR => hasWebVR
  | QhasMIDI => hasMIDI
  | QhasTouch => hasTouch
  | QdoNotTrack => doNotTrack
  | Qorientation => orientation
  | QgpuInfo => gpuInfo
  | QbrowserInfo => browserInfo
  | QplatformInfo => platformInfo
  | QaudioSupport => audioSupport
  | QvideoSupport => videoSupport
  | QpluginSupport => pluginSupport
  | QstorageSupport => storageSupport
  | QfontSupport => fontSupport
  end.

Definition all_queries : list query :=
  [QisNode; QisBrowser; QisMobile; QhasWebGL; QhasWebVR; QhasMIDI; QhasTouch;
   QdoNotTrack; Qorientation; QgpuInfo; QbrowserInfo; QplatformInfo;
   QaudioSupport; QvideoSupport; QpluginSupport; QstorageSupport;
   QfontSupport].

(** The queries that open with [if (!this.isBrowser()) return this._browserErr()]. *)
Definition guarded_queries : list query :=
  [QisMobile; QhasWebGL; QhasWebVR; QhasMIDI; QhasTouch; QdoNotTrack;
   Qorientation; QbrowserInfo; QaudioSupport; QvideoSupport; QpluginSupport;
   QstorageSupport].

(** What a call leaves behind when it takes the guard's branch. *)
Definition soft_failed (w : World) : Completion value * World :=
  (Return Undefined,
   set_console (console w ++ ["Averigua: this is not a browser"]) w).

(** ** Sample hosts *)

Definition node_world : World :=
  {| window := None; document := None; navigator := None;
     process := Some {| proc_version := Str "v10.15.3";
                        proc_platform := Str "linux";
                        proc_env := Obj [("HOME", Str "/root")] |};
     require_os := Some {| os_arch := Str "x64"; os_type := Str "Linux";
                           os_release := Str "4.15.0"; os_cpus := Arr [];
                           os_freemem := Int 1024; os_totalmem := Int 4096;
                           os_homedir := Str "/root";
                           os_hostname := Str "host";
                           os_userInfo := Obj []; os_networkInterfaces := Obj [] |};
     DocumentTouch := None;
     console := [] |}.

Definition sample_window : Window :=
  {| win_orientation := Undefined;
     win_WebGLRenderingContext := Func "WebGLRenderingContext";
     win_has_ontouchstart := false;
     win_DocumentTouch := Undefined;
     win_document_is_DocumentTouch := Return false;
     win_matchMedia := Some (λ _, Obj [("matches", Bool false)]);
     win_localStorage := Return (Obj []);
     win_sessionStorage := Return (Obj []);
     win_indexedDB := Return (Obj []) |}.

Definition with_orientation (o : value) (win : Window) : Window :=
  {| win_orientation := o;
     win_WebGLRenderingContext := win_WebGLRenderingContext win;
     win_has_ontouchstart := win_has_ontouchstart win;
     win_DocumentTouch := win_DocumentTouch win;
     win_document_is_DocumentTouch := win_document_is_DocumentTouch win;
     win_matchMedia := win_matchMedia win;
     win_localStorage := win_localStorage win;
     win_sessionStorage := win_sessionStorage win;
     win_indexedDB := win_indexedDB win |}.

Definition with_indexedDB (g : Completion value) (win : Window) : Window :=
  {| win_orientation := win_orientation win;
     win_WebGLRenderingContext := win_WebGLRenderingContext win;
     win_has_ontouchstart := win_has_ontouchstart win;
     win_DocumentTouch := win_DocumentTouch win;
     win_document_is_DocumentTouch := win_document_is_DocumentTouch win;
     win_matchMedia := win_matchMedia win;
     win_localStorage := win_localStorage win;
     win_sessionStorage := win_sessionStorage win;
     win_indexedDB := g |}.

(** The generic family that closes a font stack. *)
Definition generic_family (family : string) : string :=
  default "" (last (split "," family)).

(** A font is rendered in the first family of its stack that is installed;
    the sample host has two fonts besides the generic families. *)
Definition sample_metrics (family : string) : Z * Z :=
  if String.prefix "'Arial'," family then (614, 83)%Z
  else if String.prefix "'Courier New'," family then (562, 82)%Z
  else if String.eqb (generic_family family) "monospace" then (562, 85)%Z
  else if String.eqb (generic_family family) "sans-serif" then (640, 83)%Z
  else (601, 81)%Z.

Definition sample_layout (ns : list Element) (s : node) : Z * Z :=
  match ns !! s with
  | Some e => sample_metrics (default "" (el_style e !! "fontFamily"))
  | None => (0, 0)%Z
  end.

Definition sample_canPlayType (mime : string) : value :=
  if String.prefix "audio/mpeg" mime then Str "probably"
  else if String.prefix "video/mp4" mime then Str "maybe"
  else Str "".

Definition sample_document : Document :=
  {| doc_nodes :=
       [ {| el_tag := "html"; el_style := ∅; el_innerHTML := "";
            el_parent := None; el_children := [1; 2] |};
         {| el_tag := "head"; el_style := ∅; el_innerHTML := "";
            el_parent := Some 0; el_children := [] |};
         {| el_tag := "body"; el_style := ∅; el_innerHTML := "";
            el_parent := Some 0; el_children := [] |} ];
     doc_body := Some 2;
     doc_layout := sample_layout;
     doc_canvas_getContext := λ _, None;
     doc_audio_canPlayType := Some sample_canPlayType;
     doc_video_canPlayType := Some sample_canPlayType;
     doc_video_has_poster := true;
     doc_track_has_src := true |}.

Definition sample_navigator (ua : string) : Navigator :=
  {| nav_userAgent := ua;
     nav_getVRDisplays := Undefined;
     nav_requestMIDIAccess := Func "requestMIDIAccess";
     nav_doNotTrack := Str "1";
     nav_appName := Str "Netscape";
     nav_appVersion := Str "5.0";
     nav_plugins := Some [];
     nav_oscpu := Undefined;
     nav_hardwareConcurrency := Int 8;
     nav_platform := Str "Win32" |}.

Definition browser_world (win : Window) (ua : string) : World :=
  {| window := Some win; document := Some sample_document;
     navigator := Some (sample_navigator ua);
     process := None; require_os := None; DocumentTouch := None;
     console := [] |}.

(** A window whose [indexedDB] getter throws, as in a locked-down context. *)
Definition locked_down_window : Window :=
  with_indexedDB (Throw (HostError "SecurityError")) sample_window.

Definition ie11_ua : string :=
  "Mozilla/5.0 (Windows NT 6.1; WOW64; Trident/7.0; AS; rv:11.0) like Gecko".

Definition opera_ua : string :=
  "Mozilla/5.0 (Windows NT 10.0; Win64; x64) AppleWebKit/537.36 (KHTML, like Gecko) Chrome/70.0.3538.102 Safari/537.36 OPR/57.0.3098.106".

Definition firefox_ua : string :=
  "Mozilla/5.0 (X11; Linux x86_64; rv:65.0) Gecko/20100101 Firefox/65.0".

Definition sample_world : World := browser_world sample_window firefox_ua.

(** Hosts of the further properties. *)

(** A visual host in which [navigator] is not declared. *)
Definition bare_window_world : World :=
  {| window := Some sample_window; document := Some sample_document;
     navigator := None; process := None; require_os := None; DocumentTouch := None;
     console := [] |}.

(** A window whose [DocumentTouch] is a number, and the host that has it
    as its global object. *)
Definition odd_touch_window : Window :=
  {| win_orientation := Undefined;
     win_WebGLRenderingContext := Undefined;
     win_has_ontouchstart := false;
     win_DocumentTouch := Int 1;
     win_document_is_DocumentTouch := Return false;
     win_matchMedia := Some (λ _, Obj [("matches", Bool false)]);
     win_localStorage := Return (Obj []);
     win_sessionStorage := Return (Obj []);
     win_indexedDB := Return (Obj []) |}.

Definition odd_touch_world : World :=
  {| window := Some odd_touch_window; document := Some sample_document;
     navigator := Some (sample_navigator firefox_ua);
     process := None; require_os := None; DocumentTouch := Some (Int 1);
     console := [] |}.

(** A touch device whose window has no [matchMedia]. *)
Definition touch_window : Window :=
  {| win_orientation := Int 0;
     win_WebGLRenderingContext := Undefined;
     win_has_ontouchstart := true;
     win_DocumentTouch := Undefined;
     win_document_is_DocumentTouch := Return false;
     win_matchMedia := None;
     win_localStorage := Return (Obj []);
     win_sessionStorage := Return (Obj []);
     win_indexedDB := Return (Obj []) |}.

(** A document whose media elements have no [canPlayType]. *)
Definition old_document : Document :=
  {| doc_nodes := doc_nodes sample_document;
     doc_body := doc_body sample_document;
     doc_layout := doc_layout sample_document;
     doc_canvas_getContext := λ _, None;
     doc_audio_canPlayType := None;
     doc_video_canPlayType := None;
     doc_video_has_poster := true;
     doc_track_has_src := true |}.

Definition old_world : World :=
  {| window := Some sample_window; document := Some old_document;
     navigator := Some (sample_navigator firefox_ua);
     process := None; require_os := None; DocumentTouch := None;
     console := [] |}.

Definition flash_plugin : Plugin :=
  {| plugin_name := Str "Shockwave Flash";
     plugin_description := Str "Shockwave Flash 32.0 r0";
     plugin_filename := Str "libpepflashplayer.so";
     plugin_mimes :=
       [ {| mime_description := Str "Shockwave Flash";
            mime_type := Str "application/x-shockwave-flash";
            mime_suffixes := Str "swf" |};
         {| mime_description := Str "FutureSplash Player";
            mime_type := Str "application/futuresplash";
            mime_suffixes := Str "spl" |} ] |}.

Definition with_plugins (ps : option (list Plugin)) (nav : Navigator) : Navigator :=
  {| nav_userAgent := nav_userAgent nav;
     nav_getVRDisplays := nav_getVRDisplays nav;
     nav_requestMIDIAccess := nav_requestMIDIAccess nav;
     nav_doNotTrack := nav_doNotTrack nav;
     nav_appName := nav_appName nav;
     nav_appVersion := nav_appVersion nav;
     nav_plugins := ps;
     nav_oscpu := nav_oscpu nav;
     nav_hardwareConcurrency := nav_hardwareConcurrency nav;
     nav_platform := nav_platform nav |}.

Definition plugin_world : World :=
  {| window := Some sample_window; document := Some sample_document;
     navigator := Some (with_plugins (Some [flash_plugin])
                          (sample_navigator firefox_ua));
     process := None; require_os := None; DocumentTouch := None;
     console := [] |}.

(** A context whose parameters are numbered as in WebGL. *)
Definition sample_gl : GLContext :=
  {| gl_getExtension := λ name,
       if String.eqb name "WEBGL_debug_renderer_info"
       then Some {| UNMASKED_VENDOR_WEBGL := Int 37445;
                    UNMASKED_RENDERER_WEBGL := Int 37446 |}
       else None;
     gl_getParameter := λ p,
       if strict_eq_num p 7936 then Str "WebKit"
       else if strict_eq_num p 7937 then Str "WebKit WebGL"
       else if strict_eq_num p 37445 then Str "Intel Inc."
       else if strict_eq_num p 37446 then Str "Intel Iris OpenGL Engine"
       else Null;
     gl_VENDOR := Int 7936;
     gl_RENDERER := Int 7937 |}.

Definition gl_document : Document :=
  {| doc_nodes := doc_nodes sample_document;
     doc_body := doc_body sample_document;
     doc_layout := doc_layout sample_document;
     doc_canvas_getContext := λ kind,
       if String.eqb kind "webgl" then Some sample_gl else None;
     doc_audio_canPlayType := None;
     doc_video_canPlayType := None;
     doc_video_has_poster := false;
     doc_track_has_src := false |}.

(** A host with a document and no window. *)
Definition gl_world : World :=
  {| window := None; document := Some gl_document; navigator := None;
     process := None; require_os := None; DocumentTouch := None;
     console := [] |}.

(** A visual host whose canvas gives a "webgl" context and no
    "experimental-webgl" context. *)
Definition webgl_only_world : World :=
  {| window := Some sample_window; document := Some gl_document;
     navigator := Some (sample_navigator firefox_ua);
     process := None; require_os := None; DocumentTouch := None;
     console := [] |}.







(** A document laid out without rendering: every box is 0 by 0. *)
Definition headless_document : Document :=
  {| doc_nodes := doc_nodes sample_document;
     doc_body := doc_body sample_document;
     doc_layout := λ _ _, (0, 0)%Z;
     doc_canvas_getContext := λ _, None;
     doc_audio_canPlayType := None;
     doc_video_canPlayType := None;
     doc_video_has_poster := false;
     doc_track_has_src := false |}.

Definition headless_world : World :=
  {| window := Some sample_window; document := Some headless_document;
     navigator := Some (sample_navigator firefox_ua);
     process := None; require_os := None; DocumentTouch := None;
     console := [] |}.

(** A document without a body. *)
Definition bodyless_document : Document :=
  {| doc_nodes := [];
     doc_body := None;
     doc_layout := doc_layout sample_document;
     doc_canvas_getContext := λ _, None;
     doc_audio_canPlayType := None;
     doc_video_canPlayType := None;
     doc_video_has_poster := false;
     doc_track_has_src := false |}.

Definition bodyless_world : World :=
  {| window := Some sample_window; document := Some bodyless_document;
     navigator := Some (sample_navigator firefox_ua);
     process := None; require_os := None; DocumentTouch := None;
     console := [] |}.

Definition safari_ua : string :=
  "Mozilla/5.0 (Macintosh; Intel Mac OS X 10_14) AppleWebKit/605.1.15 (KHTML, like Gecko) Version/12.0 Safari/605.1.15".

Definition curl_ua : string := "curl/7.64.1".

(** An IE client string in compatibility view, with its MSIE token first. *)
Definition compat_ua : string :=
  "Mozilla/4.0 (compatible; MSIE 7.0; Windows NT 6.1; Trident/7.0; rv:11.0)".

(** A Chrome client string with an Edge token before its OPR token. *)
Definition edge_opr_ua : string :=
  "Mozilla/5.0 (Windows NT 10.0; Win64; x64) AppleWebKit/537.36 (KHTML, like Gecko) Chrome/70.0.3538.102 Safari/537.36 Edge/18.17763 OPR/57.0.3098.106".

(** * The vocabulary of the statements *)

(** ** Hosts and outcomes *)

(** What [isBrowser()] answers in [w]. *)
Definition visual (w : World) : bool :=
  bool_decide (is_Some (window w)) && bool_decide (is_Some (document w)).

(** The record [storageSupport] returns when the three reads give [l], [s]
    and [i]. *)
Definition storage_record (l s i : value) : value :=
  Obj [("localStorage", Bool (truthy l)); ("sessionStorage", Bool (truthy s));
       ("indexedDB", Bool (truthy i))].

(** A query soft-fails when, outside a visual host, it takes the guard's
    branch: the diagnostic, [undefined], no exception. *)
Definition soft_fails (q : query) : Prop :=
  ∀ w, fst (isBrowser w) = Return false → run q w = soft_failed w.

(** ** Codecs and media queries *)

(** What [canPlayType] answers by its contract. *)
Definition codec_answer (v : value) : Prop :=
  v = Str "" ∨ v = Str "maybe" ∨ v = Str "probably".

(** The codec fields with the string each is probed with. *)
Definition audio_codecs : list (string * string) :=
  [("mp3", "audio/mpeg;");
   ("vorbis", "audio/ogg; " +:+ codecs "vorbis");
   ("wav", "audio/wav; " +:+ codecs "1");
   ("aac", "audio/mp4; " +:+ codecs "mp4a.40.2")].

Definition video_codecs : list (string * string) :=
  [("webm", "video/webm; " +:+ codecs "vp8, vorbis");
   ("h264", "video/mp4; " +:+ codecs "avc1.42E01E, mp4a.40.2");
   ("theora", "video/ogg; " +:+ codecs "theora")].

(** The values a codec field may take. *)
Definition normalized : list value := [Str "no"; Str "maybe"; Str "probably"].

(** The prefixes the specification lists. *)
Definition vendor_prefixes : list string :=
  [""; "-webkit-"; "-moz-"; "-o-"; "-ms-"].

(** ** The document during fontSupport *)

(** The world [w] with the node store of its document [d] replaced. *)
Definition in_doc (w : World) (d : Document) (ns : list Element) : World :=
  set_document (set_nodes ns d) w.

(** The style [createSpan] pins, in the order of its assignments. *)
Definition span_style : gmap string string :=
  <["wordSpacing" := "normal"]> (<["wordBreak" := "normal"]>
  (<["whiteSpace" := "normal"]> (<["textShadow" := "none"]>
  (<["textDecoration" := "none"]> (<["textAlign" := "left"]>
  (<["textTransform" := "none"]> (<["lineHeight" := "normal"]>
  (<["lineBreak" := "auto"]> (<["letterSpacing" := "normal"]>
  (<["fontWeight" := "normal"]> (<["fontStyle" := "normal"]>
  (<["fontSize" := testSize]> (<["left" := "-9999px"]>
  (<["position" := "absolute"]> ∅)))))))))))))).

(** A probe span of the given font family, under [parent] if any. *)
Definition probe_span (family : string) (parent : option node) : Element :=
  {| el_tag := "span"; el_style := <["fontFamily" := family]> span_style;
     el_innerHTML := testString; el_parent := parent; el_children := [] |}.

(** The span [createSpan] returns. *)
Definition plain_span : Element :=
  {| el_tag := "span"; el_style := span_style; el_innerHTML := testString;
     el_parent := None; el_children := [] |}.

(** The store after a span of [family] is created and appended to [parent]. *)
Definition add_span (parent : node) (ns : list Element) (family : string)
    : list Element :=
  attach parent (length ns) (ns ++ [probe_span family None]).

(** The same for a list of families, in order. *)
Definition add_spans (parent : node) (families : list string)
    (ns : list Element) : list Element :=
  foldl (add_span parent) ns families.

(** The font families of the candidate spans, in the order of creation. *)
Definition candidate_families (fonts : list string) : list string :=
  fonts ≫= λ font, map (font_stack font) baseFonts.

(** The object [spans] after the loop over [fonts], the first span being
    node [k]. *)
Fixpoint spans_object (fonts : list string) (k : node)
    (spans : gmap string (list node)) : gmap string (list node) :=
  match fonts with
  | [] => spans
  | font :: fonts =>
      spans_object fonts (k + length baseFonts)
        (<[font := seq k (length baseFonts)]> spans)
  end.

(** A container [div]. *)
Definition container (parent : option node) (children : list node) : Element :=
  {| el_tag := "div"; el_style := ∅; el_innerHTML := ""; el_parent := parent;
     el_children := children |}.

(** An element that got the children [cs] appended. *)
Definition adopt (cs : list node) : Element → Element :=
  with_children (λ old, old ++ cs).

(** The nodes of the baseline spans and of the candidate spans, [n0] being
    the size of the store before the call. *)
Definition base_spans (n0 : node) : list node := seq (n0 + 2) (length baseFonts).

Definition candidate_spans (fonts : list string) (n0 : node) : list node :=
  seq (n0 + 5) (length (candidate_families fonts)).

(** The store when the default dimensions are read: the body [h] has
    adopted the first container, node [n0], which holds the three baseline
    spans; the second container, node [n0 + 1], is still detached and empty. *)
Definition base_store (h : node) (ns0 : list Element) : list Element :=
  let n0 := length ns0 in
  alter (adopt [n0]) h ns0
  ++ [container (Some h) (base_spans n0); container None []]
  ++ map (λ b, probe_span b (Some n0)) baseFonts.

(** The store when the candidates are measured, and when the call returns. *)
Definition font_store (fonts : list string) (h : node) (ns0 : list Element)
    : list Element :=
  let n0 := length ns0 in
  alter (adopt [n0; n0 + 1]) h ns0
  ++ [container (Some h) (base_spans n0);
      container (Some h) (candidate_spans fonts n0)]
  ++ map (λ b, probe_span b (Some n0)) baseFonts
  ++ map (λ family, probe_span family (Some (n0 + 1))) (candidate_families fonts).

(** ** Dimensions *)

(** Width or height differs. *)
Definition differs (a b : Z * Z) : Prop := a.1 ≠ b.1 ∨ a.2 ≠ b.2.

Global Instance differs_dec a b : Decision (differs a b).
Proof. unfold differs. apply _. Defined.

(** The objects [defaultWidth] and [defaultHeight] after the recording
    loop over spans [bs] of the base fonts [bases]. *)
Definition recorded (proj : Z * Z → Z) (layout : node → Z * Z)
    (bases : list string) (bs : list node) : gmap string Z :=
  foldl (λ m bn, <[bn.1 := proj (layout bn.2)]> m) ∅ (zip bases bs).

(** A candidate is judged against the three recorded baselines. *)
Definition judged (L1 L2 : node → Z * Z) (bs ts : list node) : Prop :=
  ∃ j b t, bs !! j = Some b ∧ ts !! j = Some t ∧ differs (L2 t) (L1 b).

Global Instance judged_dec L1 L2 bs ts : Decision (judged L1 L2 bs ts).
Proof.
  refine (cast_if (decide (Exists (λ bt, differs (L2 bt.2) (L1 bt.1)) (zip bs ts))));
    unfold judged; rewrite Exists_exists in *.
  - destruct e as ([b t] & [j Hj]%list_elem_of_lookup_1 & Hd).
    apply lookup_zip_Some in Hj as [??]. eauto 10.
  - intros (j & b & t & Hb & Ht & Hd). apply n. exists (b, t). split; [|done].
    apply (list_elem_of_lookup_2 _ j). by apply lookup_zip_Some.
Defined.

(** The candidates the last loop keeps, by the spans the object holds. *)
Definition kept (d : Document) (h : node) (fonts : list string)
    (ns0 : list Element) (font : string) : Prop :=
  judged (doc_layout d (base_store h ns0))
         (doc_layout d (font_store fonts h ns0))
         (base_spans (length ns0))
         (default [] (spans_object fonts (length ns0 + 5) ∅ !! font)).

Global Instance kept_dec d h fonts ns0 font : Decision (kept d h fonts ns0 font).
Proof. unfold kept. apply _. Defined.

(** The children of node [n] in the document of [w]. *)
Definition children_of (w : World) (n : node) : option (list node) :=
  d ← document w; e ← doc_nodes d !! n; Some (el_children e).

(** In the store [ns] the layout engine measures shown nodes by
    themselves: for a node that is a child of a child of [h], as the probe
    spans are when they are measured, the dimensions depend only on the
    node's own tag, style and text.  Nothing is asked of the dimensions of
    other nodes, detached ones included. *)
Definition measures_shown_in (d : Document) (h : node)
    (m : string → gmap string string → string → Z * Z) (ns : list Element)
    : Prop :=
  ∀ (s c : node) (e ce : Element),
    ns !! s = Some e → el_parent e = Some c →
    ns !! c = Some ce → el_parent ce = Some h →
    doc_layout d ns s = m (el_tag e) (el_style e) (el_innerHTML e).



(** What such a layout engine gives a probe span of [family]. *)
Definition probe_dimensions
    (m : string → gmap string string → string → Z * Z) (family : string)
    : Z * Z :=
  m "span" (<["fontFamily" := family]> span_style) testString.

(** A candidate that such a layout engine renders, over some baseline,
    with other dimensions than the baseline alone. *)
Definition rendered_apart
    (m : string → gmap string string → string → Z * Z) (font : string) : Prop :=
  Exists (λ base, differs (probe_dimensions m (font_stack font base))
                          (probe_dimensions m base)) baseFonts.

Global Instance rendered_apart_dec m font : Decision (rendered_apart m font).
Proof. unfold rendered_apart. apply _. Defined.

(** How the sample documents measure a shown node. *)
Definition sample_local_metrics (tag : string) (style : gmap string string)
    (text : string) : Z * Z :=
  sample_metrics (default "" (style !! "fontFamily")).

(** ** Queries by what they read and return *)

(** The queries that read [navigator]. *)
Definition navigator_queries : list query :=
  [QisMobile; QhasWebVR; QhasMIDI; QdoNotTrack; QbrowserInfo; QpluginSupport;
   QplatformInfo].

(** The queries that the source ends in [return true] or [return false], or
    in a negation. *)
Definition boolean_queries : list query :=
  [QisMobile; QhasWebGL; QhasWebVR; QhasMIDI; QhasTouch; QdoNotTrack].

(** No touch evidence: 'ontouchstart' is not in [window], and
    [window.DocumentTouch] is falsy or [document] is not an instance of the
    function [DocumentTouch]. *)
Definition no_touch_evidence (w : World) (win : Window) : Prop :=
  win_has_ontouchstart win = false
  ∧ (truthy (win_DocumentTouch win) = false
     ∨ ((∃ f, DocumentTouch w = Some (Func f))
        ∧ win_document_is_DocumentTouch win = Return false)).

(** ** Results *)

(** The condition under which [browserInfo] answers with a string: the
    first browser token is Trident, or it is Chrome and the client string
    has an OPR or Edge token. *)
Definition answers_string (ua : string) : bool :=
  let M := default [] (exec browser_re ua) in
  test trident_re (opt_to_string (at_index M 1))
  || (bool_decide (at_index M 1 = Some "Chrome")
      && bool_decide (is_Some (exec opr_edge_re ua))).


Definition all_no (names : list string) : value :=
  Obj (map (λ name, (name, Str "no")) names).

(** ** Client strings *)

(** The thirteen alternatives of the pattern of [isMobile]. *)
Definition mobile_tokens : list string :=
  ["Android"; "webOS"; "iPhone"; "iPad"; "iPod"; "BlackBerry"; "BB";
   "PlayBook"; "IEMobile"; "Windows Phone"; "Kindle"; "Silk"; "Opera Mini"].

(** A string with a-z folded to A-Z. *)
Fixpoint fold_case (s : string) : string :=
  match s with
  | EmptyString => EmptyString
  | String c t => String (canonicalize true c) (fold_case t)
  end.

(** [token] occurs in [s], letter case aside. *)
Definition occurs_nocase (token s : string) : Prop :=
  ∃ pre mid post, s = pre +:+ mid +:+ post ∧ fold_case mid = fold_case token.

(** [word] opens [s], letter case aside. *)
Fixpoint opens_nocase (word : string) (s : list ascii) : bool :=
  match word, s with
  | EmptyString, _ => true
  | String c word', ch :: s' =>
      Ascii.eqb (canonicalize true ch) (canonicalize true c)
      && opens_nocase word' s'
  | String _ _, [] => false
  end.

(** A non-empty run of decimal digits. *)
Definition decimal (s : string) : Prop :=
  s ≠ "" ∧ forallb is_digit (list_ascii_of_string s) = true.

(** The six names of the pattern of [browserInfo]. *)
Definition browser_names : list string :=
  ["opera"; "chrome"; "safari"; "firefox"; "msie"; "trident"].

(** The results of [browserInfo]. *)
Inductive browser_report (nav : Navigator) : value → Prop :=
| report_ie version :
    version = "" ∨ decimal version →
    browser_report nav (Str ("IE " +:+ version))
| report_opera version :
    decimal version → browser_report nav (Str ("Opera " +:+ version))
| report_edge version :
    decimal version → browser_report nav (Str ("Edge " +:+ version))
| report_token name version :
    fold_case name ∈ map fold_case browser_names → decimal version →
    browser_report nav (Obj [("name", Str name); ("version", Str version)])
| report_app_version version :
    decimal version →
    browser_report nav (Obj [("name", nav_appName nav); ("version", Str version)])
| report_app :
    browser_report nav
      (Obj [("name", nav_appName nav); ("version", nav_appVersion nav)]).

(** ** The matcher as a relation *)

(** The positions a pattern can reach from a position: what the
    backtracking matcher explores, as a relation. *)
Fixpoint walks (icase : bool) (r : regex) (x y : mstate) : Prop :=
  match r with
  | Eps => y = x
  | Char c =>
      ∃ ch, ms_rest x = ch :: ms_rest y
        ∧ canonicalize icase ch = canonicalize icase c
        ∧ ms_prev y = Some ch ∧ ms_caps y = ms_caps x
  | Class p =>
      ∃ ch, ms_rest x = ch :: ms_rest y ∧ p ch = true
        ∧ ms_prev y = Some ch ∧ ms_caps y = ms_caps x
  | Seq r1 r2 => ∃ m, walks icase r1 x m ∧ walks icase r2 m y
  | Alt r1 r2 => walks icase r1 x y ∨ walks icase r2 x y
  | Star r' => rtc (walks icase r') x y
  | Group n r' =>
      ∃ y', walks icase r' x y'
        ∧ y = with_caps y' (<[n := consumed x y']> (ms_caps y'))
  | Lookahead r' =>
      ∃ y', walks icase r' x y' ∧ y = with_caps x (ms_caps y')
  | WordBoundary =>
      y = x ∧ xorb (opt_is_word (ms_prev x)) (opt_is_word (head (ms_rest x))) = true
  end.

(** [y] is [x] moved over the text [mid], captures untouched. *)
Definition moved (x y : mstate) (mid : string) : Prop :=
  ms_rest x = list_ascii_of_string mid ++ ms_rest y ∧ ms_caps y = ms_caps x.

(** ** Words in a client string *)

(** [word] opens [s]; letter case aside when [icase]. *)
Fixpoint starts (icase : bool) (word : string) (s : list ascii) : bool :=
  match word, s with
  | EmptyString, _ => true
  | String c word', ch :: s' =>
      Ascii.eqb (canonicalize icase ch) (canonicalize icase c)
      && starts icase word' s'
  | String _ _, [] => false
  end.

(** [word] occurs in [s]. *)
Fixpoint occurs (icase : bool) (word : string) (s : list ascii) : bool :=
  starts icase word s
  || match s with
     | [] => false
     | _ :: t => occurs icase word t
     end.

(** The first character of [s] is a [p]. *)
Definition opens_with (p : ascii → bool) (s : string) : bool :=
  match s with
  | String c _ => p c
  | EmptyString => false
  end.

(** The last character of [s] is a word character. *)
Definition ends_in_word (s : string) : bool :=
  opt_is_word (last (list_ascii_of_string s)).

(** The position [n] characters on. *)
Fixpoint advance (n : nat) (x : mstate) : mstate :=
  match n with
  | O => x
  | S n' =>
      match ms_rest x with
      | ch :: t =>
          advance n' {| ms_prev := Some ch; ms_rest := t; ms_caps := ms_caps x |}
      | [] => x
      end
  end.

(** The length of the longest run of [p] that opens [s]. *)
Fixpoint run_length (p : ascii → bool) (s : list ascii) : nat :=
  match s with
  | ch :: t => if p ch then S (run_length p t) else O
  | [] => O
  end.

(** None of [words] occurs in [s]. *)
Definition free_of (icase : bool) (words : list string) (s : string) : bool :=
  forallb (λ word, negb (occurs icase word (list_ascii_of_string s))) words.

(** One of the alternatives, each a word with what must follow it, opens
    [s]. *)
Definition heads (icase : bool) (alternatives : list (string * string))
    (s : list ascii) : bool :=
  existsb (λ wf, starts icase wf.1 s
                 && starts icase wf.2 (drop (String.length wf.1) s))
    alternatives.

(** No alternative that began before [t] can end inside [t]. *)
Definition straddle_free (icase : bool) (alternatives : list (string * string))
    (t : list ascii) : bool :=
  forallb (λ wf,
    forallb (λ k, negb (starts icase (drop_chars k wf.1) t
                        && starts icase wf.2 (drop (String.length wf.1 - k) t)))
      (seq 1 (String.length wf.1 - 1)))
    alternatives.

(** The alternatives that open the patterns of [browserInfo]. *)
Definition browser_heads : list (string * string) :=
  [("opera", ""); ("chrome", ""); ("safari", ""); ("firefox", "");
   ("msie", ""); ("trident", "/")].

(** ** Calls in a row *)

(** The host after [k] calls of [fontSupport()] in a row. *)
Fixpoint after_calls (k : nat) (w : World) : World :=
  match k with
  | O => w
  | S k => snd (fontSupport (after_calls k w))
  end.

(** The number of nodes of the document of [w]. *)
Definition node_count (w : World) : option nat :=
  d ← document w; Some (length (doc_nodes d)).

(** * Properties *)

(** ** Running the monad *)

Lemma bind_run {A B} (m : M A) (f : A → M B) (w : World) :
  (m ≫= f) w =
  match m w with
  | (Return a, w') => f a w'
  | (Throw e, w') => (Throw e, w')
  end.
Proof. reflexivity. Qed.

Lemma mret_run {A} (a : A) (w : World) : (mret a : M A) w = (Return a, w).
Proof. reflexivity. Qed.

Lemma isBrowser_run w : isBrowser w = (Return (visual w), w).
Proof. reflexivity. Qed.

Lemma visual_true w :
  visual w = true ↔ is_Some (window w) ∧ is_Some (document w).
Proof.
  unfold visual. rewrite andb_true_iff, !bool_decide_eq_true. done.
Qed.

Lemma isBrowser_false w : fst (isBrowser w) = Return false → visual w = false.
Proof. rewrite isBrowser_run. simpl. congruence. Qed.

Lemma isBrowser_true w : fst (isBrowser w) = Return true → visual w = true.
Proof. rewrite isBrowser_run. simpl. congruence. Qed.

(** Every guarded query starts the same way. *)
Lemma guard_run (body : M value) w :
  (b ← isBrowser; if negb b then _browserErr else body) w =
  if visual w then body w else soft_failed w.
Proof. rewrite bind_run, isBrowser_run. by destruct (visual w). Qed.

Lemma run_guarded q :
  q ∈ guarded_queries →
  ∃ body, run q = (b ← isBrowser; if negb b then _browserErr else body).
Proof.
  unfold guarded_queries. rewrite !elem_of_cons, elem_of_nil.
  intros H. destruct_or!; subst q; try done; eexists; reflexivity.
Qed.

Lemma guarded_soft_fails q w :
  q ∈ guarded_queries → visual w = false → run q w = soft_failed w.
Proof.
  intros [body ->]%run_guarded Hv. by rewrite guard_run, Hv.
Qed.

Lemma global_run {A} name (f : World → option A) w :
  global name f w =
  match f w with
  | Some a => (Return a, w)
  | None => (Throw (ReferenceError name), w)
  end.
Proof. reflexivity. Qed.

Ltac step :=
  first
    [ rewrite bind_run
    | rewrite global_run
    | progress cbn [fst snd mret M_ret throw getter]
    | match goal with
      | |- context [match ?x with _ => _ end] => destruct x eqn:?
      | |- context [if ?b then _ else _] => destruct b eqn:?
      end ].

Lemma guarded_body_defined q w :
  q ∈ guarded_queries → visual w = true → fst (run q w) ≠ Return Undefined.
Proof.
  unfold guarded_queries. rewrite !elem_of_cons, elem_of_nil.
  intros Hq Hv.
  destruct_or!; subst q; try done; unfold run;
    [ unfold isMobile | unfold hasWebGL | unfold hasWebVR | unfold hasMIDI
    | unfold hasTouch, mq | unfold doNotTrack | unfold orientation
    | unfold browserInfo | unfold audioSupport | unfold videoSupport
    | unfold pluginSupport | unfold storageSupport ];
    rewrite guard_run, Hv; repeat step; try discriminate.
Qed.

(** ** The guard *)

(** C1, as the code has it.  Outside a visual host each of the twelve guarded
    queries writes the diagnostic line to the console and returns
    [undefined], the value of [_browserErr()]: there is no sentinel value.
    No exception is raised, and [undefined] is told apart from every result
    the same query returns inside a visual host. *)
Theorem guarded_query_outside_browser (q : query) (w w' : World) :
  q ∈ guarded_queries →
  fst (isBrowser w) = Return false →
  fst (isBrowser w') = Return true →
  run q w = (Return Undefined,
             set_console (console w ++ ["Averigua: this is not a browser"]) w)
  ∧ fst (run q w') ≠ Return Undefined.
Proof.
  intros Hq Hw%isBrowser_false Hw'%isBrowser_true. split.
  - by apply guarded_soft_fails.
  - by apply guarded_body_defined.
Qed.

Lemma guarded_query_outside_browser_witness :
  run QisMobile node_world
    = (Return Undefined,
       set_console (console node_world ++ ["Averigua: this is not a browser"])
         node_world)
  ∧ fst (run QisMobile (browser_world sample_window firefox_ua))
    ≠ Return Undefined.
Proof.
  apply (guarded_query_outside_browser QisMobile node_world
           (browser_world sample_window firefox_ua)).
  - apply list_elem_of_here.
  - reflexivity.
  - reflexivity.
Defined.

(** C1 as stated fails: outside a visual host [isMobile()] returns
    [undefined]. *)
Lemma isMobile_outside_browser_is_undefined :
  fst (isBrowser node_world) = Return false
  ∧ fst (isMobile node_world) = Return Undefined
  ∧ console (snd (isMobile node_world)) = ["Averigua: this is not a browser"].
Proof. repeat split. Qed.

(** ** orientation *)

Lemma strict_eq_num_Int v z : strict_eq_num v z = true ↔ v = Int z.
Proof.
  unfold strict_eq_num, Int. destruct v as [| | |[q| |]| | | |]; simpl;
    try (split; [discriminate|intros [=]]).
  rewrite bool_decide_eq_true. split; [by intros ->|by intros [=]].
Qed.

(** C2, as the code has it.  In a visual host [orientation()] returns one of
    the three strings and leaves the host as it was: "landscape" for an angle
    of -90 or 90, "portrait" for every other number that is neither zero nor
    NaN, "no-support" when the property is absent. *)
Theorem orientation_in_visual_host (w : World) (win : Window) :
  window w = Some win →
  is_Some (document w) →
  ∃ s, orientation w = (Return (Str s), w)
    ∧ s ∈ ["landscape"; "portrait"; "no-support"]
    ∧ (win_orientation win = Int (-90) ∨ win_orientation win = Int 90 →
       s = "landscape")
    ∧ (∀ n, win_orientation win = Num n →
            n ≠ NaN → n ≠ Fin (Qc_of_Z 0) →
            n ≠ Fin (Qc_of_Z (-90)) → n ≠ Fin (Qc_of_Z 90) →
            s = "portrait")
    ∧ (win_orientation win = Undefined → s = "no-support").
Proof.
  intros Hwin Hdoc.
  assert (Hv : visual w = true) by (apply visual_true; rewrite Hwin; eauto).
  unfold orientation. rewrite guard_run, Hv, bind_run, global_run, Hwin.
  set (o := win_orientation win).
  destruct (truthy o) eqn:Ht.
  - destruct (strict_eq_num o (-90) || strict_eq_num o 90) eqn:He.
    + exists "landscape". split_and!; [done|set_solver|done| |].
      * intros n Hn _ _ H1 H2. exfalso.
        apply orb_true_iff in He as [He|He]; apply strict_eq_num_Int in He;
          rewrite He in Hn; injection Hn as <-; [by apply H1|by apply H2].
      * intros Ho. by rewrite Ho in Ht.
    + exists "portrait". split_and!; [done|set_solver| |done|].
      * apply orb_false_iff in He as [H1 H2].
        intros [Ho|Ho]; apply strict_eq_num_Int in Ho; congruence.
      * intros Ho. by rewrite Ho in Ht.
  - exists "no-support". split_and!; [done|set_solver| | |done].
    + intros [Ho|Ho]; rewrite Ho in Ht; by vm_compute in Ht.
    + intros n Hn Hnan H0 _ _. exfalso. rewrite Hn in Ht.
      destruct n as [q| |]; simpl in Ht; try done.
      apply negb_false_iff, bool_decide_eq_true in Ht. by subst q.
Qed.

Lemma orientation_in_visual_host_witness :
  ∃ s, orientation (browser_world (with_orientation (Int 180) sample_window) firefox_ua)
       = (Return (Str s),
          browser_world (with_orientation (Int 180) sample_window) firefox_ua)
    ∧ s ∈ ["landscape"; "portrait"; "no-support"]
    ∧ (Int 180 = Int (-90) ∨ Int 180 = Int 90 → s = "landscape")
    ∧ (∀ n, Int 180 = Num n →
            n ≠ NaN → n ≠ Fin (Qc_of_Z 0) →
            n ≠ Fin (Qc_of_Z (-90)) → n ≠ Fin (Qc_of_Z 90) →
            s = "portrait")
    ∧ (Int 180 = Undefined → s = "no-support").
Proof.
  apply (orientation_in_visual_host
           (browser_world (with_orientation (Int 180) sample_window) firefox_ua)
           (with_orientation (Int 180) sample_window)).
  - reflexivity.
  - exists sample_document. reflexivity.
Defined.

(** C2 as stated fails on two inputs: outside a visual host the result is
    [undefined], none of the three strings; and an angle of 0 gives
    "no-support", not "portrait". *)
Lemma orientation_not_always_as_stated :
  fst (orientation node_world) = Return Undefined
  ∧ fst (orientation
           (browser_world (with_orientation (Int 0) sample_window) firefox_ua))
    = Return (Str "no-support").
Proof. split; reflexivity. Qed.

(** ** storageSupport *)

(** C3, as the code has it.  In a visual host each field of the record is
    true iff reading the corresponding global gives a truthy value.  Nothing
    catches a getter that throws: the first exception raised by reading
    [localStorage], [sessionStorage] or [indexedDB], in this order, is the
    outcome of the call. *)
Theorem storageSupport_in_visual_host (w : World) (win : Window) :
  window w = Some win →
  is_Some (document w) →
  (∀ l s i, win_localStorage win = Return l →
            win_sessionStorage win = Return s →
            win_indexedDB win = Return i →
            storageSupport w = (Return (storage_record l s i), w))
  ∧ (∀ e, win_localStorage win = Throw e → storageSupport w = (Throw e, w))
  ∧ (∀ l e, win_localStorage win = Return l →
            win_sessionStorage win = Throw e →
            storageSupport w = (Throw e, w))
  ∧ (∀ l s e, win_localStorage win = Return l →
              win_sessionStorage win = Return s →
              win_indexedDB win = Throw e →
              storageSupport w = (Throw e, w)).
Proof.
  intros Hwin Hdoc.
  assert (Hv : visual w = true) by (apply visual_true; rewrite Hwin; eauto).
  unfold storageSupport, storage_record.
  rewrite guard_run, Hv, bind_run, global_run, Hwin.
  split_and!; intros; rewrite !bind_run; unfold getter;
    repeat match goal with H : _ win = _ |- _ => rewrite H; clear H end;
    rewrite ?bind_run; try done.
  cbn. by repeat match goal with |- context [truthy ?v] => destruct (truthy v) end.
Qed.

Lemma storageSupport_in_visual_host_witness :
  (∀ l s i, win_localStorage locked_down_window = Return l →
            win_sessionStorage locked_down_window = Return s →
            win_indexedDB locked_down_window = Return i →
            storageSupport (browser_world locked_down_window firefox_ua)
            = (Return (storage_record l s i),
               browser_world locked_down_window firefox_ua))
  ∧ (∀ e, win_localStorage locked_down_window = Throw e →
          storageSupport (browser_world locked_down_window firefox_ua)
          = (Throw e, browser_world locked_down_window firefox_ua))
  ∧ (∀ l e, win_localStorage locked_down_window = Return l →
            win_sessionStorage locked_down_window = Throw e →
            storageSupport (browser_world locked_down_window firefox_ua)
            = (Throw e, browser_world locked_down_window firefox_ua))
  ∧ (∀ l s e, win_localStorage locked_down_window = Return l →
              win_sessionStorage locked_down_window = Return s →
              win_indexedDB locked_down_window = Throw e →
              storageSupport (browser_world locked_down_window firefox_ua)
              = (Throw e, browser_world locked_down_window firefox_ua)).
Proof.
  apply (storageSupport_in_visual_host
           (browser_world locked_down_window firefox_ua) locked_down_window).
  - reflexivity.
  - exists sample_document. reflexivity.
Defined.

(** C3 as stated fails: when the [indexedDB] getter throws, the call throws
    and returns no record. *)
Lemma storageSupport_propagates_throw :
  win_indexedDB locked_down_window = Throw (HostError "SecurityError")
  ∧ fst (storageSupport (browser_world locked_down_window firefox_ua))
    = Throw (HostError "SecurityError").
Proof. split; reflexivity. Qed.

(** ** audioSupport and videoSupport *)

Lemma probe_codec_normalized f mime :
  codec_answer (f mime) → probe_codec f mime ∈ normalized.
Proof.
  unfold probe_codec, normalized. intros [->| [->| ->]]; simpl; set_solver.
Qed.

Lemma probe_codec_empty f mime : f mime = Str "" → probe_codec f mime = Str "no".
Proof. unfold probe_codec. by intros ->. Qed.

(** C4.  With [canPlayType] present on the media elements and answering as
    its contract says, every codec field of both records is "no", "maybe" or
    "probably", and a field whose probe answered the empty string is "no". *)
Theorem codec_fields_normalized (w : World) (d : Document)
    (fa fv : string → value) :
  fst (isBrowser w) = Return true →
  document w = Some d →
  doc_audio_canPlayType d = Some fa →
  doc_video_canPlayType d = Some fv →
  (∀ mime, codec_answer (fa mime)) →
  (∀ mime, codec_answer (fv mime)) →
  ∃ a v,
    audioSupport w = (Return a, w) ∧ videoSupport w = (Return v, w)
    ∧ (∀ name mime, (name, mime) ∈ audio_codecs →
         field name a ∈ normalized
         ∧ (fa mime = Str "" → field name a = Str "no"))
    ∧ (∀ name mime, (name, mime) ∈ video_codecs →
         field name v ∈ normalized
         ∧ (fv mime = Str "" → field name v = Str "no")).
Proof.
  intros Hv%isBrowser_true Hd Ha Hvid Hfa Hfv.
  unfold audioSupport, videoSupport.
  rewrite !guard_run, Hv, !bind_run, !global_run, Hd, Ha, Hvid.
  eexists _, _. split_and!; [reflexivity..| |].
  - intros name mime. unfold audio_codecs.
    rewrite !elem_of_cons, elem_of_nil.
    intros H; destruct_or!; try done; injection H as -> ->;
      (split; [by apply probe_codec_normalized|by apply probe_codec_empty]).
  - intros name mime. unfold video_codecs.
    rewrite !elem_of_cons, elem_of_nil.
    intros H; destruct_or!; try done; injection H as -> ->;
      (split; [by apply probe_codec_normalized|by apply probe_codec_empty]).
Qed.

Lemma sample_canPlayType_answer mime : codec_answer (sample_canPlayType mime).
Proof.
  unfold codec_answer, sample_canPlayType.
  destruct (String.prefix "audio/mpeg" mime); [by right; right|].
  destruct (String.prefix "video/mp4" mime); [by right; left|by left].
Defined.

Lemma codec_fields_normalized_witness :
  ∃ a v,
    audioSupport (browser_world sample_window firefox_ua)
      = (Return a, browser_world sample_window firefox_ua)
    ∧ videoSupport (browser_world sample_window firefox_ua)
      = (Return v, browser_world sample_window firefox_ua)
    ∧ (∀ name mime, (name, mime) ∈ audio_codecs →
         field name a ∈ normalized
         ∧ (sample_canPlayType mime = Str "" → field name a = Str "no"))
    ∧ (∀ name mime, (name, mime) ∈ video_codecs →
         field name v ∈ normalized
         ∧ (sample_canPlayType mime = Str "" → field name v = Str "no")).
Proof.
  apply (codec_fields_normalized (browser_world sample_window firefox_ua)
           sample_document sample_canPlayType sample_canPlayType).
  - reflexivity.
  - reflexivity.
  - reflexivity.
  - reflexivity.
  - apply sample_canPlayType_answer.
  - apply sample_canPlayType_answer.
Defined.

(** ** The media query of hasTouch *)

(** C6 as stated fails: the query has six comma-joined clauses, not five. *)
Lemma hasTouch_query_has_six_clauses :
  length (split "," hasTouch_query) = 6
  ∧ length (split "," hasTouch_query) ≠ 5.
Proof. split; [reflexivity|discriminate]. Qed.

(** C6, as the code has it.  The split of the prefix string has six entries,
    the empty prefix at both ends, and the query has six comma-joined
    parenthesized clauses: the five prefixed [touch-enabled] clauses, then
    [(heartz)]. *)
Theorem hasTouch_query_clauses :
  hasTouch_prefixes = vendor_prefixes ++ [""]
  ∧ hasTouch_query
    = "(touch-enabled),(-webkit-touch-enabled),(-moz-touch-enabled),(-o-touch-enabled),(-ms-touch-enabled),(heartz)"
  ∧ split "," hasTouch_query
    = map (λ p, "(" +:+ p +:+ "touch-enabled)") vendor_prefixes ++ ["(heartz)"]
  ∧ length (split "," hasTouch_query) = 6.
Proof. repeat split. Qed.

(** The media query is consulted only when the two touch tests fail, and
    then it decides. *)
Lemma hasTouch_uses_query w win d matchMedia :
  window w = Some win → document w = Some d →
  win_has_ontouchstart win = false →
  truthy (win_DocumentTouch win) = false →
  win_matchMedia win = Some matchMedia →
  matchMedia hasTouch_query ≠ Undefined →
  matchMedia hasTouch_query ≠ Null →
  hasTouch w
  = (Return (Bool (truthy (field "matches" (matchMedia hasTouch_query)))), w).
Proof.
  intros Hwin Hd H1 H2 Hm Hu Hn.
  assert (Hv : visual w = true) by (apply visual_true; rewrite Hwin, Hd; eauto).
  unfold hasTouch, mq.
  rewrite guard_run, Hv, !bind_run, !global_run, Hwin, H1, H2.
  cbn -[hasTouch_query].
  rewrite bind_run, mret_run, !bind_run, !global_run, Hwin, Hm.
  destruct (matchMedia hasTouch_query) as [| | | | | |fields|] eqn:Hr; try done.
  cbn -[hasTouch_query field].
  by destruct (truthy (field "matches" (Obj fields))).
Qed.

(** ** Client strings of the sample hosts *)

(** What [browserInfo] and [isMobile] give on two of them. *)
Example browserInfo_firefox :
  fst (browserInfo (browser_world sample_window firefox_ua))
  = Return (Obj [("name", Str "Firefox"); ("version", Str "65")]).
Proof. reflexivity. Qed.

Example isMobile_iphone :
  fst (isMobile (browser_world sample_window
         "Mozilla/5.0 (iPhone; CPU iPhone OS 12_1 like Mac OS X)"))
  = Return (Bool true)
  ∧ fst (isMobile (browser_world sample_window firefox_ua)) = Return (Bool false).
Proof. split; reflexivity. Qed.

(** ** Queries without the guard *)

(** Case analysis on membership in a list written out. *)
Ltac in_list_cases H :=
  repeat (apply elem_of_cons in H as [H|H]; [|]);
  try (by apply elem_of_nil in H).

Lemma unguarded_queries q :
  q ∉ guarded_queries →
  q ∈ [QisNode; QisBrowser; QgpuInfo; QplatformInfo; QfontSupport].
Proof.
  destruct q; intros H;
    first [ by repeat constructor | exfalso; apply H; by repeat constructor ].
Qed.

Lemma fontSupport_without_document w :
  document w = None → fontSupport w = (Throw (ReferenceError "document"), w).
Proof. intros H. unfold fontSupport. by rewrite bind_run, global_run, H. Qed.

Lemma gpuInfo_without_document w :
  document w = None → gpuInfo w = (Throw (ReferenceError "document"), w).
Proof. intros H. unfold gpuInfo. by rewrite bind_run, global_run, H. Qed.

(** C10 as stated fails: [gpuInfo] is not the only query without the guard;
    outside a visual host [fontSupport()] raises as well. *)
Lemma fontSupport_has_no_guard :
  QfontSupport ≠ QgpuInfo
  ∧ fst (isBrowser node_world) = Return false
  ∧ run QfontSupport node_world = (Throw (ReferenceError "document"), node_world)
  ∧ ¬ soft_fails QfontSupport.
Proof.
  split_and!; [done|done|done|].
  intros H. specialize (H node_world eq_refl). discriminate H.
Qed.

(** C10, as the code has it.  The queries that soft-fail are exactly the
    twelve guarded ones; [gpuInfo] is not among them, and neither is
    [fontSupport].  Without a [document], and with a [document] whose canvas
    gives no "webgl" context, [gpuInfo()] raises, writes no diagnostic and
    returns nothing. *)
Theorem gpuInfo_hard_faults :
  (∀ q, soft_fails q ↔ q ∈ guarded_queries)
  ∧ ¬ soft_fails QgpuInfo
  ∧ ¬ soft_fails QfontSupport
  ∧ (∀ w, document w = None →
          gpuInfo w = (Throw (ReferenceError "document"), w))
  ∧ (∀ w d, document w = Some d →
            doc_canvas_getContext d "webgl" = None →
            ∃ msg, gpuInfo w = (Throw (TypeError msg), w)).
Proof.
  assert (Hguard : ∀ q, soft_fails q ↔ q ∈ guarded_queries).
  { intros q. split.
    - intros H. destruct (decide (q ∈ guarded_queries)) as [|Hq]; [done|].
      exfalso. specialize (H node_world eq_refl).
      apply unguarded_queries in Hq.
      in_list_cases Hq; subst q; discriminate H.
    - intros Hq w Hw%isBrowser_false. by apply guarded_soft_fails. }
  split_and!.
  - done.
  - intros H%Hguard. by in_list_cases H.
  - intros H%Hguard. by in_list_cases H.
  - apply gpuInfo_without_document.
  - intros w d Hd Hgl. eexists. unfold gpuInfo.
    by rewrite bind_run, global_run, Hd, Hgl.
Qed.

(** ** The DOM under fontSupport *)

Lemma in_doc_initial w d : document w = Some d → in_doc w d (doc_nodes d) = w.
Proof. destruct w, d. simpl. by intros ->. Qed.

Section InDocument.
(** The statements of this section run in a world [w] whose document is
    [d], with one node store or another. *)
Context (w : World) (d : Document).

Lemma update_nodes_run ns f :
  update_nodes f (in_doc w d ns) = (Return tt, in_doc w d (f ns)).
Proof. reflexivity. Qed.

Lemma createElement_run ns tag :
  createElement tag (in_doc w d ns)
  = (Return (length ns), in_doc w d (ns ++ [new_element tag])).
Proof. reflexivity. Qed.

Lemma offsetWidth_run ns s :
  offsetWidth s (in_doc w d ns)
  = (Return (fst (doc_layout d ns s)), in_doc w d ns).
Proof. reflexivity. Qed.

Lemma offsetHeight_run ns s :
  offsetHeight s (in_doc w d ns)
  = (Return (snd (doc_layout d ns s)), in_doc w d ns).
Proof. reflexivity. Qed.

Lemma alter_last {A} (f : A → A) (l : list A) (x : A) :
  alter f (length l) (l ++ [x]) = l ++ [f x].
Proof. induction l as [|y l IH]; simpl; [done|]. f_equal. apply IH. Qed.

Lemma createSpan_run ns :
  createSpan (in_doc w d ns) = (Return (length ns), in_doc w d (ns ++ [plain_span])).
Proof.
  unfold createSpan. rewrite bind_run, createElement_run.
  unfold set_style, set_innerHTML.
  repeat (rewrite bind_run, update_nodes_run, alter_last).
  reflexivity.
Qed.

Lemma createSpanWithFonts_run ns font base :
  createSpanWithFonts font base (in_doc w d ns)
  = (Return (length ns),
     in_doc w d (ns ++ [probe_span (font_stack font base) None])).
Proof.
  unfold createSpanWithFonts, set_style.
  rewrite bind_run, createSpan_run, bind_run, update_nodes_run, alter_last.
  reflexivity.
Qed.

Lemma length_attach p c ns : length (attach p c ns) = length ns.
Proof.
  unfold attach. rewrite !length_alter. by destruct (_ ≫= _); rewrite ?length_alter.
Qed.

Lemma length_add_span p ns family : length (add_span p ns family) = S (length ns).
Proof. unfold add_span. rewrite length_attach, length_app. simpl. lia. Qed.

Lemma length_add_spans p families ns :
  length (add_spans p families ns) = length ns + length families.
Proof.
  revert ns. induction families as [|f fs IH]; intros ns; simpl; [lia|].
  unfold add_spans in *. simpl. rewrite IH, length_add_span. lia.
Qed.

Lemma add_spans_app p fs1 fs2 ns :
  add_spans p (fs1 ++ fs2) ns = add_spans p fs2 (add_spans p fs1 ns).
Proof. apply foldl_app. Qed.

Lemma initializeBaseFontsSpans_from_run p rest spans ns :
  initializeBaseFontsSpans_from p rest spans (in_doc w d ns)
  = (Return (spans ++ seq (length ns) (length rest)),
     in_doc w d (add_spans p rest ns)).
Proof.
  revert spans ns. induction rest as [|b rest IH]; intros spans ns; simpl.
  - by rewrite app_nil_r.
  - rewrite bind_run, createSpan_run. unfold set_style, appendChild.
    rewrite bind_run, update_nodes_run, alter_last.
    rewrite bind_run, update_nodes_run.
    change (attach p (length ns) (ns ++ [with_style "fontFamily" b plain_span]))
      with (add_span p ns b).
    rewrite IH, length_add_span, <- app_assoc. reflexivity.
Qed.

Lemma fontSpans_from_run p font rest spans ns :
  fontSpans_from p font rest spans (in_doc w d ns)
  = (Return (spans ++ seq (length ns) (length rest)),
     in_doc w d (add_spans p (map (font_stack font) rest) ns)).
Proof.
  revert spans ns. induction rest as [|b rest IH]; intros spans ns; simpl.
  - by rewrite app_nil_r.
  - rewrite bind_run, createSpanWithFonts_run. unfold appendChild.
    rewrite bind_run, update_nodes_run.
    change (attach p (length ns) (ns ++ [probe_span (font_stack font b) None]))
      with (add_span p ns (font_stack font b)).
    rewrite IH, length_add_span, <- app_assoc. reflexivity.
Qed.

Lemma initializeFontsSpans_from_run p fonts spans ns :
  initializeFontsSpans_from p fonts spans (in_doc w d ns)
  = (Return (spans_object fonts (length ns) spans),
     in_doc w d (add_spans p (candidate_families fonts) ns)).
Proof.
  revert spans ns. induction fonts as [|f fonts IH]; intros spans ns.
  - reflexivity.
  - cbn [initializeFontsSpans_from]. rewrite bind_run, fontSpans_from_run.
    rewrite IH, length_add_spans, length_map.
    change (candidate_families (f :: fonts))
      with (map (font_stack f) baseFonts ++ candidate_families fonts).
    by rewrite add_spans_app.
Qed.

(** *** The stores in closed form *)

Lemma adopt_nil e : adopt [] e = e.
Proof. destruct e. unfold adopt, with_children. simpl. by rewrite app_nil_r. Qed.

Lemma adopt_adopt cs1 cs2 e : adopt cs2 (adopt cs1 e) = adopt (cs1 ++ cs2) e.
Proof. destruct e. unfold adopt, with_children. simpl. by rewrite app_assoc. Qed.

Lemma alter_alter {A} (f g : A → A) i (l : list A) :
  alter f i (alter g i l) = alter (f ∘ g) i l.
Proof.
  revert i. induction l as [|x l IH]; intros [|i]; simpl; [done..|].
  f_equal. apply IH.
Qed.

Lemma alter_adopt_adopt cs1 cs2 (i : nat) (ns : list Element) :
  alter (adopt cs2) i (alter (adopt cs1) i ns) = alter (adopt (cs1 ++ cs2)) i ns.
Proof.
  rewrite alter_alter. apply list_alter_ext; [|done].
  intros e _. apply adopt_adopt.
Qed.

Lemma lookup_last {A} (l : list A) x : (l ++ [x]) !! length l = Some x.
Proof. by rewrite lookup_app_r, Nat.sub_diag by lia. Qed.

Lemma add_span_fresh (p : node) (ns : list Element) family :
  p < length ns →
  add_span p ns family
  = alter (adopt [length ns]) p ns ++ [probe_span family (Some p)].
Proof.
  intros Hp. unfold add_span, attach.
  rewrite lookup_last. simpl.
  rewrite alter_last, alter_app_l by done. reflexivity.
Qed.

Lemma add_spans_fresh (p : node) families (ns : list Element) :
  p < length ns →
  add_spans p families ns
  = alter (adopt (seq (length ns) (length families))) p ns
    ++ map (λ family, probe_span family (Some p)) families.
Proof.
  revert ns. induction families as [|f fs IH]; intros ns Hp.
  - simpl. rewrite app_nil_r. symmetry. apply list_alter_id, adopt_nil.
  - change (add_spans p (f :: fs) ns) with (add_spans p fs (add_span p ns f)).
    rewrite IH by (rewrite length_add_span; lia).
    rewrite length_add_span, add_span_fresh by done.
    rewrite alter_app_l by (by rewrite length_alter).
    rewrite alter_adopt_adopt, <- app_assoc. reflexivity.
Qed.

Lemma attach_detached (h c : node) (ns : list Element) e :
  ns !! c = Some e → el_parent e = None →
  attach h c ns = alter (adopt [c]) h (alter (with_parent (Some h)) c ns).
Proof. intros Hc He. unfold attach. by rewrite Hc; simpl; rewrite He. Qed.

Lemma alter_middle {A} (f : A → A) (l k : list A) (x : A) :
  alter f (length l) (l ++ x :: k) = l ++ f x :: k.
Proof. induction l as [|y l IH]; simpl; [done|]. f_equal. apply IH. Qed.

(** The node store after [initializeBaseFontsSpans] and
    [h.appendChild(baseFontsDiv)]. *)
Lemma base_store_built (h : node) (ns0 : list Element) :
  h < length ns0 →
  attach h (length ns0)
    (add_spans (length ns0) baseFonts
       (ns0 ++ [new_element "div"; new_element "div"]))
  = base_store h ns0.
Proof.
  intros Hh.
  rewrite add_spans_fresh by (rewrite length_app; simpl; lia).
  rewrite length_app. simpl length.
  rewrite alter_middle, <- app_assoc.
  erewrite attach_detached; [|by apply list_lookup_middle|done].
  cbn [app]. rewrite alter_middle, alter_app_l by done.
  reflexivity.
Qed.

Lemma alter_second {A} (f : A → A) (l k : list A) (x y : A) n :
  length l = n → alter f (n + 1) (l ++ x :: y :: k) = l ++ x :: f y :: k.
Proof. intros <-. by rewrite alter_app_r. Qed.

Lemma lookup_second {A} (l k : list A) (x y : A) n :
  length l = n → (l ++ x :: y :: k) !! (n + 1) = Some y.
Proof. intros <-. by rewrite lookup_app_r, Nat.add_comm, Nat.add_sub by lia. Qed.

Lemma length_base_store (h : node) (ns0 : list Element) :
  length (base_store h ns0) = length ns0 + 5.
Proof.
  unfold base_store. rewrite !length_app, length_alter, length_map. simpl. lia.
Qed.

(** The node store after [initializeFontsSpans] and
    [h.appendChild(fontsDiv)]. *)
Lemma font_store_built fonts (h : node) (ns0 : list Element) :
  h < length ns0 →
  attach h (length ns0 + 1)
    (add_spans (length ns0 + 1) (candidate_families fonts) (base_store h ns0))
  = font_store fonts h ns0.
Proof.
  intros Hh.
  rewrite add_spans_fresh by (rewrite length_base_store; lia).
  rewrite length_base_store. unfold base_store. cbn [app].
  rewrite alter_second by apply length_alter.
  rewrite <- app_assoc. cbn [app].
  erewrite attach_detached;
    [|by apply lookup_second, length_alter|done].
  rewrite alter_second by apply length_alter.
  rewrite alter_app_l by (by rewrite length_alter).
  rewrite alter_adopt_adopt.
  reflexivity.
Qed.

(** *** Reading the dimensions *)

Lemma record_defaults_from_run ns pre bs rest dw dh :
  length bs = length rest →
  record_defaults_from (pre ++ bs) (length pre) rest dw dh (in_doc w d ns)
  = (Return (foldl (λ m bn, <[bn.1 := fst (doc_layout d ns bn.2)]> m) dw (zip rest bs),
             foldl (λ m bn, <[bn.1 := snd (doc_layout d ns bn.2)]> m) dh (zip rest bs)),
     in_doc w d ns).
Proof.
  revert pre bs dw dh.
  induction rest as [|b rest IH]; intros pre [|s bs] dw dh Hlen;
    try discriminate; [done|].
  cbn [record_defaults_from]. unfold span_at. cbn [mbind option_bind].
  rewrite list_lookup_middle by done.
  rewrite bind_run. cbn [mret M_ret].
  rewrite bind_run, offsetWidth_run, bind_run, offsetHeight_run.
  replace (pre ++ s :: bs) with ((pre ++ [s]) ++ bs) by (by rewrite <- app_assoc).
  replace (S (length pre)) with (length (pre ++ [s]))
    by (rewrite length_app; simpl; lia).
  rewrite IH by (simpl in Hlen; lia). reflexivity.
Qed.

Lemma span_at_run (w0 : World) spans i s :
  spans !! i = Some s → span_at (Some spans) i w0 = (Return s, w0).
Proof. intros H. unfold span_at. cbn [mbind option_bind]. by rewrite H. Qed.

(** One turn of the loop of [isFontAvailable]. *)
Lemma isFontAvailable_from_step ns dw dh spans i base rest s :
  spans !! i = Some s →
  isFontAvailable_from dw dh (Some spans) i (base :: rest) (in_doc w d ns)
  = if bool_decide (Some (doc_layout d ns s).1 ≠ dw !! base)
       || bool_decide (Some (doc_layout d ns s).2 ≠ dh !! base)
    then (Return true, in_doc w d ns)
    else isFontAvailable_from dw dh (Some spans) (S i) rest (in_doc w d ns).
Proof.
  intros Hs. cbn [isFontAvailable_from].
  rewrite bind_run, (span_at_run _ _ _ _ Hs).
  rewrite bind_run, offsetWidth_run, bind_run, offsetHeight_run.
  by destruct (_ || _).
Qed.

Lemma recorded_differs (a b : Z * Z) :
  bool_decide (Some a.1 ≠ Some b.1) || bool_decide (Some a.2 ≠ Some b.2)
  = bool_decide (differs a b).
Proof.
  apply eq_true_iff_eq.
  rewrite orb_true_iff, !bool_decide_eq_true. unfold differs.
  split; (intros [H|H]; [left|right]; congruence).
Qed.

Lemma isFontAvailable_run ns1 ns2 b0 b1 b2 t0 t1 t2 :
  isFontAvailable
    (recorded fst (doc_layout d ns1) baseFonts [b0; b1; b2])
    (recorded snd (doc_layout d ns1) baseFonts [b0; b1; b2])
    (Some [t0; t1; t2]) (in_doc w d ns2)
  = (Return (bool_decide (judged (doc_layout d ns1) (doc_layout d ns2)
                            [b0; b1; b2] [t0; t1; t2])),
     in_doc w d ns2).
Proof.
  unfold isFontAvailable, baseFonts, recorded. cbn [zip zip_with foldl fst snd].
  rewrite (isFontAvailable_from_step _ _ _ _ 0 _ _ t0) by done.
  rewrite (isFontAvailable_from_step _ _ _ _ 1 _ _ t1) by done.
  rewrite (isFontAvailable_from_step _ _ _ _ 2 _ _ t2) by done.
  rewrite !(lookup_insert_ne _ "serif" "monospace") by done.
  rewrite !(lookup_insert_ne _ "sans-serif" "monospace") by done.
  rewrite !(lookup_insert_ne _ "serif" "sans-serif") by done.
  rewrite !lookup_insert_eq, !recorded_differs.
  cbn [isFontAvailable_from mret M_ret].
  set (L1 := doc_layout d ns1). set (L2 := doc_layout d ns2).
  assert (judged L1 L2 [b0; b1; b2] [t0; t1; t2]
          ↔ differs (L2 t0) (L1 b0) ∨ differs (L2 t1) (L1 b1)
            ∨ differs (L2 t2) (L1 b2)) as Hj.
  { unfold judged. split.
    - intros (j & b & t & Hb & Ht & Hd).
      destruct j as [|[|[|j]]]; simplify_eq/=; auto.
    - intros [H|[H|H]]; [exists 0|exists 1|exists 2]; eauto. }
  rewrite (bool_decide_ext _ _ Hj).
  repeat case_bool_decide; try done; tauto.
Qed.

Lemma collect_available_run ns dw dh spans
    (P : string → Prop) `{!∀ f, Decision (P f)} rest acc :
  (∀ f, f ∈ rest →
     isFontAvailable dw dh (spans !! f) (in_doc w d ns)
     = (Return (bool_decide (P f)), in_doc w d ns)) →
  collect_available dw dh spans rest acc (in_doc w d ns)
  = (Return (acc ++ filter P rest), in_doc w d ns).
Proof.
  revert acc. induction rest as [|f rest IH]; intros acc Hrest.
  - by rewrite app_nil_r.
  - cbn [collect_available].
    rewrite bind_run, Hrest by apply list_elem_of_here.
    rewrite IH by (intros; apply Hrest; by apply list_elem_of_further).
    rewrite filter_cons. case_bool_decide as HP.
    + rewrite decide_True by done. by rewrite <- app_assoc.
    + by rewrite decide_False by done.
Qed.

(** *** The object of candidate spans *)

Lemma spans_object_other fonts k (m : gmap string (list node)) f :
  f ∉ fonts → spans_object fonts k m !! f = m !! f.
Proof.
  revert k m. induction fonts as [|g fonts IH]; intros k m Hf; [done|].
  apply not_elem_of_cons in Hf as [Hfg Hf]. simpl.
  rewrite IH by done. by rewrite lookup_insert_ne.
Qed.

Lemma spans_object_lookup fonts k (m : gmap string (list node)) i f :
  NoDup fonts → fonts !! i = Some f →
  spans_object fonts k m !! f
  = Some (seq (k + length baseFonts * i) (length baseFonts)).
Proof.
  revert k m i. induction fonts as [|g fonts IH]; intros k m i Hnd Hi; [done|].
  apply NoDup_cons in Hnd as [Hg Hnd].
  destruct i as [|i]; simpl in Hi; cbn [spans_object].
  - injection Hi as ->. rewrite spans_object_other, lookup_insert_eq by done.
    by rewrite Nat.mul_0_r, Nat.add_0_r.
  - rewrite (IH _ _ i) by done. f_equal. f_equal. lia.
Qed.

Lemma spans_object_elem fonts k (m : gmap string (list node)) f :
  f ∈ fonts → ∃ k', spans_object fonts k m !! f = Some (seq k' (length baseFonts)).
Proof.
  revert k m. induction fonts as [|g fonts IH]; intros k m Hf.
  - by apply elem_of_nil in Hf.
  - simpl. destruct (decide (f ∈ fonts)) as [Hin|Hout]; [by apply IH|].
    apply elem_of_cons in Hf as [->|]; [|done].
    exists k. by rewrite spans_object_other, lookup_insert_eq.
Qed.

(** *** The whole call *)

Lemma fontSupport_run_in h ns0 :
  doc_body d = Some h → h < length ns0 →
  fontSupport (in_doc w d ns0)
  = (Return (Arr (map Str (filter (kept d h fontList ns0) fontList))),
     in_doc w d (font_store fontList h ns0)).
Proof.
  intros Hbody Hh. unfold fontSupport.
  rewrite bind_run, global_run.
  change (document (in_doc w d ns0)) with (Some (set_nodes ns0 d)).
  cbv beta iota zeta.
  change (doc_body (set_nodes ns0 d)) with (doc_body d). rewrite Hbody.
  rewrite bind_run, createElement_run, bind_run, createElement_run.
  rewrite length_app, <- app_assoc. cbn [length app].
  unfold initializeBaseFontsSpans.
  rewrite bind_run, initializeBaseFontsSpans_from_run.
  unfold appendChild_to, appendChild.
  rewrite bind_run, update_nodes_run, base_store_built by done.
  rewrite length_app. cbn [length app].
  rewrite bind_run.
  rewrite (record_defaults_from_run _ [] (seq (length ns0 + 2) 3)) by done.
  cbn [fst snd].
  unfold initializeFontsSpans.
  rewrite bind_run, initializeFontsSpans_from_run.
  rewrite bind_run, update_nodes_run, font_store_built by done.
  rewrite length_base_store.
  rewrite bind_run.
  rewrite (collect_available_run _ _ _ _ (kept d h fontList ns0)).
  - reflexivity.
  - intros f [k' Hk]%(spans_object_elem _ (length ns0 + 5) ∅).
    assert (kept d h fontList ns0 f
            ↔ judged (doc_layout d (base_store h ns0))
                (doc_layout d (font_store fontList h ns0))
                (base_spans (length ns0)) (seq k' (length baseFonts))) as Hiff
      by (unfold kept; by rewrite Hk).
    rewrite (bool_decide_ext _ _ Hiff), Hk. apply isFontAvailable_run.
Qed.

End InDocument.

Lemma fontSupport_run w d h :
  document w = Some d → doc_body d = Some h → h < length (doc_nodes d) →
  fontSupport w
  = (Return (Arr (map Str (filter (kept d h fontList (doc_nodes d)) fontList))),
     in_doc w d (font_store fontList h (doc_nodes d))).
Proof.
  intros Hd Hbody Hh.
  rewrite <- (in_doc_initial w d Hd) at 1.
  by rewrite (fontSupport_run_in w d h).
Qed.

(** Without a body the call raises at the first [appendChild], with the
    first container and the baseline spans already created. *)
Lemma fontSupport_without_body w d :
  document w = Some d → doc_body d = None →
  ∃ msg, fst (fontSupport w) = Throw (TypeError msg).
Proof.
  intros Hd Hb. eexists. rewrite <- (in_doc_initial w d Hd) at 1.
  unfold fontSupport. rewrite bind_run, global_run.
  change (document (in_doc w d (doc_nodes d)))
    with (Some (set_nodes (doc_nodes d) d)).
  cbv beta iota zeta.
  change (doc_body (set_nodes (doc_nodes d) d)) with (doc_body d). rewrite Hb.
  rewrite bind_run, createElement_run, bind_run, createElement_run.
  unfold initializeBaseFontsSpans.
  rewrite bind_run, initializeBaseFontsSpans_from_run.
  reflexivity.
Qed.

(** *** The candidates by position *)

Lemma fontList_NoDup : NoDup fontList.
Proof. apply (bool_decide_unpack _). vm_compute. exact I. Qed.

Lemma candidate_families_lookup fonts i j font base :
  fonts !! i = Some font → baseFonts !! j = Some base →
  candidate_families fonts !! (length baseFonts * i + j)
  = Some (font_stack font base).
Proof.
  intros Hi Hj. revert i Hi. induction fonts as [|g fonts IH]; intros i Hi; [done|].
  change (candidate_families (g :: fonts))
    with (map (font_stack g) baseFonts ++ candidate_families fonts).
  destruct i as [|i]; simpl in Hi.
  - injection Hi as ->. rewrite Nat.mul_0_r, Nat.add_0_l.
    rewrite lookup_app_l
      by (rewrite length_map; by apply lookup_lt_is_Some).
    by rewrite list_lookup_fmap, Hj.
  - rewrite lookup_app_r by (rewrite length_map; lia).
    rewrite length_map.
    replace (length baseFonts * S i + j - length baseFonts)
      with (length baseFonts * i + j) by lia.
    by apply IH.
Qed.

Lemma length_candidate_families fonts :
  length (candidate_families fonts) = length baseFonts * length fonts.
Proof.
  induction fonts as [|g fonts IH]; [done|].
  change (candidate_families (g :: fonts))
    with (map (font_stack g) baseFonts ++ candidate_families fonts).
  rewrite length_app, length_map, IH. simpl. lia.
Qed.

Lemma base_store_span (h : node) (ns0 : list Element) j base :
  baseFonts !! j = Some base →
  base_store h ns0 !! (length ns0 + 2 + j)
  = Some (probe_span base (Some (length ns0))).
Proof.
  intros Hj. unfold base_store.
  rewrite lookup_app_r by (rewrite length_alter; lia).
  rewrite length_alter.
  replace (length ns0 + 2 + j - length ns0) with (2 + j) by lia.
  cbn [app]. change ((?x :: ?y :: ?l) !! (2 + j)) with (l !! j).
  by rewrite list_lookup_fmap, Hj.
Qed.

Lemma font_store_span fonts (h : node) (ns0 : list Element) i j font base :
  fonts !! i = Some font → baseFonts !! j = Some base →
  font_store fonts h ns0 !! (length ns0 + 5 + 3 * i + j)
  = Some (probe_span (font_stack font base) (Some (length ns0 + 1))).
Proof.
  intros Hi Hj. unfold font_store.
  rewrite lookup_app_r by (rewrite length_alter; lia).
  rewrite length_alter.
  replace (length ns0 + 5 + 3 * i + j - length ns0) with (2 + (3 + (3 * i + j)))
    by lia.
  cbn [app]. change ((?x :: ?y :: ?l) !! (2 + ?k)) with (l !! k).
  rewrite lookup_app_r by (rewrite length_map; simpl; lia).
  rewrite length_map.
  replace (3 + (3 * i + j) - length baseFonts) with (length baseFonts * i + j)
    by (simpl; lia).
  by rewrite list_lookup_fmap, (candidate_families_lookup _ _ _ font base).
Qed.

(** What [kept] says for the candidate at position [i]. *)
Lemma kept_at d (h : node) (ns0 : list Element) i font :
  fontList !! i = Some font →
  kept d h fontList ns0 font
  ↔ ∃ j base, baseFonts !! j = Some base
      ∧ differs (doc_layout d (font_store fontList h ns0)
                   (length ns0 + 5 + 3 * i + j))
                (doc_layout d (base_store h ns0) (length ns0 + 2 + j)).
Proof.
  intros Hi. unfold kept, judged, base_spans.
  rewrite (spans_object_lookup _ _ _ i) by (done || apply fontList_NoDup).
  cbn [default]. split.
  - intros (j & b & t & Hb & Ht & Hd).
    apply lookup_seq in Hb as [-> Hj]. apply lookup_seq in Ht as [-> _].
    destruct (lookup_lt_is_Some_2 baseFonts j Hj) as [base Hbase].
    exists j, base. split; [done|].
    by replace (length ns0 + 5 + 3 * i + j)
      with (length ns0 + 5 + length baseFonts * i + j) by (simpl; lia).
  - intros (j & base & Hbase & Hd).
    assert (j < length baseFonts) as Hj by (by apply lookup_lt_is_Some).
    exists j, (length ns0 + 2 + j), (length ns0 + 5 + 3 * i + j).
    split_and!; [by apply lookup_seq_lt| |done].
    replace (length ns0 + 5 + 3 * i + j)
      with (length ns0 + 5 + length baseFonts * i + j) by (simpl; lia).
    by apply lookup_seq_lt.
Qed.

(** ** fontSupport: which candidates are returned *)

(** C5.  In a document with a body, whatever dimensions the layout engine
    gives the probe spans: a candidate is in the returned list iff, for at
    least one of the three baseline families, the width or the height of its
    span over that baseline differs from the dimensions recorded for the
    baseline's own span; and the list is a subsequence of the reference
    list, so it holds the available candidates in that order.  The spans
    named by position are the baseline spans and the candidate-over-baseline
    spans. *)
Theorem fontSupport_available (w : World) (d : Document) (h : node) :
  document w = Some d →
  doc_body d = Some h →
  h < length (doc_nodes d) →
  let ns0 := doc_nodes d in
  let n0 := length ns0 in
  let recorded j := doc_layout d (base_store h ns0) (n0 + 2 + j) in
  let rendered i j := doc_layout d (font_store fontList h ns0) (n0 + 5 + 3 * i + j) in
  ∃ available,
    fst (fontSupport w) = Return (Arr (map Str available))
    ∧ sublist available fontList
    ∧ (∀ i font, fontList !! i = Some font →
         (font ∈ available
          ↔ ∃ j base, baseFonts !! j = Some base
              ∧ ((rendered i j).1 ≠ (recorded j).1
                 ∨ (rendered i j).2 ≠ (recorded j).2)))
    ∧ (∀ j base, baseFonts !! j = Some base →
         base_store h ns0 !! (n0 + 2 + j) = Some (probe_span base (Some n0)))
    ∧ (∀ i j font base,
         fontList !! i = Some font → baseFonts !! j = Some base →
         font_store fontList h ns0 !! (n0 + 5 + 3 * i + j)
         = Some (probe_span (font_stack font base) (Some (n0 + 1)))).
Proof.
  intros Hd Hbody Hh ns0 n0 recorded rendered.
  exists (filter (kept d h fontList ns0) fontList). split_and!.
  - by rewrite (fontSupport_run w d h).
  - apply sublist_filter.
  - intros i font Hi. rewrite list_elem_of_filter, (kept_at _ _ _ i) by done.
    split; [by intros [? _]|].
    intros H. split; [done|]. by apply (list_elem_of_lookup_2 _ i).
  - intros j base. apply base_store_span.
  - intros i j font base. apply font_store_span.
Qed.

Lemma fontSupport_available_witness :
  let ns0 := doc_nodes sample_document in
  let n0 := length ns0 in
  let recorded j := doc_layout sample_document (base_store 2 ns0) (n0 + 2 + j) in
  let rendered i j :=
    doc_layout sample_document (font_store fontList 2 ns0) (n0 + 5 + 3 * i + j) in
  ∃ available,
    fst (fontSupport sample_world) = Return (Arr (map Str available))
    ∧ sublist available fontList
    ∧ (∀ i font, fontList !! i = Some font →
         (font ∈ available
          ↔ ∃ j base, baseFonts !! j = Some base
              ∧ ((rendered i j).1 ≠ (recorded j).1
                 ∨ (rendered i j).2 ≠ (recorded j).2)))
    ∧ (∀ j base, baseFonts !! j = Some base →
         base_store 2 ns0 !! (n0 + 2 + j) = Some (probe_span base (Some n0)))
    ∧ (∀ i j font base,
         fontList !! i = Some font → baseFonts !! j = Some base →
         font_store fontList 2 ns0 !! (n0 + 5 + 3 * i + j)
         = Some (probe_span (font_stack font base) (Some (n0 + 1)))).
Proof.
  apply (fontSupport_available sample_world sample_document 2).
  - reflexivity.
  - reflexivity.
  - exact (le_n 3).
Defined.

(** ** fontSupport: what it leaves in the document *)

Lemma font_store_old fonts (h : node) (ns0 : list Element) i :
  i < length ns0 →
  font_store fonts h ns0 !! i
  = alter (adopt [length ns0; length ns0 + 1]) h ns0 !! i.
Proof.
  intros Hi. unfold font_store. by rewrite lookup_app_l by (by rewrite length_alter).
Qed.

Lemma length_font_store fonts (h : node) (ns0 : list Element) :
  length (font_store fonts h ns0) = length ns0 + 5 + 3 * length fonts.
Proof.
  unfold font_store.
  rewrite !length_app, length_alter, !length_map, length_candidate_families.
  simpl. lia.
Qed.

Lemma length_fontList : length fontList = 485.
Proof. reflexivity. Qed.

(** C8, as the code has it.  Nothing is removed.  When [fontSupport()]
    returns, the body has two more children, the two containers, after the
    ones it had; the containers hold the 3 baseline spans and the 3 spans of
    each of the 485 candidates; the store has grown by these 1460 nodes, and
    every other node of the document is as it was. *)
Theorem fontSupport_leaves_probes (w : World) (d : Document) (h : node)
    (body : Element) :
  document w = Some d →
  doc_body d = Some h →
  doc_nodes d !! h = Some body →
  let n0 := length (doc_nodes d) in
  ∃ d', document (snd (fontSupport w)) = Some d'
    ∧ doc_nodes d' !! h = Some (adopt [n0; n0 + 1] body)
    ∧ doc_nodes d' !! n0 = Some (container (Some h) (seq (n0 + 2) 3))
    ∧ doc_nodes d' !! (n0 + 1)
      = Some (container (Some h) (seq (n0 + 5) (3 * length fontList)))
    ∧ length (doc_nodes d') = n0 + 1460
    ∧ (∀ i e, i ≠ h → doc_nodes d !! i = Some e → doc_nodes d' !! i = Some e).
Proof.
  intros Hd Hbody Hh n0. subst n0.
  assert (h < length (doc_nodes d)) as Hlt by (by eapply lookup_lt_Some).
  rewrite (fontSupport_run w d h) by done.
  eexists. split; [reflexivity|]. cbn [doc_nodes set_nodes].
  split_and!.
  - rewrite font_store_old by done. by rewrite list_lookup_alter_eq, Hh.
  - unfold font_store. cbn [app].
    by rewrite list_lookup_middle by (by rewrite length_alter).
  - unfold font_store. cbn [app].
    rewrite (lookup_second _ _ _ _ (length (doc_nodes d)))
      by (by rewrite length_alter).
    unfold candidate_spans. by rewrite length_candidate_families.
  - rewrite length_font_store, length_fontList. lia.
  - intros i e Hi He.
    rewrite font_store_old by (by eapply lookup_lt_Some).
    by rewrite list_lookup_alter_ne.
Qed.

Lemma fontSupport_leaves_probes_witness :
  let n0 := length (doc_nodes sample_document) in
  ∃ d', document (snd (fontSupport sample_world)) = Some d'
    ∧ doc_nodes d' !! 2
      = Some (adopt [n0; n0 + 1]
                {| el_tag := "body"; el_style := ∅; el_innerHTML := "";
                   el_parent := Some 0; el_children := [] |})
    ∧ doc_nodes d' !! n0 = Some (container (Some 2) (seq (n0 + 2) 3))
    ∧ doc_nodes d' !! (n0 + 1)
      = Some (container (Some 2) (seq (n0 + 5) (3 * length fontList)))
    ∧ length (doc_nodes d') = n0 + 1460
    ∧ (∀ i e, i ≠ 2 → doc_nodes sample_document !! i = Some e →
              doc_nodes d' !! i = Some e).
Proof.
  apply (fontSupport_leaves_probes sample_world sample_document 2).
  - reflexivity.
  - reflexivity.
  - reflexivity.
Defined.

(** C8 as stated fails: in the sample document the body has no child before
    the call and the two containers as children after it. *)
Lemma fontSupport_changes_document :
  children_of sample_world 2 = Some []
  ∧ children_of (snd (fontSupport sample_world)) 2 = Some [3; 4]
  ∧ children_of (snd (fontSupport sample_world)) 3 = Some [5; 6; 7].
Proof.
  rewrite (fontSupport_run sample_world sample_document 2)
    by (reflexivity || exact (le_n 3)).
  split_and!; reflexivity.
Qed.

(** ** fontSupport: calling it twice *)

Lemma base_store_container (h : node) (ns0 : list Element) :
  base_store h ns0 !! length ns0
  = Some (container (Some h) (base_spans (length ns0))).
Proof.
  unfold base_store.
  rewrite lookup_app_r by (by rewrite length_alter).
  by rewrite length_alter, Nat.sub_diag.
Qed.

Lemma font_store_container fonts (h : node) (ns0 : list Element) :
  font_store fonts h ns0 !! (length ns0 + 1)
  = Some (container (Some h) (candidate_spans fonts (length ns0))).
Proof.
  unfold font_store.
  rewrite lookup_app_r by (rewrite length_alter; lia).
  rewrite length_alter.
  by replace (length ns0 + 1 - length ns0) with 1 by lia.
Qed.

Lemma base_span_measured d m (h : node) (ns0 : list Element) j base :
  measures_shown_in d h m (base_store h ns0) →
  baseFonts !! j = Some base →
  doc_layout d (base_store h ns0) (length ns0 + 2 + j) = probe_dimensions m base.
Proof.
  intros Hm Hj.
  exact (Hm _ _ _ _ (base_store_span h ns0 j base Hj) eq_refl
           (base_store_container h ns0) eq_refl).
Qed.

Lemma font_span_measured d m fonts (h : node) (ns0 : list Element) i j font base :
  measures_shown_in d h m (font_store fonts h ns0) →
  fonts !! i = Some font → baseFonts !! j = Some base →
  doc_layout d (font_store fonts h ns0) (length ns0 + 5 + 3 * i + j)
  = probe_dimensions m (font_stack font base).
Proof.
  intros Hm Hi Hj.
  exact (Hm _ _ _ _ (font_store_span fonts h ns0 i j font base Hi Hj) eq_refl
           (font_store_container fonts h ns0) eq_refl).
Qed.

Lemma kept_local d m (h : node) (ns0 : list Element) font :
  measures_shown_in d h m (base_store h ns0) →
  measures_shown_in d h m (font_store fontList h ns0) →
  font ∈ fontList →
  kept d h fontList ns0 font ↔ rendered_apart m font.
Proof.
  intros Hbase Hfont [i Hi]%list_elem_of_lookup_1.
  rewrite (kept_at _ _ _ i) by done.
  unfold rendered_apart. rewrite Exists_exists. split.
  - intros (j & base & Hj & Hd). exists base.
    split; [by apply (list_elem_of_lookup_2 _ j)|].
    by rewrite (font_span_measured d m _ h ns0 i j font base),
      (base_span_measured d m h ns0 j base) in Hd.
  - intros (base & [j Hj]%list_elem_of_lookup_1 & Hd). exists j, base.
    split; [done|].
    by rewrite (font_span_measured d m _ h ns0 i j font base),
      (base_span_measured d m h ns0 j base).
Qed.

Lemma filter_iff_elem {A} (P Q : A → Prop)
    `{!∀ x, Decision (P x), !∀ x, Decision (Q x)} (l : list A) :
  (∀ x, x ∈ l → P x ↔ Q x) → filter P l = filter Q l.
Proof.
  induction l as [|a l IH]; intros Hl; [done|].
  rewrite !filter_cons, IH
    by (intros; apply Hl; by apply list_elem_of_further).
  apply decide_ext, Hl, list_elem_of_here.
Qed.

Lemma filter_none {A} (P : A → Prop) `{!∀ x, Decision (P x)} (l : list A) :
  (∀ x, x ∈ l → ¬ P x) → filter P l = [].
Proof.
  induction l as [|a l IH]; intros Hl; [done|].
  rewrite filter_cons, decide_False by (apply Hl, list_elem_of_here).
  apply IH. intros x Hx. by apply Hl, list_elem_of_further.
Qed.


Lemma filter_kept_local d m (h : node) (ns0 : list Element) :
  measures_shown_in d h m (base_store h ns0) →
  measures_shown_in d h m (font_store fontList h ns0) →
  filter (kept d h fontList ns0) fontList = filter (rendered_apart m) fontList.
Proof.
  intros Hbase Hfont. apply filter_iff_elem. intros font Hin.
  by apply kept_local.
Qed.


Lemma sample_layout_local h ns :
  measures_shown_in sample_document h sample_local_metrics ns.
Proof.
  intros s c e ce H _ _ _. simpl. unfold sample_layout. rewrite H. reflexivity.
Defined.






(** In the sample host the two installed fonts are found. *)
Example fontSupport_sample :
  fst (fontSupport sample_world) = Return (Arr [Str "Arial"; Str "Courier New"]).
Proof.
  rewrite (fontSupport_run sample_world sample_document 2)
    by (reflexivity || exact (le_n 3)).
  rewrite (filter_kept_local _ _ _ _ (sample_layout_local 2 _) (sample_layout_local 2 _)).
  reflexivity.
Qed.

(** * Further properties *)

(** ** What a query leaves of the host *)

(** After [step]: the equations the case analysis left behind. *)
Ltac settle :=
  repeat (match goal with
          | H : context [match ?x with _ => _ end] |- _ => destruct x eqn:?
          end);
  unfold mret, M_ret, throw, getter, gets in *; simplify_eq/=; try done.

Lemma bind_frame {A B} (m : M A) (f : A → M B) w :
  snd (m w) = w → (∀ a, snd (f a w) = w) → snd ((m ≫= f) w) = w.
Proof.
  intros Hm Hf. rewrite bind_run.
  destruct (m w) as [[a|e] w']; simpl in Hm; subst w'; [apply Hf|done].
Qed.

Lemma global_frame {A} name (f : World → option A) w :
  snd (global name f w) = w.
Proof. rewrite global_run. by destruct (f w). Qed.

Lemma hasTouch_world w : visual w = true → snd (hasTouch w) = w.
Proof.
  intros Hv. unfold hasTouch. rewrite guard_run, Hv.
  apply bind_frame; [apply global_frame|]. intros win.
  apply bind_frame.
  { destruct (win_has_ontouchstart win); [done|].
    destruct (negb _); [done|].
    apply bind_frame; [apply global_frame|]. intros _.
    apply bind_frame; [apply global_frame|]. intros C. by destruct C. }
  intros [|]; [done|].
  apply bind_frame; [|intros m; by destruct (truthy m)].
  unfold mq. apply bind_frame; [apply global_frame|]. intros win'.
  destruct (win_matchMedia win') as [matchMedia|]; [|done].
  by destruct (matchMedia hasTouch_query).
Qed.

Lemma guarded_world q w :
  q ∈ guarded_queries → visual w = true → snd (run q w) = w.
Proof.
  unfold guarded_queries. rewrite !elem_of_cons, elem_of_nil.
  intros Hq Hv.
  destruct_or!; subst q; try done; unfold run;
    try (by apply hasTouch_world);
    [ unfold isMobile | unfold hasWebGL | unfold hasWebVR | unfold hasMIDI
    | unfold doNotTrack | unfold orientation
    | unfold browserInfo | unfold audioSupport | unfold videoSupport
    | unfold pluginSupport | unfold storageSupport ];
    rewrite guard_run, Hv; repeat step; try reflexivity; settle.
Qed.

Lemma unguarded_world q w :
  q ∈ [QisNode; QisBrowser; QgpuInfo] → snd (run q w) = w.
Proof.
  intros Hq. in_list_cases Hq; subst q; unfold run.
  - unfold isNode. repeat step; try reflexivity; settle.
  - by rewrite bind_run, isBrowser_run.
  - unfold gpuInfo. repeat step; try reflexivity; settle.
Qed.

Lemma platformInfo_world w : snd (platformInfo w) = w.
Proof.
  unfold platformInfo. rewrite bind_run, isBrowser_run.
  destruct (visual w) eqn:Hv.
  - pose proof (guarded_world QisMobile w ltac:(repeat constructor) Hv) as Hm.
    pose proof (guarded_world QbrowserInfo w ltac:(repeat constructor) Hv) as Hb.
    cbn [run] in Hm, Hb. rewrite bind_run.
    destruct (isMobile w) as [[m|e] w1]; simpl in Hm; subst w1; [|done].
    rewrite bind_run.
    destruct (browserInfo w) as [[b|e] w2]; simpl in Hb; subst w2; [|done].
    repeat step; try reflexivity; settle.
  - repeat step; try reflexivity; settle.
Qed.

(** X1.  Apart from [fontSupport], and apart from the diagnostic line of a
    guarded query outside a visual host, no query changes anything of the
    host, whether it returns or raises. *)
Theorem query_leaves_host (q : query) (w : World) :
  q ≠ QfontSupport →
  (q ∈ guarded_queries → fst (isBrowser w) = Return true) →
  snd (run q w) = w.
Proof.
  intros Hq Hg.
  destruct (decide (q ∈ guarded_queries)) as [Hin|Hout].
  - apply guarded_world; [done|]. by apply isBrowser_true, Hg.
  - apply unguarded_queries in Hout. in_list_cases Hout; subst q; try done;
      first [apply platformInfo_world | apply unguarded_world; repeat constructor].
Qed.

Lemma query_leaves_host_witness : snd (run QplatformInfo node_world) = node_world.
Proof.
  apply (query_leaves_host QplatformInfo node_world).
  - discriminate.
  - intros H. exfalso. by in_list_cases H.
Defined.

(** ** Queries that read navigator *)

(** X2.  The guard tests [window] and [document] only.  In a visual host
    where [navigator] is not declared, each of the seven queries that read it
    raises a ReferenceError, with no diagnostic. *)
Theorem navigator_is_not_guarded (q : query) (w : World) :
  q ∈ navigator_queries →
  fst (isBrowser w) = Return true →
  navigator w = None →
  run q w = (Throw (ReferenceError "navigator"), w).
Proof.
  intros Hq Hv%isBrowser_true Hnav.
  assert (isMobile w = (Throw (ReferenceError "navigator"), w)) as Hm.
  { unfold isMobile. by rewrite guard_run, Hv, bind_run, global_run, Hnav. }
  in_list_cases Hq; subst q; unfold run; try done;
    [ unfold hasWebVR | unfold hasMIDI | unfold doNotTrack | unfold browserInfo
    | unfold pluginSupport | unfold platformInfo ];
    rewrite ?guard_run, ?Hv, ?bind_run, ?isBrowser_run, ?Hv, ?global_run, ?Hnav;
    try done.
  by rewrite bind_run, Hm.
Qed.

Lemma navigator_is_not_guarded_witness :
  run QbrowserInfo bare_window_world
  = (Throw (ReferenceError "navigator"), bare_window_world).
Proof.
  apply (navigator_is_not_guarded QbrowserInfo bare_window_world).
  - repeat constructor.
  - reflexivity.
  - reflexivity.
Defined.

(** ** browserInfo: the shape of the result *)


(** ** platformInfo *)

Lemma isMobile_returns w nav :
  visual w = true → navigator w = Some nav →
  isMobile w = (Return (Bool (test mobile_re (nav_userAgent nav))), w).
Proof.
  intros Hv Hnav. unfold isMobile.
  rewrite guard_run, Hv, bind_run, global_run, Hnav.
  by destruct (test _ _).
Qed.



(** ** hasTouch *)

Lemma hasTouch_touch w win (touch : bool) :
  visual w = true → window w = Some win →
  (if win_has_ontouchstart win then mret true
   else if negb (truthy (win_DocumentTouch win)) then mret false
   else (doc ← global "document" document;
         C ← global "DocumentTouch" DocumentTouch;
         document_instanceof win C)) w = (Return touch, w) →
  hasTouch w
  = if touch then (Return (Bool true), w)
    else (m ← mq hasTouch_query;
          if truthy m then mret (Bool true) else mret (Bool false)) w.
Proof.
  intros Hv Hwin Ht. unfold hasTouch.
  rewrite guard_run, Hv, bind_run, global_run, Hwin. cbv zeta.
  rewrite bind_run, Ht. by destruct touch.
Qed.

Lemma hasTouch_raises w win e :
  visual w = true → window w = Some win →
  (if win_has_ontouchstart win then mret true
   else if negb (truthy (win_DocumentTouch win)) then mret false
   else (doc ← global "document" document;
         C ← global "DocumentTouch" DocumentTouch;
         document_instanceof win C)) w = (Throw e, w) →
  hasTouch w = (Throw e, w).
Proof.
  intros Hv Hwin Ht. unfold hasTouch.
  rewrite guard_run, Hv, bind_run, global_run, Hwin. cbv zeta.
  by rewrite bind_run, Ht.
Qed.

Lemma no_touch_evidence_run w win d :
  document w = Some d →
  no_touch_evidence w win →
  (if win_has_ontouchstart win then mret true
   else if negb (truthy (win_DocumentTouch win)) then mret false
   else (doc ← global "document" document;
         C ← global "DocumentTouch" DocumentTouch;
         document_instanceof win C)) w = (Return false, w).
Proof.
  intros Hd [-> [->|[[f Hf] Hi]]]; [done|].
  destruct (negb _); [done|].
  by rewrite bind_run, global_run, Hd, bind_run, global_run, Hf; cbn; rewrite Hi.
Qed.

Lemma mq_run w win :
  window w = Some win →
  mq hasTouch_query w
  = match win_matchMedia win with
    | Some matchMedia => get_matches (matchMedia hasTouch_query) w
    | None => (Throw (TypeError "window.matchMedia is not a function"), w)
    end.
Proof.
  intros Hwin. unfold mq. rewrite bind_run, global_run, Hwin.
  by destruct (win_matchMedia win).
Qed.

(** X5.  In a visual host [hasTouch()] answers true when 'ontouchstart' is
    in [window], without reading anything else.  Otherwise, when
    [window.DocumentTouch] is truthy, it evaluates
    [document instanceof DocumentTouch]: a ReferenceError when the
    identifier is not declared, a TypeError when its value is not a
    function, what the operator raises for a function, true when
    [document] is an instance.  With no touch evidence
    it calls [matchMedia] with the prefixed query and answers by the
    truthiness of [matches]; it raises a TypeError when [matchMedia] is
    missing or returns [null] or [undefined]. *)
Theorem hasTouch_cases (w : World) (win : Window) :
  window w = Some win →
  is_Some (document w) →
  (win_has_ontouchstart win = true → hasTouch w = (Return (Bool true), w))
  ∧ (∀ f, win_has_ontouchstart win = false →
       truthy (win_DocumentTouch win) = true →
       DocumentTouch w = Some (Func f) →
       win_document_is_DocumentTouch win = Return true →
       hasTouch w = (Return (Bool true), w))
  ∧ (∀ f e, win_has_ontouchstart win = false →
       truthy (win_DocumentTouch win) = true →
       DocumentTouch w = Some (Func f) →
       win_document_is_DocumentTouch win = Throw e →
       hasTouch w = (Throw e, w))
  ∧ (win_has_ontouchstart win = false →
     truthy (win_DocumentTouch win) = true →
     DocumentTouch w = None →
     hasTouch w = (Throw (ReferenceError "DocumentTouch"), w))
  ∧ (∀ C, win_has_ontouchstart win = false →
       truthy (win_DocumentTouch win) = true →
       DocumentTouch w = Some C →
       (∀ f, C ≠ Func f) →
       ∃ msg, hasTouch w = (Throw (TypeError msg), w))
  ∧ (∀ matchMedia,
       no_touch_evidence w win →
       win_matchMedia win = Some matchMedia →
       matchMedia hasTouch_query ≠ Undefined →
       matchMedia hasTouch_query ≠ Null →
       hasTouch w
       = (Return (Bool (truthy (field "matches" (matchMedia hasTouch_query)))),
          w))
  ∧ (∀ matchMedia,
       no_touch_evidence w win →
       win_matchMedia win = Some matchMedia →
       matchMedia hasTouch_query = Undefined
       ∨ matchMedia hasTouch_query = Null →
       ∃ msg, hasTouch w = (Throw (TypeError msg), w))
  ∧ (no_touch_evidence w win →
     win_matchMedia win = None →
     ∃ msg, hasTouch w = (Throw (TypeError msg), w)).
Proof.
  intros Hwin [d Hd].
  assert (Hv : visual w = true) by (apply visual_true; rewrite Hwin, Hd; eauto).
  split_and!.
  - intros H. rewrite (hasTouch_touch w win true); [done..|]. by rewrite H.
  - intros f H1 H2 HC Hi.
    rewrite (hasTouch_touch w win true); [done..|]. rewrite H1, H2. cbn [negb].
    by rewrite bind_run, global_run, Hd, bind_run, global_run, HC; cbn; rewrite Hi.
  - intros f e H1 H2 HC Hi. apply (hasTouch_raises w win); [done..|].
    rewrite H1, H2. cbn [negb].
    by rewrite bind_run, global_run, Hd, bind_run, global_run, HC; cbn; rewrite Hi.
  - intros H1 H2 HC. apply (hasTouch_raises w win); [done..|].
    rewrite H1, H2. cbn [negb].
    by rewrite bind_run, global_run, Hd, bind_run, global_run, HC.
  - intros C H1 H2 HC Hf. eexists. apply (hasTouch_raises w win); [done..|].
    rewrite H1, H2. cbn [negb].
    rewrite bind_run, global_run, Hd, bind_run, global_run, HC.
    destruct C; try reflexivity. by destruct (Hf name).
  - intros matchMedia Hno Hm Hu Hn.
    rewrite (hasTouch_touch w win false); [|done..|by eapply no_touch_evidence_run].
    rewrite bind_run, (mq_run w win), Hm by done.
    destruct (matchMedia hasTouch_query) as [| | | | | |fields|] eqn:Hr; try done.
    cbn -[field]. by destruct (truthy (field "matches" (Obj fields))).
  - intros matchMedia Hno Hm Hr. eexists.
    rewrite (hasTouch_touch w win false); [|done..|by eapply no_touch_evidence_run].
    rewrite bind_run, (mq_run w win), Hm by done.
    destruct Hr as [-> | ->]; reflexivity.
  - intros Hno Hm. eexists.
    rewrite (hasTouch_touch w win false); [|done..|by eapply no_touch_evidence_run].
    by rewrite bind_run, (mq_run w win), Hm.
Qed.

Lemma hasTouch_cases_witness :
  hasTouch (browser_world touch_window firefox_ua)
  = (Return (Bool true), browser_world touch_window firefox_ua)
  ∧ ∃ msg, hasTouch odd_touch_world = (Throw (TypeError msg), odd_touch_world).
Proof.
  split.
  - refine (proj1 (hasTouch_cases (browser_world touch_window firefox_ua)
                     touch_window eq_refl _) eq_refl).
    exists sample_document. reflexivity.
  - refine (proj1 (proj2 (proj2 (proj2 (proj2
              (hasTouch_cases odd_touch_world odd_touch_window eq_refl _)))))
              (Int 1) eq_refl eq_refl eq_refl _).
    + exists sample_document. reflexivity.
    + discriminate.
Defined.

(** ** Media elements without canPlayType *)

(** X6.  When the media element has no [canPlayType] function every field
    of the record is "no"; for video that includes [poster] and [captions],
    which are probed only inside the same test.  With [canPlayType] present,
    [poster] and [captions] are "probably" or "no" by the presence of the
    properties. *)
Theorem media_without_canPlayType (w : World) (d : Document) :
  fst (isBrowser w) = Return true →
  document w = Some d →
  (doc_audio_canPlayType d = None →
   audioSupport w = (Return (all_no ["mp3"; "vorbis"; "wav"; "aac"]), w))
  ∧ (doc_video_canPlayType d = None →
     videoSupport w
     = (Return (all_no ["captions"; "poster"; "webm"; "h264"; "theora"]), w))
  ∧ (is_Some (doc_video_canPlayType d) →
     ∃ v, videoSupport w = (Return v, w)
       ∧ field "poster" v
         = (if doc_video_has_poster d then Str "probably" else Str "no")
       ∧ field "captions" v
         = (if doc_track_has_src d then Str "probably" else Str "no")).
Proof.
  intros Hv%isBrowser_true Hd. unfold audioSupport, videoSupport.
  rewrite !guard_run, Hv, !bind_run, !global_run, Hd. split_and!.
  - by intros ->.
  - by intros ->.
  - intros [f ->]. eexists. split; [reflexivity|]. by split.
Qed.

Lemma media_without_canPlayType_witness :
  (doc_audio_canPlayType old_document = None →
   audioSupport old_world
   = (Return (all_no ["mp3"; "vorbis"; "wav"; "aac"]), old_world))
  ∧ (doc_video_canPlayType old_document = None →
     videoSupport old_world
     = (Return (all_no ["captions"; "poster"; "webm"; "h264"; "theora"]),
        old_world))
  ∧ (is_Some (doc_video_canPlayType old_document) →
     ∃ v, videoSupport old_world = (Return v, old_world)
       ∧ field "poster" v
         = (if doc_video_has_poster old_document then Str "probably" else Str "no")
       ∧ field "captions" v
         = (if doc_track_has_src old_document then Str "probably" else Str "no")).
Proof.
  apply (media_without_canPlayType old_world old_document).
  - reflexivity.
  - reflexivity.
Defined.

(** ** pluginSupport, gpuInfo, doNotTrack *)

(** X7.  [pluginSupport()] returns one record per registered plugin, in the
    host's order, each with one record per MIME type of the plugin in its
    [array]; an empty registry gives an empty list, and a navigator without
    [plugins] makes the call raise a TypeError. *)
Theorem pluginSupport_entries (w : World) (nav : Navigator) :
  fst (isBrowser w) = Return true →
  navigator w = Some nav →
  (∀ plugins, nav_plugins nav = Some plugins →
     ∃ entries,
       pluginSupport w = (Return (Arr entries), w)
       ∧ length entries = length plugins
       ∧ ∀ i p, plugins !! i = Some p →
           ∃ mimes,
             entries !! i
             = Some (Obj [("name", plugin_name p);
                          ("description", plugin_description p);
                          ("filename", plugin_filename p);
                          ("array", Arr mimes)])
             ∧ length mimes = length (plugin_mimes p)
             ∧ ∀ j m, plugin_mimes p !! j = Some m →
                 mimes !! j
                 = Some (Obj [("description", mime_description m);
                              ("type", mime_type m);
                              ("suffixes", mime_suffixes m)]))
  ∧ (nav_plugins nav = None → ∃ msg, pluginSupport w = (Throw (TypeError msg), w)).
Proof.
  intros Hv%isBrowser_true Hnav. unfold pluginSupport.
  rewrite guard_run, Hv, bind_run, global_run, Hnav. split.
  - intros plugins ->. eexists. split_and!; [reflexivity|apply length_map|].
    intros i p Hp. eexists. split_and!.
    + change map with (@fmap list _). by rewrite list_lookup_fmap, Hp.
    + apply length_map.
    + intros j m Hm. change map with (@fmap list _).
      by rewrite list_lookup_fmap, Hm.
  - intros ->. by eexists.
Qed.

Lemma pluginSupport_entries_witness :
  ∃ entries,
    pluginSupport plugin_world = (Return (Arr entries), plugin_world)
    ∧ length entries = length [flash_plugin]
    ∧ ∀ i p, [flash_plugin] !! i = Some p →
        ∃ mimes,
          entries !! i
          = Some (Obj [("name", plugin_name p);
                       ("description", plugin_description p);
                       ("filename", plugin_filename p);
                       ("array", Arr mimes)])
          ∧ length mimes = length (plugin_mimes p)
          ∧ ∀ j m, plugin_mimes p !! j = Some m →
              mimes !! j
              = Some (Obj [("description", mime_description m);
                           ("type", mime_type m);
                           ("suffixes", mime_suffixes m)]).
Proof.
  refine (proj1 (pluginSupport_entries plugin_world
                   (with_plugins (Some [flash_plugin])
                      (sample_navigator firefox_ua)) eq_refl eq_refl)
            [flash_plugin] eq_refl).
Defined.

(** X8.  [gpuInfo()] needs the document only, not the window: whenever the
    canvas gives a "webgl" context it returns a record of [vendor] and
    [renderer], the unmasked parameters when the debug extension is there and
    the generic ones when it is not. *)
Theorem gpuInfo_record (w : World) (d : Document) (gl : GLContext) :
  document w = Some d →
  doc_canvas_getContext d "webgl" = Some gl →
  (∀ ext, gl_getExtension gl "WEBGL_debug_renderer_info" = Some ext →
     gpuInfo w
     = (Return (Obj [("vendor", gl_getParameter gl (UNMASKED_VENDOR_WEBGL ext));
                     ("renderer", gl_getParameter gl (UNMASKED_RENDERER_WEBGL ext))]),
        w))
  ∧ (gl_getExtension gl "WEBGL_debug_renderer_info" = None →
     gpuInfo w
     = (Return (Obj [("vendor", gl_getParameter gl (gl_VENDOR gl));
                     ("renderer", gl_getParameter gl (gl_RENDERER gl))]),
        w)).
Proof.
  intros Hd Hgl. unfold gpuInfo. rewrite bind_run, global_run, Hd, Hgl.
  split; [intros ext ->|intros ->]; reflexivity.
Qed.

Lemma gpuInfo_record_witness :
  fst (isBrowser gl_world) = Return false
  ∧ gpuInfo gl_world
    = (Return (Obj [("vendor", Str "Intel Inc.");
                    ("renderer", Str "Intel Iris OpenGL Engine")]), gl_world).
Proof.
  split; [reflexivity|].
  refine (proj1 (gpuInfo_record gl_world gl_document sample_gl eq_refl eq_refl)
            {| UNMASKED_VENDOR_WEBGL := Int 37445;
               UNMASKED_RENDERER_WEBGL := Int 37446 |} eq_refl).
Defined.

Lemma strict_eq_str_Str v s : strict_eq_str v s = true ↔ v = Str s.
Proof.
  destruct v; simpl; try (split; [discriminate|intros [=]]).
  rewrite String.eqb_eq. split; [by intros ->|by intros [=]].
Qed.

(** X9.  In a visual host with a navigator [doNotTrack()] returns a
    boolean, true iff the preference is the string "1" or the string "yes";
    any other value, a number or a boolean included, gives false. *)
Theorem doNotTrack_iff (w : World) (nav : Navigator) :
  fst (isBrowser w) = Return true →
  navigator w = Some nav →
  ∃ b, doNotTrack w = (Return (Bool b), w)
    ∧ (b = true ↔ nav_doNotTrack nav = Str "1" ∨ nav_doNotTrack nav = Str "yes").
Proof.
  intros Hv%isBrowser_true Hnav. unfold doNotTrack.
  rewrite guard_run, Hv, bind_run, global_run, Hnav.
  destruct (_ || _) eqn:Hb; eexists; (split; [reflexivity|]).
  - apply orb_true_iff in Hb. by rewrite !strict_eq_str_Str in Hb.
  - apply orb_false_iff in Hb as [H1 H2]. split; [done|].
    intros [H|H]; apply strict_eq_str_Str in H; congruence.
Qed.

Lemma doNotTrack_iff_witness :
  ∃ b, doNotTrack sample_world = (Return (Bool b), sample_world)
    ∧ (b = true ↔ Str "1" = Str "1" ∨ Str "1" = Str "yes").
Proof.
  apply (doNotTrack_iff sample_world (sample_navigator firefox_ua)).
  - reflexivity.
  - reflexivity.
Defined.

(** ** isMobile: what the pattern matches *)

Lemma matcher_lit word x k :
  (∀ y, is_Some (k y)) →
  is_Some (matcher true (lit word) x k) ↔ opens_nocase word (ms_rest x) = true.
Proof.
  intros Hk. revert x. induction word as [|c word IH]; intros x.
  - simpl. split; [done|intros _; apply Hk].
  - assert (is_Some (matcher true (Seq (Char c) (lit word)) x k)
            ↔ opens_nocase (String c word) (ms_rest x) = true) as Hseq.
    { simpl. destruct (ms_rest x) as [|ch rest]; [by split; [intros []|]|].
      destruct (Ascii.eqb _ _); simpl; [apply IH|by split; [intros []|]]. }
    destruct word as [|c' word]; [|exact Hseq].
    rewrite <- Hseq. simpl.
    destruct (ms_rest x) as [|ch rest]; [done|].
    by destruct (Ascii.eqb _ _).
Qed.

Lemma matcher_alts_lit words x k :
  words ≠ [] →
  (∀ y, is_Some (k y)) →
  is_Some (matcher true (alts (map lit words)) x k)
  ↔ ∃ word, word ∈ words ∧ opens_nocase word (ms_rest x) = true.
Proof.
  intros Hne Hk. induction words as [|word words IH]; [done|].
  destruct words as [|word' words].
  - simpl map. cbn [alts]. rewrite matcher_lit by done. split.
    + intros H. exists word. split; [apply list_elem_of_here|done].
    + intros (word0 & Hin & H). apply elem_of_cons in Hin as [->|Hin]; [done|].
      by apply elem_of_nil in Hin.
  - change (alts (map lit (word :: word' :: words)))
      with (Alt (lit word) (alts (map lit (word' :: words)))).
    cbn [matcher].
    destruct (matcher true (lit word) x k) as [z|] eqn:Hw.
    + split; [|by eauto]. intros _. exists word.
      split; [apply list_elem_of_here|].
      apply (matcher_lit word x k Hk). by rewrite Hw.
    + rewrite IH by done. split.
      * intros (word0 & Hin & H). exists word0.
        split; [by apply list_elem_of_further|done].
      * intros (word0 & Hin & H). apply elem_of_cons in Hin as [->|Hin].
        -- apply (matcher_lit word x k Hk) in H. rewrite Hw in H.
           by destruct H.
        -- by exists word0.
Qed.

(** A search succeeds iff the body matches at some position. *)
Lemma search_is_Some re (P : list ascii → bool) prev s :
  (∀ prev s, is_Some (matcher (re_ignoreCase re) (re_body re)
                        {| ms_prev := prev; ms_rest := s; ms_caps := ∅ |} Some)
             ↔ P s = true) →
  is_Some (search re prev s) ↔ ∃ pre post, s = pre ++ post ∧ P post = true.
Proof.
  intros HP. revert prev. induction s as [|c s IH]; intros prev.
  - cbn [search]. destruct (matcher _ _ _ _) as [y|] eqn:Hm.
    + split; [|by eauto]. intros _. exists [], []. split; [done|].
      apply (HP prev []). by rewrite Hm.
    + split; [by intros []|]. intros (pre & post & Hs & Hpost).
      symmetry in Hs. apply app_eq_nil in Hs as [-> ->].
      apply (HP prev []) in Hpost. rewrite Hm in Hpost. by destruct Hpost.
  - cbn [search]. destruct (matcher _ _ _ _) as [y|] eqn:Hm.
    + split; [|by eauto]. intros _. exists [], (c :: s). split; [done|].
      apply (HP prev (c :: s)). by rewrite Hm.
    + rewrite IH. split.
      * intros (pre & post & -> & Hpost). by exists (c :: pre), post.
      * intros (pre & post & Hs & Hpost). destruct pre as [|c' pre].
        -- simpl in Hs. subst post. apply (HP prev (c :: s)) in Hpost.
           rewrite Hm in Hpost. by destruct Hpost.
        -- injection Hs as -> ->. by exists pre, post.
Qed.

Lemma list_ascii_of_string_app a b :
  list_ascii_of_string (a +:+ b) = list_ascii_of_string a ++ list_ascii_of_string b.
Proof. induction a as [|c a IH]; simpl; [done|]. by rewrite IH. Qed.

Lemma opens_nocase_iff word s :
  opens_nocase word s = true
  ↔ ∃ mid post, s = list_ascii_of_string mid ++ post
      ∧ fold_case mid = fold_case word.
Proof.
  revert s. induction word as [|c word IH]; intros s.
  - simpl. split; [intros _; by exists "", s|done].
  - destruct s as [|ch s]; simpl.
    + split; [done|]. intros (mid & post & Hs & Hf).
      destruct mid; simpl in *; discriminate.
    + rewrite andb_true_iff, Ascii.eqb_eq, IH. split.
      * intros (Hc & mid & post & -> & Hf). exists (String ch mid), post.
        simpl. by rewrite Hc, Hf.
      * intros (mid & post & Hs & Hf). destruct mid as [|ch' mid]; [done|].
        simpl in Hs, Hf. injection Hs as -> ->. injection Hf as Hc Hf.
        split; [done|]. by exists mid, post.
Qed.

Lemma existsb_elem_of {A} (f : A → bool) (l : list A) :
  existsb f l = true ↔ ∃ x, x ∈ l ∧ f x = true.
Proof.
  rewrite existsb_exists. by setoid_rewrite list_elem_of_In.
Qed.

Lemma test_mobile_re ua :
  test mobile_re ua = true
  ↔ ∃ token, token ∈ mobile_tokens ∧ occurs_nocase token ua.
Proof.
  unfold test, exec. rewrite bool_decide_eq_true.
  rewrite (search_is_Some mobile_re
             (λ s, existsb (λ word, opens_nocase word s) mobile_tokens)).
  - split.
    + intros (pre & post & Hua & (token & Hin & Ho)%existsb_elem_of).
      exists token. split; [done|].
      apply opens_nocase_iff in Ho as (mid & post' & -> & Hf).
      exists (string_of_list_ascii pre), mid, (string_of_list_ascii post').
      split; [|done].
      rewrite <- (string_of_list_ascii_of_string ua), Hua.
      rewrite <- (list_ascii_of_string_of_list_ascii pre) at 1.
      rewrite <- (list_ascii_of_string_of_list_ascii post') at 1.
      rewrite <- !list_ascii_of_string_app.
      by rewrite string_of_list_ascii_of_string.
    + intros (token & Hin & pre & mid & post & -> & Hf).
      exists (list_ascii_of_string pre), (list_ascii_of_string (mid +:+ post)).
      split; [by rewrite list_ascii_of_string_app|].
      apply existsb_elem_of. exists token. split; [done|].
      apply opens_nocase_iff. exists mid, (list_ascii_of_string post).
      by rewrite list_ascii_of_string_app.
  - intros prev s. rewrite existsb_elem_of.
    apply (matcher_alts_lit mobile_tokens); [done|by eauto].
Qed.

(** X10.  In a visual host with a navigator [isMobile()] returns a boolean,
    true iff the client string contains, letter case aside, one of the
    thirteen platform names of the pattern. *)
Theorem isMobile_iff (w : World) (nav : Navigator) :
  fst (isBrowser w) = Return true →
  navigator w = Some nav →
  ∃ b, isMobile w = (Return (Bool b), w)
    ∧ (b = true
       ↔ ∃ token, token ∈ mobile_tokens
           ∧ occurs_nocase token (nav_userAgent nav)).
Proof.
  intros Hv%isBrowser_true Hnav.
  exists (test mobile_re (nav_userAgent nav)).
  split; [by apply isMobile_returns|apply test_mobile_re].
Qed.

Lemma isMobile_iff_witness :
  ∃ b, isMobile sample_world = (Return (Bool b), sample_world)
    ∧ (b = true
       ↔ ∃ token, token ∈ mobile_tokens ∧ occurs_nocase token firefox_ua).
Proof.
  apply (isMobile_iff sample_world (sample_navigator firefox_ua)).
  - reflexivity.
  - reflexivity.
Defined.

(** ** fontSupport: more of its behaviour *)

(** X11.  When the layout engine gives every node the same dimensions, as
    a host without rendering does, no candidate differs from a baseline and
    [fontSupport()] returns the empty list. *)
Theorem fontSupport_uniform_layout (w : World) (d : Document) (h : node)
    (box : Z * Z) :
  document w = Some d →
  doc_body d = Some h →
  h < length (doc_nodes d) →
  (∀ ns s, doc_layout d ns s = box) →
  fst (fontSupport w) = Return (Arr []).
Proof.
  intros Hd Hbody Hh Hbox.
  rewrite (fontSupport_run w d h) by done. cbn [fst].
  rewrite filter_none; [done|].
  intros font _ (j & b & t & _ & _ & Hdiff).
  rewrite !Hbox in Hdiff. by destruct Hdiff.
Qed.

Lemma fontSupport_uniform_layout_witness :
  fst (fontSupport headless_world) = Return (Arr []).
Proof.
  apply (fontSupport_uniform_layout headless_world headless_document 2 (0, 0)%Z).
  - reflexivity.
  - reflexivity.
  - exact (le_n 3).
  - reflexivity.
Defined.

Lemma after_calls_in_doc w d (h : node) body k :
  doc_body d = Some h →
  doc_nodes d !! h = Some body →
  ∃ ns cs,
    after_calls k (in_doc w d (doc_nodes d)) = in_doc w d ns
    ∧ length ns = length (doc_nodes d) + 1460 * k
    ∧ ns !! h = Some (adopt cs body)
    ∧ length cs = 2 * k.
Proof.
  intros Hbody Hh. induction k as [|k (ns & cs & Hk & Hlen & Hns & Hcs)].
  - exists (doc_nodes d), []. by rewrite adopt_nil.
  - assert (h < length ns) as Hlt by (by eapply lookup_lt_Some).
    exists (font_store fontList h ns), (cs ++ [length ns; length ns + 1]).
    cbn [after_calls]. rewrite Hk, (fontSupport_run_in w d h ns) by done.
    split_and!.
    + done.
    + rewrite length_font_store, length_fontList. lia.
    + rewrite font_store_old, list_lookup_alter_eq, Hns by done.
      simpl. by rewrite adopt_adopt.
    + rewrite length_app. simpl. lia.
Qed.

(** X12.  The probes add up.  In a document with a body, [k] calls of
    [fontSupport()] in a row all return, and leave the document with
    [1460 * k] more nodes and the body with [2 * k] more children than
    before the first call. *)
Theorem fontSupport_accumulates (w : World) (d : Document) (h : node)
    (body : Element) (k : nat) :
  document w = Some d →
  doc_body d = Some h →
  doc_nodes d !! h = Some body →
  (∃ available, fst (fontSupport (after_calls k w)) = Return (Arr available))
  ∧ node_count (after_calls k w) = Some (length (doc_nodes d) + 1460 * k)
  ∧ length <$> children_of (after_calls k w) h
    = Some (length (el_children body) + 2 * k).
Proof.
  intros Hd Hbody Hh.
  destruct (after_calls_in_doc w d h body k Hbody Hh)
    as (ns & cs & Hk & Hlen & Hns & Hcs).
  rewrite (in_doc_initial w d Hd) in Hk. rewrite Hk.
  assert (h < length ns) as Hlt by (by eapply lookup_lt_Some).
  split_and!.
  - rewrite (fontSupport_run_in w d h ns) by done. by eexists.
  - unfold node_count. cbn. by rewrite Hlen.
  - unfold children_of. cbn. rewrite Hns. cbn.
    rewrite length_app, Hcs. done.
Qed.

Lemma fontSupport_accumulates_witness :
  (∃ available,
     fst (fontSupport (after_calls 3 sample_world)) = Return (Arr available))
  ∧ node_count (after_calls 3 sample_world)
    = Some (length (doc_nodes sample_document) + 1460 * 3)
  ∧ length <$> children_of (after_calls 3 sample_world) 2
    = Some (length (@nil node) + 2 * 3).
Proof.
  apply (fontSupport_accumulates sample_world sample_document 2
           {| el_tag := "body"; el_style := ∅; el_innerHTML := "";
              el_parent := Some 0; el_children := [] |} 3).
  - reflexivity.
  - reflexivity.
  - reflexivity.
Defined.

(** X13.  [fontSupport()] has no soft failure.  Without a [document] it
    raises a ReferenceError; in a document without a body it raises a
    TypeError at the first [appendChild]; in both cases nothing is written
    to the console and no list is returned. *)
Theorem fontSupport_faults (w : World) :
  (document w = None → fontSupport w = (Throw (ReferenceError "document"), w))
  ∧ (∀ d, document w = Some d → doc_body d = None →
       ∃ msg, fst (fontSupport w) = Throw (TypeError msg)
         ∧ console (snd (fontSupport w)) = console w).
Proof.
  split; [apply fontSupport_without_document|].
  intros d Hd Hb. eexists. rewrite <- (in_doc_initial w d Hd) at 1 2.
  unfold fontSupport. rewrite bind_run, global_run.
  change (document (in_doc w d (doc_nodes d)))
    with (Some (set_nodes (doc_nodes d) d)).
  cbv beta iota zeta.
  change (doc_body (set_nodes (doc_nodes d) d)) with (doc_body d). rewrite Hb.
  rewrite bind_run, createElement_run, bind_run, createElement_run.
  unfold initializeBaseFontsSpans.
  rewrite bind_run, initializeBaseFontsSpans_from_run.
  split; reflexivity.
Qed.

Lemma fontSupport_faults_witness :
  ∃ msg, fst (fontSupport bodyless_world) = Throw (TypeError msg)
    ∧ console (snd (fontSupport bodyless_world)) = console bodyless_world.
Proof.
  exact (proj2 (fontSupport_faults bodyless_world) bodyless_document
           eq_refl eq_refl).
Defined.

(** ** The matcher and its relation *)

Lemma mstate_eta x :
  {| ms_prev := ms_prev x; ms_rest := ms_rest x; ms_caps := ms_caps x |} = x.
Proof. by destruct x. Qed.

(** The loop of a repetition, for any fuel. *)
Lemma star_loop_sound icase r k
    (IH : ∀ x k z, matcher icase r x k = Some z →
                   ∃ y, walks icase r x y ∧ k y = Some z) :
  ∀ fuel x z,
    (fix loop (fuel : nat) (x : mstate) : option mstate :=
       match fuel with
       | O => k x
       | S fuel' =>
           match matcher icase r x
                   (λ y, if (length (ms_rest y) <? length (ms_rest x))%nat
                         then loop fuel' y else None) with
           | Some z => Some z
           | None => k x
           end
       end) fuel x = Some z →
    ∃ y, rtc (walks icase r) x y ∧ k y = Some z.
Proof.
  induction fuel as [|fuel IHf]; intros x z Hm.
  - exists x. split; [apply rtc_refl|done].
  - destruct (matcher icase r x _) as [z1|] eqn:H1.
    + injection Hm as ->. apply IH in H1 as (m & Hxm & Hm).
      destruct (_ <? _)%nat; [|done].
      apply IHf in Hm as (y & Hmy & Hk). exists y.
      split; [by eapply rtc_l|done].
    + exists x. split; [apply rtc_refl|done].
Qed.

(** A success of the matcher went along the pattern to a position that the
    continuation accepted. *)
Lemma matcher_sound icase r :
  ∀ x k z, matcher icase r x k = Some z → ∃ y, walks icase r x y ∧ k y = Some z.
Proof.
  induction r as [|c|p|r1 IH1 r2 IH2|r1 IH1 r2 IH2|r IH|n r IH|r IH|];
    intros x k z Hm.
  - cbn [matcher walks] in *. eauto.
  - cbn [matcher walks] in *.
    destruct (ms_rest x) as [|ch t] eqn:Hx; [done|].
    destruct (Ascii.eqb _ _) eqn:Hc; [|done].
    apply Ascii.eqb_eq in Hc. eexists. split; [|exact Hm]. exists ch. by simpl.
  - cbn [matcher walks] in *.
    destruct (ms_rest x) as [|ch t] eqn:Hx; [done|].
    destruct (p ch) eqn:Hp; [|done].
    eexists. split; [|exact Hm]. exists ch. by simpl.
  - cbn [matcher walks] in *.
    apply IH1 in Hm as (m & Hxm & Hm). apply IH2 in Hm as (y & Hmy & Hk).
    eauto.
  - cbn [matcher walks] in *.
    destruct (matcher icase r1 x k) as [z1|] eqn:H1.
    + injection Hm as ->. apply IH1 in H1 as (y & ? & ?). eauto.
    + apply IH2 in Hm as (y & ? & ?). eauto.
  - cbn [walks]. exact (star_loop_sound icase r k IH (S (length (ms_rest x))) x z Hm).
  - cbn [matcher walks] in *. apply IH in Hm as (y' & Hy' & Hk). eauto.
  - cbn [matcher walks] in *.
    destruct (matcher icase r x Some) as [y'|] eqn:H1; [|done].
    apply IH in H1 as (y'' & Hy'' & [= ->]). eauto.
  - cbn [matcher walks] in *. destruct (xorb _ _) eqn:Hb; [|done]. eauto.
Qed.

Lemma moved_refl x : moved x x "".
Proof. by split. Qed.

Lemma moved_trans x y z a b : moved x y a → moved y z b → moved x z (a +:+ b).
Proof.
  intros [Hx Hc] [Hy Hc']. split; [|congruence].
  by rewrite Hx, Hy, list_ascii_of_string_app, app_assoc.
Qed.

Lemma moved_consumed x y mid : moved x y mid → consumed x y = mid.
Proof.
  intros [Hx _]. unfold consumed. rewrite Hx, length_app.
  replace (_ + _ - _) with (length (list_ascii_of_string mid)) by lia.
  by rewrite take_app_length, string_of_list_ascii_of_string.
Qed.

Lemma walks_lit_nocase word x y :
  walks true (lit word) x y →
  ∃ mid, moved x y mid ∧ fold_case mid = fold_case word.
Proof.
  revert x. induction word as [|c word IH]; intros x Hw.
  - simpl in Hw. subst y. exists "". by split; [apply moved_refl|].
  - assert (walks true (Seq (Char c) (lit word)) x y) as (m & Hc & Hm).
    { destruct word as [|c' word]; [|exact Hw].
      exists y. split; [exact Hw|done]. }
    destruct Hc as (ch & Hx & Hf & _ & Hcaps).
    apply IH in Hm as (mid & [Hmid Hcaps'] & Hfold).
    exists (String ch mid). split; [split|].
    + simpl. by rewrite Hx, Hmid.
    + congruence.
    + simpl. by rewrite Hf, Hfold.
Qed.

Lemma walks_lit_case word x y : walks false (lit word) x y → moved x y word.
Proof.
  revert x. induction word as [|c word IH]; intros x Hw.
  - simpl in Hw. subst y. apply moved_refl.
  - assert (walks false (Seq (Char c) (lit word)) x y) as (m & Hc & Hm).
    { destruct word as [|c' word]; [|exact Hw].
      exists y. split; [exact Hw|done]. }
    destruct Hc as (ch & Hx & Hf & _ & Hcaps).
    unfold canonicalize in Hf. simpl in Hf. subst ch.
    apply IH in Hm as [Hmid Hcaps']. split; [|congruence].
    simpl. by rewrite Hx, Hmid.
Qed.

Lemma walks_class icase p x y :
  walks icase (Class p) x y →
  ∃ ch, moved x y (String ch "") ∧ p ch = true.
Proof. intros (ch & Hx & Hp & _ & Hc). exists ch. by split; [split|]. Qed.

Lemma walks_star_class icase p x y :
  walks icase (Star (Class p)) x y →
  ∃ mid, moved x y mid ∧ forallb p (list_ascii_of_string mid) = true.
Proof.
  cbn [walks]. induction 1 as [x|x m y Hxm _ (mid & Hm & Hall)].
  - exists "". by split; [apply moved_refl|].
  - apply (walks_class icase) in Hxm as (ch & Hch & Hp).
    exists (String ch mid). split; [exact (moved_trans _ _ _ _ _ Hch Hm)|].
    simpl. by rewrite Hp, Hall.
Qed.

Lemma walks_plus_digit icase x y :
  walks icase (Plus digit) x y → ∃ mid, moved x y mid ∧ decimal mid.
Proof.
  intros (m & (ch & Hch & Hp)%walks_class & (mid & Hm & Hall)%walks_star_class).
  exists (String ch mid). split; [exact (moved_trans _ _ _ _ _ Hch Hm)|].
  split; [done|]. simpl. by rewrite Hp, Hall.
Qed.

(** What [search] returns is the array of a match at some position. *)
Lemma search_Some re prev s arr :
  search re prev s = Some arr →
  ∃ x y, ms_caps x = ∅
    ∧ walks (re_ignoreCase re) (re_body re) x y
    ∧ arr = match_array re x y.
Proof.
  revert prev. induction s as [|c s IH]; intros prev Hs; cbn [search] in Hs.
  - destruct (matcher _ _ _ _) as [y|] eqn:Hm; [|done].
    apply matcher_sound in Hm as (y' & Hw & [= ->]). injection Hs as <-.
    eexists _, _. split_and!; [|exact Hw|reflexivity]. reflexivity.
  - destruct (matcher _ _ _ _) as [y|] eqn:Hm.
    + apply matcher_sound in Hm as (y' & Hw & [= ->]). injection Hs as <-.
      eexists _, _. split_and!; [|exact Hw|reflexivity]. reflexivity.
    + by apply IH in Hs.
Qed.

Lemma fold_case_in_browser_names mid word :
  fold_case mid = fold_case word → word ∈ browser_names →
  fold_case mid ∈ map fold_case browser_names.
Proof.
  intros -> Hin. change map with (@fmap list _). by apply list_elem_of_fmap_2.
Qed.

(** The array of a match of the main pattern: the name as the client string
    spells it, and the digits that follow it. *)
Lemma exec_browser_re ua arr :
  exec browser_re ua = Some arr →
  ∃ whole name version,
    arr = [Some whole; Some name; Some version]
    ∧ fold_case name ∈ map fold_case browser_names
    ∧ decimal version.
Proof.
  intros (x & z & Hx & Hw & ->)%search_Some.
  cbn [re_body re_ignoreCase browser_re] in Hw.
  destruct Hw as (y1 & (y0 & Hname & ->) & y2 & Hslash & y3 & Hsp & y4 & Hver & ->).
  assert (∃ name, moved x y0 name
                  ∧ fold_case name ∈ map fold_case browser_names)
    as (name & Hmv & Hin).
  { cbn [alts] in Hname.
    destruct Hname as [H|[H|[H|[H|[H|(m & H & y' & Hl & ->)]]]]].
    1-5: apply walks_lit_nocase in H as (mid & Hm & Hf); exists mid;
      (split; [done|]); eapply fold_case_in_browser_names; [done|];
      repeat constructor.
    apply walks_lit_nocase in H as (mid & [Hm Hc] & Hf).
    apply walks_lit_nocase in Hl as (_ & [_ Hc'] & _).
    exists mid. split; [split; [done|simpl; congruence]|].
    eapply fold_case_in_browser_names; [done|]. repeat constructor. }
  apply walks_plus_digit in Hver as (version & Hmv' & Hdec).
  assert (ms_caps y3 = <[1 := name]> ∅) as Hc3.
  { apply walks_star_class in Hsp as (_ & [_ ->] & _).
    destruct Hslash as [(_ & [_ ->] & _)%walks_lit_nocase| ->];
      simpl; rewrite (moved_consumed _ _ _ Hmv); destruct Hmv as [_ ->];
      by rewrite Hx. }
  exists (consumed x (with_caps y4 (<[2:=consumed y3 y4]> (ms_caps y4)))),
    name, version.
  split; [|done]. unfold match_array. cbn [re_groups browser_re seq map].
  cbn [ms_caps with_caps]. rewrite (moved_consumed _ _ _ Hmv').
  destruct Hmv' as [_ ->]. rewrite Hc3.
  by rewrite lookup_insert_ne, lookup_insert_eq, lookup_insert_eq.
Qed.

Lemma exec_version_re ua tem :
  exec version_re ua = Some tem →
  ∃ whole version, tem = [Some whole; Some version] ∧ decimal version.
Proof.
  intros (x & z & Hx & Hw & ->)%search_Some.
  cbn [re_body re_ignoreCase version_re] in Hw.
  destruct Hw as (y1 & (_ & [_ Hc1] & _)%walks_lit_nocase & y2 & Hver & ->).
  apply walks_plus_digit in Hver as (version & Hmv & Hdec).
  eexists _, version. split; [|done].
  unfold match_array. cbn [re_groups version_re seq map ms_caps with_caps].
  rewrite (moved_consumed _ _ _ Hmv). by rewrite lookup_insert_eq.
Qed.

Lemma exec_rv_re ua tem :
  exec rv_re ua = Some tem →
  ∃ whole version, tem = [Some whole; Some version] ∧ decimal version.
Proof.
  intros (x & z & Hx & Hw & ->)%search_Some.
  cbn [re_body re_ignoreCase rv_re] in Hw.
  destruct Hw as (y1 & _ & y2 & _ & y3 & _ & y4 & Hver & ->).
  apply walks_plus_digit in Hver as (version & Hmv & Hdec).
  eexists _, version. split; [|done].
  unfold match_array. cbn [re_groups rv_re seq map ms_caps with_caps].
  rewrite (moved_consumed _ _ _ Hmv). by rewrite lookup_insert_eq.
Qed.

Lemma exec_opr_edge_re ua tem :
  exec opr_edge_re ua = Some tem →
  ∃ whole token version,
    tem = [Some whole; Some token; Some version]
    ∧ (token = "OPR" ∨ token = "Edge")
    ∧ decimal version.
Proof.
  intros (x & z & Hx & Hw & ->)%search_Some.
  cbn [re_body re_ignoreCase opr_edge_re] in Hw.
  destruct Hw as (y1 & [-> _] & y2 & (y0 & Htok & ->) & y3 & Hslash
                  & y4 & Hver & ->).
  assert (∃ token, moved x y0 token ∧ (token = "OPR" ∨ token = "Edge"))
    as (token & Hmv & Htoken).
  { cbn [alts] in Htok. destruct Htok as [H|H]; apply walks_lit_case in H; eauto. }
  apply walks_lit_case in Hslash as [_ Hc3]. cbn [ms_caps with_caps] in Hc3.
  apply walks_plus_digit in Hver as (version & Hmv' & Hdec).
  eexists _, token, version. split; [|done].
  unfold match_array. cbn [re_groups opr_edge_re seq map ms_caps with_caps].
  rewrite (moved_consumed _ _ _ Hmv'). destruct Hmv' as [_ ->]. rewrite Hc3.
  rewrite (moved_consumed _ _ _ Hmv).
  by rewrite lookup_insert_ne, lookup_insert_eq, lookup_insert_eq.
Qed.

Lemma decimal_truthy s : decimal s → truthy (Str s) = true.
Proof. intros [Hs _]. simpl. by destruct s. Qed.

Lemma replace_digits s :
  forallb is_digit (list_ascii_of_string s) = true →
  replace "OPR" "Opera" s = s.
Proof.
  induction s as [|c s IH]; [done|].
  cbn [list_ascii_of_string forallb]. intros [Hc Hs]%andb_true_iff.
  change (replace "OPR" "Opera" (String c s))
    with (if (if ascii_dec "O" c then String.prefix "PR" s else false)
          then "Opera" +:+ drop_chars 3 (String c s)
          else String c (replace "OPR" "Opera" s)).
  destruct (ascii_dec "O" c) as [<-|_]; [by vm_compute in Hc|].
  by rewrite IH.
Qed.

(** ** browserInfo: the results *)

Lemma browserInfo_report w nav :
  visual w = true → navigator w = Some nav →
  ∃ v, browserInfo w = (Return v, w) ∧ browser_report nav v.
Proof.
  intros Hv Hnav. unfold browserInfo.
  rewrite guard_run, Hv, bind_run, global_run, Hnav. cbv zeta.
  destruct (exec browser_re (nav_userAgent nav)) as [M|] eqn:HM.
  - apply exec_browser_re in HM as (whole & name & version & -> & Hname & Hdec).
    change (default [] (Some [Some whole; Some name; Some version]))
      with [Some whole; Some name; Some version].
    change (at_index [Some whole; Some name; Some version] 1) with (Some name).
    change (at_index [Some whole; Some name; Some version] 2) with (Some version).
    cbn [opt_to_string].
    destruct (test trident_re name).
    { destruct (exec rv_re _) as [tem|] eqn:Hrv.
      - apply exec_rv_re in Hrv as (? & v & -> & Hv').
        eexists. split; [reflexivity|]. apply report_ie. by right.
      - eexists. split; [reflexivity|]. apply report_ie. by left. }
    cbn [opt_value]. rewrite (decimal_truthy _ Hdec).
    assert (∀ tem : list (option string), exec opr_edge_re (nav_userAgent nav) = Some tem →
              browser_report nav
                (Str (replace "OPR" "Opera"
                        (join " " (map (default "") (drop 1 tem)))))) as Hopr.
    { intros tem (? & token & n & -> & Htoken & Hn)%exec_opr_edge_re.
      destruct Htoken as [-> | ->].
      - by apply report_opera.
      - change (replace "OPR" "Opera" _)
          with ("Edge " +:+ replace "OPR" "Opera" n).
        rewrite replace_digits by apply Hn. by apply report_edge. }
    destruct (exec version_re _) as [tem|] eqn:Hver;
      [apply exec_version_re in Hver as (? & v & -> & Hv')|];
      (case_bool_decide as Hchrome;
       [destruct (exec opr_edge_re _) as [tem'|] eqn:Ho;
        [eexists; split; [reflexivity|]; by apply Hopr|]|]);
      (eexists; split; [reflexivity|]; by apply report_token).
  - change (default [] None) with (@nil (option string)).
    change (at_index [] 1) with (@None string).
    change (at_index [] 2) with (@None string).
    cbn [opt_to_string].
    change (test trident_re "undefined") with false. cbv iota.
    rewrite bool_decide_eq_false_2 by done.
    cbn [opt_value truthy].
    destruct (exec version_re _) as [tem|] eqn:Hver.
    + apply exec_version_re in Hver as (? & v & -> & Hv').
      eexists. split; [reflexivity|]. by apply report_app_version.
    + eexists. split; [reflexivity|]. apply report_app.
Qed.

(** X14.  In a visual host with a navigator the result of [browserInfo()]
    is, for every client string, one of: "IE " followed by digits or by
    nothing; "Opera " or "Edge " followed by digits; a record whose name is
    one of the six browser names as the client string spells it and whose
    version is a run of digits; or a record that carries
    [navigator.appName] with [navigator.appVersion] or with the digits of a
    Version token.  A version taken from the client string is always a
    non-empty string of decimal digits, never a number. *)
Theorem browserInfo_reports (w : World) (nav : Navigator) :
  fst (isBrowser w) = Return true →
  navigator w = Some nav →
  ∃ v, browserInfo w = (Return v, w) ∧ browser_report nav v.
Proof. intros Hv%isBrowser_true Hnav. by apply browserInfo_report. Qed.

Lemma browserInfo_reports_witness :
  ∃ v, browserInfo sample_world = (Return v, sample_world)
    ∧ browser_report (sample_navigator firefox_ua) v.
Proof.
  apply (browserInfo_reports sample_world (sample_navigator firefox_ua)).
  - reflexivity.
  - reflexivity.
Defined.

(** X15.  When the result is a record and the client string has a Version
    token, the version reported is the digits of that token, not the number
    that follows the browser name. *)
Theorem version_token_wins (w : World) (nav : Navigator)
    (tem : list (option string)) :
  fst (isBrowser w) = Return true →
  navigator w = Some nav →
  answers_string (nav_userAgent nav) = false →
  exec version_re (nav_userAgent nav) = Some tem →
  ∃ name version,
    browserInfo w
    = (Return (Obj [("name", name); ("version", Str version)]), w)
    ∧ at_index tem 1 = Some version
    ∧ decimal version.
Proof.
  intros Hv%isBrowser_true Hnav Hans Htem.
  unfold answers_string in Hans. cbv zeta in Hans.
  apply orb_false_iff in Hans as [Htri Hchrome].
  unfold browserInfo.
  rewrite guard_run, Hv, bind_run, global_run, Hnav. cbv zeta.
  rewrite Htri, Htem.
  apply exec_version_re in Htem as (? & v & -> & Hdec).
  destruct (truthy _).
  - eexists _, v. split_and!; [|done..].
    case_bool_decide; [destruct (exec opr_edge_re _) eqn:Ho|]; try reflexivity.
    rewrite andb_true_l in Hchrome. apply bool_decide_eq_false in Hchrome.
    destruct Hchrome. eauto.
  - eexists _, v. split_and!; [|done..].
    case_bool_decide; [destruct (exec opr_edge_re _) eqn:Ho|]; try reflexivity.
    rewrite andb_true_l in Hchrome. apply bool_decide_eq_false in Hchrome.
    destruct Hchrome. eauto.
Qed.

Lemma version_token_wins_witness :
  ∃ name version,
    browserInfo (browser_world sample_window safari_ua)
    = (Return (Obj [("name", name); ("version", Str version)]),
       browser_world sample_window safari_ua)
    ∧ at_index [Some "Version/12"; Some "12"] 1 = Some version
    ∧ decimal version.
Proof.
  apply (version_token_wins (browser_world sample_window safari_ua)
           (sample_navigator safari_ua) [Some "Version/12"; Some "12"]).
  - reflexivity.
  - reflexivity.
  - reflexivity.
  - reflexivity.
Defined.

(** X16.  When the client string has none of the six browser names followed
    by digits, [browserInfo()] reports [navigator.appName], with
    [navigator.appVersion] or, if there is one, with the digits of a Version
    token. *)
Theorem browserInfo_without_token (w : World) (nav : Navigator) :
  fst (isBrowser w) = Return true →
  navigator w = Some nav →
  exec browser_re (nav_userAgent nav) = None →
  ∃ version,
    browserInfo w
    = (Return (Obj [("name", nav_appName nav); ("version", version)]), w)
    ∧ (exec version_re (nav_userAgent nav) = None →
       version = nav_appVersion nav)
    ∧ (∀ tem, exec version_re (nav_userAgent nav) = Some tem →
         ∃ digits, version = Str digits ∧ at_index tem 1 = Some digits
                   ∧ decimal digits).
Proof.
  intros Hv%isBrowser_true Hnav HM. unfold browserInfo.
  rewrite guard_run, Hv, bind_run, global_run, Hnav. cbv zeta. rewrite HM.
  change (default [] None) with (@nil (option string)).
  change (at_index [] 1) with (@None string).
  change (at_index [] 2) with (@None string).
  cbn [opt_to_string].
  change (test trident_re "undefined") with false. cbv iota.
  rewrite bool_decide_eq_false_2 by done.
  cbn [opt_value truthy].
  destruct (exec version_re _) as [tem|] eqn:Hver.
  - apply exec_version_re in Hver as (? & v & -> & Hdec).
    eexists. split_and!; [reflexivity|done|].
    intros tem [= <-]. by exists v.
  - eexists. split_and!; [reflexivity|done|done].
Qed.

Lemma browserInfo_without_token_witness :
  ∃ version,
    browserInfo (browser_world sample_window curl_ua)
    = (Return (Obj [("name", Str "Netscape"); ("version", version)]),
       browser_world sample_window curl_ua)
    ∧ (exec version_re curl_ua = None → version = Str "5.0")
    ∧ (∀ tem, exec version_re curl_ua = Some tem →
         ∃ digits, version = Str digits ∧ at_index tem 1 = Some digits
                   ∧ decimal digits).
Proof.
  apply (browserInfo_without_token (browser_world sample_window curl_ua)
           (sample_navigator curl_ua)).
  - reflexivity.
  - reflexivity.
  - reflexivity.
Defined.

(** ** browserInfo: by the leftmost tokens *)

Lemma ms_rest_advance n x : ms_rest (advance n x) = drop n (ms_rest x).
Proof.
  revert x. induction n as [|n IH]; intros x; [done|].
  simpl. destruct (ms_rest x) as [|ch t] eqn:Hx; [by rewrite Hx|].
  by rewrite IH.
Qed.

Lemma ms_caps_advance n x : ms_caps (advance n x) = ms_caps x.
Proof.
  revert x. induction n as [|n IH]; intros x; [done|].
  simpl. destruct (ms_rest x) as [|ch t]; [done|]. by rewrite IH.
Qed.

Lemma matcher_lit_eq icase word x k :
  matcher icase (lit word) x k
  = if starts icase word (ms_rest x) then k (advance (String.length word) x)
    else None.
Proof.
  revert x. induction word as [|c word IH]; intros x; [done|].
  assert (matcher icase (lit (String c word)) x k
          = match ms_rest x with
            | ch :: t =>
                if Ascii.eqb (canonicalize icase ch) (canonicalize icase c)
                then matcher icase (lit word)
                       {| ms_prev := Some ch; ms_rest := t; ms_caps := ms_caps x |} k
                else None
            | [] => None
            end) as ->.
  { destruct word; reflexivity. }
  simpl. destruct (ms_rest x) as [|ch t]; [done|].
  destruct (Ascii.eqb _ _); [|done]. by rewrite IH.
Qed.

(** A repetition of a class goes to the end of the run first. *)
Lemma star_class_loop icase p (k : mstate → option mstate) :
  ∀ fuel x,
    length (ms_rest x) < fuel →
    is_Some (k (advance (run_length p (ms_rest x)) x)) →
    (fix loop (fuel : nat) (x : mstate) : option mstate :=
       match fuel with
       | O => k x
       | S fuel' =>
           match matcher icase (Class p) x
                   (λ y, if (length (ms_rest y) <? length (ms_rest x))%nat
                         then loop fuel' y else None) with
           | Some z => Some z
           | None => k x
           end
       end) fuel x
    = k (advance (run_length p (ms_rest x)) x).
Proof.
  induction fuel as [|fuel IH]; intros x Hlen Hk; [lia|].
  cbn [matcher]. destruct (ms_rest x) as [|ch t] eqn:Hx; [done|].
  cbn [run_length] in *. destruct (p ch) eqn:Hp; [|done].
  cbn [advance] in *. rewrite Hx in *. cbn [ms_rest length].
  rewrite (proj2 (Nat.ltb_lt _ _)) by lia.
  rewrite IH; [|simpl in *; lia|done].
  cbn [ms_rest]. destruct Hk as [z Hz]. by rewrite Hz.
Qed.

Lemma star_class_greedy icase p x k :
  is_Some (k (advance (run_length p (ms_rest x)) x)) →
  matcher icase (Star (Class p)) x k = k (advance (run_length p (ms_rest x)) x).
Proof.
  intros Hk.
  exact (star_class_loop icase p k (S (length (ms_rest x))) x (Nat.lt_succ_diag_r _) Hk).
Qed.

Lemma search_here re prev s y :
  matcher (re_ignoreCase re) (re_body re)
    {| ms_prev := prev; ms_rest := s; ms_caps := ∅ |} Some = Some y →
  search re prev s
  = Some (match_array re {| ms_prev := prev; ms_rest := s; ms_caps := ∅ |} y).
Proof. intros H. destruct s; cbn [search]; by rewrite H. Qed.

(** A search passes over the positions where nothing matches. *)
Lemma search_skip re prev pre s :
  (∀ a b prev', pre = a ++ b → b ≠ [] →
     matcher (re_ignoreCase re) (re_body re)
       {| ms_prev := prev'; ms_rest := b ++ s; ms_caps := ∅ |} Some = None) →
  search re prev (pre ++ s)
  = search re (match last pre with Some c => Some c | None => prev end) s.
Proof.
  revert prev. induction pre as [|c pre IH]; intros prev H; [done|].
  pose proof (H [] (c :: pre) prev eq_refl ltac:(done)) as Hm.
  cbn [app] in Hm. cbn [app search]. rewrite Hm, IH.
  - destruct pre as [|c' pre']; [done|].
    change (last (c :: c' :: pre')) with (last (c' :: pre')).
    destruct (last (c' :: pre')) eqn:Hl; [done|]. by apply last_None in Hl.
  - intros a b prev' -> Hb. by apply (H (c :: a) b prev').
Qed.

Lemma starts_app_inv icase word b t :
  starts icase word (b ++ t) = true →
  starts icase word b = true
  ∨ (length b < String.length word
     ∧ starts icase (drop_chars (length b) word) t = true).
Proof.
  revert b. induction word as [|c word IH]; intros b H; [by left|].
  destruct b as [|ch b].
  - right. split; [simpl; lia|done].
  - cbn [app starts] in H. apply andb_true_iff in H as [Hc H].
    apply IH in H as [H|[Hlen H]].
    + left. simpl. by rewrite Hc, H.
    + right. split; [simpl; lia|done].
Qed.

Lemma occurs_suffix icase word a b :
  starts icase word b = true → occurs icase word (a ++ b) = true.
Proof.
  intros H. induction a as [|ch a IH].
  - destruct b; simpl; by rewrite H.
  - cbn [app occurs]. rewrite IH. apply orb_true_r.
Qed.

Lemma heads_before icase alternatives (pre : string) a b t :
  free_of icase alternatives.*1 pre = true →
  list_ascii_of_string pre = a ++ b → b ≠ [] →
  straddle_free icase alternatives t = true →
  heads icase alternatives (b ++ t) = false.
Proof.
  intros Hfree Hpre Hb Hst. unfold heads.
  apply not_true_is_false. intros (wf & Hin & H)%existsb_exists.
  apply andb_true_iff in H as [Hw Hf].
  apply starts_app_inv in Hw as [Hw|[Hlen Hw]].
  - unfold free_of in Hfree. rewrite forallb_forall in Hfree.
    assert (In wf.1 alternatives.*1) as Hin'.
    { apply list_elem_of_In, list_elem_of_fmap_2. by apply list_elem_of_In. }
    specialize (Hfree _ Hin'). rewrite Hpre, (occurs_suffix _ _ a b Hw) in Hfree.
    done.
  - unfold straddle_free in Hst. rewrite forallb_forall in Hst.
    specialize (Hst _ Hin). rewrite forallb_forall in Hst.
    assert (In (length b) (seq 1 (String.length wf.1 - 1))) as Hk.
    { apply in_seq. destruct b; [done|]. simpl in *. lia. }
    specialize (Hst _ Hk). rewrite Hw in Hst.
    rewrite drop_app_ge in Hf by lia. by rewrite Hf in Hst.
Qed.

Lemma browser_re_no_head x k :
  heads true browser_heads (ms_rest x) = false →
  matcher true (re_body browser_re) x k = None.
Proof.
  unfold heads, browser_heads. cbn [existsb fst snd String.length].
  rewrite !orb_false_iff, !andb_false_iff.
  intros (H1 & H2 & H3 & H4 & H5 & H6 & _).
  cbn [re_body browser_re matcher alts].
  rewrite !matcher_lit_eq.
  destruct H1 as [->|H1]; [|done]. destruct H2 as [->|H2]; [|done].
  destruct H3 as [->|H3]; [|done]. destruct H4 as [->|H4]; [|done].
  destruct H5 as [->|H5]; [|done].
  destruct (starts true "trident" (ms_rest x)) eqn:Ht; [|done].
  destruct H6 as [H6|H6]; [done|].
  rewrite ms_rest_advance. cbn [String.length]. by rewrite H6.
Qed.

Lemma matcher_Seq icase r1 r2 x k :
  matcher icase (Seq r1 r2) x k = matcher icase r1 x (λ y, matcher icase r2 y k).
Proof. reflexivity. Qed.

Lemma matcher_Alt icase r1 r2 x k :
  matcher icase (Alt r1 r2) x k
  = match matcher icase r1 x k with
    | Some z => Some z
    | None => matcher icase r2 x k
    end.
Proof. reflexivity. Qed.

Lemma matcher_Group icase n r x k :
  matcher icase (Group n r) x k
  = matcher icase r x (λ y, k (with_caps y (<[n := consumed x y]> (ms_caps y)))).
Proof. reflexivity. Qed.

Lemma matcher_Lookahead icase r x k :
  matcher icase (Lookahead r) x k
  = match matcher icase r x Some with
    | Some y => k (with_caps x (ms_caps y))
    | None => None
    end.
Proof. reflexivity. Qed.

Lemma matcher_WordBoundary icase x k :
  matcher icase WordBoundary x k
  = if xorb (opt_is_word (ms_prev x)) (opt_is_word (head (ms_rest x)))
    then k x else None.
Proof. reflexivity. Qed.

Lemma matcher_Class icase p x k :
  matcher icase (Class p) x k
  = match ms_rest x with
    | ch :: t =>
        if p ch
        then k {| ms_prev := Some ch; ms_rest := t; ms_caps := ms_caps x |}
        else None
    | [] => None
    end.
Proof. reflexivity. Qed.

Lemma plus_class_greedy icase p x k ch t :
  ms_rest x = ch :: t → p ch = true →
  is_Some (k (advance (S (run_length p t)) x)) →
  matcher icase (Plus (Class p)) x k = k (advance (S (run_length p t)) x).
Proof.
  intros Hx Hp Hk. unfold Plus. rewrite matcher_Seq, matcher_Class, Hx, Hp.
  cbn [advance] in *. rewrite Hx in *.
  by rewrite star_class_greedy.
Qed.

Lemma digit_not_space c : is_digit c = true → is_space c = false.
Proof.
  unfold is_digit, is_space. intros [H1 H2]%andb_true_iff.
  apply Nat.leb_le in H1, H2.
  rewrite !orb_false_iff, andb_false_iff, !Nat.leb_gt, !Nat.eqb_neq. lia.
Qed.

Lemma run_length_app p u v :
  forallb p u = true → head (p <$> v) ≠ Some true →
  run_length p (u ++ v) = length u.
Proof.
  intros Hu Hv. induction u as [|ch u IH].
  - destruct v as [|ch v]; [done|]. simpl in *. by destruct (p ch).
  - simpl in *. apply andb_true_iff in Hu as [-> Hu]. by rewrite IH.
Qed.

(** The text between a position and the position [length u] on. *)
Lemma consumed_advance x u t :
  ms_rest x = u ++ t →
  ∀ y, ms_rest y = t → consumed x y = string_of_list_ascii u.
Proof.
  intros Hx y Hy. unfold consumed. rewrite Hx, Hy, length_app.
  replace (_ + _ - _) with (length u) by lia.
  by rewrite take_app_length.
Qed.

Ltac eval_starts :=
  repeat match goal with
         | |- context [starts ?i ?w ?s] =>
             let b := eval vm_compute in (starts i w s) in
             match b with
             | true => change (starts i w s) with true
             | false => change (starts i w s) with false
             end
         end.

(** After the name: an optional slash, white space, digits. *)
Lemma browser_re_tail x c t :
  ms_rest x = "/"%char :: c :: t → is_digit c = true →
  ∃ y, matcher true
         (Seq (Opt (lit "/")) (Seq (Star space) (Group 2 (Plus digit)))) x Some
       = Some y
    ∧ ms_caps y !! 1 = ms_caps x !! 1.
Proof.
  intros Hx Hc. unfold Opt.
  rewrite matcher_Seq, matcher_Alt, matcher_lit_eq, Hx.
  change (starts true "/" ("/"%char :: c :: t)) with true. cbv iota.
  cbn [String.length advance]. rewrite Hx.
  rewrite matcher_Seq. unfold space.
  rewrite star_class_greedy; cbn [ms_rest run_length]; rewrite (digit_not_space c Hc);
    cbn [advance].
  - rewrite matcher_Group. unfold digit.
    erewrite plus_class_greedy; [|reflexivity|done|by eexists].
    eexists. split; [reflexivity|].
    cbn [ms_caps with_caps]. rewrite lookup_insert_ne by done.
    by rewrite ms_caps_advance.
  - rewrite matcher_Group. unfold digit.
    erewrite plus_class_greedy; [|reflexivity|done|by eexists]. by eexists.
Qed.

Lemma browser_re_here prev name c rest :
  name = "Trident" ∨ name = "Chrome" → is_digit c = true →
  ∃ y, matcher true (re_body browser_re)
         {| ms_prev := prev;
            ms_rest := list_ascii_of_string name ++ "/"%char :: c :: rest;
            ms_caps := ∅ |} Some = Some y
    ∧ ms_caps y !! 1 = Some name.
Proof.
  intros [-> | ->] Hc; cbn [list_ascii_of_string app re_body browser_re];
    rewrite matcher_Seq, matcher_Group; cbn [alts];
    rewrite !matcher_Alt, !matcher_lit_eq; cbn [ms_rest]; eval_starts; cbv iota beta.
  - rewrite matcher_Seq, matcher_lit_eq. cbn [ms_rest]. eval_starts. cbv iota beta.
    rewrite matcher_Lookahead, matcher_lit_eq.
    cbn [String.length advance ms_rest ms_caps with_caps]. eval_starts. cbv iota beta.
    cbn [ms_caps ms_prev ms_rest].
    match goal with
    | |- context [matcher true (Seq (Opt (lit "/")) ?r) ?x0 Some] =>
        destruct (browser_re_tail x0 c rest) as (y & Hy & Hcaps);
          [reflexivity|done|rewrite Hy]
    end.
    exists y. split; [done|]. rewrite Hcaps. unfold with_caps. cbn [ms_caps ms_rest ms_prev].
    rewrite lookup_insert_eq. f_equal.
    by apply (consumed_advance _ (list_ascii_of_string "Trident") ("/"%char :: c :: rest)).
  - cbn [String.length advance ms_rest ms_caps with_caps].
    match goal with
    | |- context [matcher true (Seq (Opt (lit "/")) ?r) ?x0 Some] =>
        destruct (browser_re_tail x0 c rest) as (y & Hy & Hcaps);
          [reflexivity|done|rewrite Hy]
    end.
    exists y. split; [done|]. rewrite Hcaps. unfold with_caps. cbn [ms_caps ms_rest ms_prev].
    rewrite lookup_insert_eq. f_equal.
    by apply (consumed_advance _ (list_ascii_of_string "Chrome") ("/"%char :: c :: rest)).
Qed.

Lemma at_index_match_array re x y (n : nat) :
  (1 ≤ n ≤ re_groups re)%nat →
  at_index (match_array re x y) n = ms_caps y !! n.
Proof.
  intros Hn. unfold at_index, match_array.
  destruct n as [|n]; [lia|].
  change ((?a :: ?l) !! S n) with (l !! n).
  change map with (@fmap list _). rewrite list_lookup_fmap, lookup_seq_lt by lia.
  done.
Qed.

(** The main pattern finds a Trident or Chrome token before which no
    browser name occurs. *)
Lemma exec_browser_re_token ua pre name c rest :
  ua = pre +:+ name +:+ "/" +:+ String c rest →
  name = "Trident" ∨ name = "Chrome" →
  is_digit c = true →
  free_of true browser_names pre = true →
  ∃ arr, exec browser_re ua = Some arr ∧ at_index arr 1 = Some name.
Proof.
  intros -> Hname Hc Hfree. unfold exec.
  rewrite !list_ascii_of_string_app. cbn [list_ascii_of_string app].
  rewrite search_skip.
  - destruct (browser_re_here
                (match last (list_ascii_of_string pre) with
                 | Some c => Some c | None => None end)
                name c (list_ascii_of_string rest) Hname Hc) as (y & Hy & Hcaps).
    rewrite (search_here browser_re _ _ y Hy). eexists. split; [reflexivity|].
    by rewrite at_index_match_array by (simpl; lia).
  - intros a b prev' Hpre Hb. apply browser_re_no_head. cbn [ms_rest].
    apply (heads_before true browser_heads pre a b); [done..|].
    by destruct Hname as [-> | ->].
Qed.

Lemma decimal_cons digits :
  decimal digits →
  ∃ d ds, list_ascii_of_string digits = d :: ds ∧ is_digit d = true
    ∧ forallb is_digit ds = true.
Proof.
  intros [Hne Hall]. destruct digits as [|d ds]; [done|].
  simpl in Hall. apply andb_true_iff in Hall as [Hd Hds]. by eexists _, _.
Qed.

Lemma opens_with_head p post :
  opens_with p post = false → head (p <$> list_ascii_of_string post) ≠ Some true.
Proof. destruct post as [|ch post]; simpl; [done|]. by intros -> [=]. Qed.

(** A group of digits, with the digits of the text to the end of the run. *)
Lemma digits_group_here icase n x digits post :
  ms_rest x = list_ascii_of_string digits ++ list_ascii_of_string post →
  decimal digits → opens_with is_digit post = false →
  ∃ y, matcher icase (Group n (Plus digit)) x Some = Some y
    ∧ ms_caps y = <[n := digits]> (ms_caps x).
Proof.
  intros Hx Hdec Hpost.
  destruct (decimal_cons digits Hdec) as (d & ds & Hds & Hd & Hall).
  rewrite Hds in Hx. cbn [app] in Hx.
  rewrite matcher_Group. unfold digit.
  erewrite plus_class_greedy; [|exact Hx|done|by eexists].
  eexists. split; [reflexivity|].
  unfold with_caps. cbn [ms_caps]. rewrite ms_caps_advance. f_equal.
  rewrite <- (string_of_list_ascii_of_string digits), Hds.
  apply (consumed_advance _ (d :: ds) (list_ascii_of_string post)); [done|].
  rewrite ms_rest_advance, Hx,
    (run_length_app _ _ _ Hall (opens_with_head _ _ Hpost)).
  cbn [drop]. by rewrite drop_app_length.
Qed.

Lemma rv_re_no_head x k :
  heads false [("rv", "")] (ms_rest x) = false →
  matcher false (re_body rv_re) x k = None.
Proof.
  unfold heads. cbn [existsb fst snd String.length].
  rewrite orb_false_r, andb_true_r. intros H.
  cbn [re_body rv_re].
  rewrite matcher_Seq, matcher_WordBoundary, matcher_Seq, matcher_lit_eq, H.
  by destruct (xorb _ _).
Qed.

Lemma rv_re_here prev digits post :
  opt_is_word prev = false →
  decimal digits → opens_with is_digit post = false →
  ∃ y, matcher false (re_body rv_re)
         {| ms_prev := prev;
            ms_rest := list_ascii_of_string "rv:" ++ list_ascii_of_string digits
                       ++ list_ascii_of_string post;
            ms_caps := ∅ |} Some = Some y
    ∧ ms_caps y !! 1 = Some digits.
Proof.
  intros Hprev Hdec Hpost.
  destruct (decimal_cons digits Hdec) as (d & ds & Hds & Hd & Hall).
  cbn [list_ascii_of_string app re_body rv_re].
  rewrite matcher_Seq, matcher_WordBoundary. cbn [ms_prev ms_rest head].
  rewrite Hprev. change (opt_is_word (Some "r"%char)) with true. cbv iota beta.
  rewrite matcher_Seq, matcher_lit_eq. cbn [ms_rest]. eval_starts. cbv iota beta.
  cbn [String.length advance ms_rest ms_caps].
  rewrite matcher_Seq.
  assert (run_length (λ c, Ascii.eqb c " " || Ascii.eqb c ":")
            (list_ascii_of_string digits ++ list_ascii_of_string post) = 0) as Hrun.
  { rewrite Hds. cbn [app run_length].
    assert ((Ascii.eqb d " " || Ascii.eqb d ":") = false) as ->; [|done].
    apply orb_false_iff. split; apply Ascii.eqb_neq; by intros ->. }
  match goal with
  | |- context [matcher false (Plus (Class ?p)) ?x0 ?k0] =>
      destruct (digits_group_here false 1 (advance 1 x0) digits post)
        as (y & Hy & Hcaps); [reflexivity|done..|];
      rewrite (plus_class_greedy false p x0 k0 ":"%char
                 (list_ascii_of_string digits ++ list_ascii_of_string post))
  end.
  - rewrite Hrun, Hy. exists y. split; [done|]. rewrite Hcaps.
    by rewrite lookup_insert_eq.
  - reflexivity.
  - reflexivity.
  - rewrite Hrun, Hy. by eexists.
Qed.

Lemma exec_rv_re_token ua pre digits post :
  ua = pre +:+ "rv:" +:+ digits +:+ post →
  decimal digits → opens_with is_digit post = false →
  ends_in_word pre = false →
  free_of false ["rv"] pre = true →
  ∃ arr, exec rv_re ua = Some arr ∧ at_index arr 1 = Some digits.
Proof.
  intros -> Hdec Hpost Hend Hfree. unfold exec.
  rewrite !list_ascii_of_string_app.
  rewrite search_skip.
  - destruct (rv_re_here
                (match last (list_ascii_of_string pre) with
                 | Some c => Some c | None => None end)
                digits post) as (y & Hy & Hcaps); [|done..|].
    { unfold ends_in_word in Hend. by destruct (last _). }
    rewrite (search_here rv_re _ _ y Hy). eexists. split; [reflexivity|].
    by rewrite at_index_match_array by (simpl; lia).
  - intros a b prev' Hpre Hb. apply rv_re_no_head. cbn [ms_rest].
    by apply (heads_before false [("rv", "")] pre a b).
Qed.

Lemma opr_edge_re_no_head x k :
  heads false [("OPR", ""); ("Edge", "")] (ms_rest x) = false →
  matcher false (re_body opr_edge_re) x k = None.
Proof.
  unfold heads. cbn [existsb fst snd String.length].
  rewrite orb_false_r, !andb_true_r. intros [H1 H2]%orb_false_iff.
  cbn [re_body opr_edge_re alts].
  rewrite matcher_Seq, matcher_WordBoundary, matcher_Seq, matcher_Group,
    matcher_Alt, !matcher_lit_eq, H1, H2.
  by destruct (xorb _ _).
Qed.

Lemma opr_edge_re_here prev digits post :
  opt_is_word prev = false →
  decimal digits → opens_with is_digit post = false →
  ∃ y, matcher false (re_body opr_edge_re)
         {| ms_prev := prev;
            ms_rest := list_ascii_of_string "OPR/" ++ list_ascii_of_string digits
                       ++ list_ascii_of_string post;
            ms_caps := ∅ |} Some = Some y
    ∧ ms_caps y !! 1 = Some "OPR" ∧ ms_caps y !! 2 = Some digits.
Proof.
  intros Hprev Hdec Hpost.
  cbn [list_ascii_of_string app re_body opr_edge_re alts].
  rewrite matcher_Seq, matcher_WordBoundary. cbn [ms_prev ms_rest head].
  rewrite Hprev. change (opt_is_word (Some "O"%char)) with true. cbv iota beta.
  rewrite matcher_Seq, matcher_Group, matcher_Alt, !matcher_lit_eq.
  cbn [ms_rest]. eval_starts. cbv iota beta.
  cbn [String.length advance ms_rest ms_caps xorb]. cbv iota. unfold with_caps.
  cbn [ms_rest ms_caps ms_prev].
  rewrite matcher_Seq, matcher_lit_eq. cbn [ms_rest]. eval_starts. cbv iota beta.
  cbn [String.length advance ms_rest ms_caps].
  match goal with
  | |- context [matcher false (Group 2 (Plus digit)) ?x0 Some] =>
      destruct (digits_group_here false 2 x0 digits post)
        as (y & Hy & Hcaps); [reflexivity|done..|]; rewrite Hy
  end.
  exists y. split; [done|]. rewrite Hcaps. cbn [ms_caps].
  rewrite lookup_insert_ne, !lookup_insert_eq by done. split; [|done].
  f_equal.
  by apply (consumed_advance _ (list_ascii_of_string "OPR")
              ("/"%char :: list_ascii_of_string digits ++ list_ascii_of_string post)).
Qed.

Lemma exec_opr_edge_re_token ua pre digits post :
  ua = pre +:+ "OPR/" +:+ digits +:+ post →
  decimal digits → opens_with is_digit post = false →
  ends_in_word pre = false →
  free_of false ["OPR"; "Edge"] pre = true →
  ∃ whole, exec opr_edge_re ua = Some [Some whole; Some "OPR"; Some digits].
Proof.
  intros -> Hdec Hpost Hend Hfree. unfold exec.
  rewrite !list_ascii_of_string_app.
  rewrite search_skip.
  - destruct (opr_edge_re_here
                (match last (list_ascii_of_string pre) with
                 | Some c => Some c | None => None end)
                digits post) as (y & Hy & Hc1 & Hc2); [|done..|].
    { unfold ends_in_word in Hend. by destruct (last _). }
    rewrite (search_here opr_edge_re _ _ y Hy). eexists.
    unfold match_array. cbn [re_groups opr_edge_re seq map].
    by rewrite Hc1, Hc2.
  - intros a b prev' Hpre Hb. apply opr_edge_re_no_head. cbn [ms_rest].
    by apply (heads_before false [("OPR", ""); ("Edge", "")] pre a b).
Qed.

(** C7, as the code has it.  The result is decided by the leftmost browser
    token.  When the client string has a Trident/ token followed by a
    digit, no browser name before it, and an rv: token with digits that is
    the first place where rv occurs and does not continue a word, the
    result is "IE " and those digits, "IE 11" for rv:11.0.  When it has a
    Chrome/ token followed by a digit, no browser name before it, and an
    OPR/ token with digits that does not continue a word, with neither OPR
    nor Edge before it, the result is the string "Opera " and those
    digits. *)
Theorem browserInfo_ie_and_opera (w : World) (nav : Navigator) :
  fst (isBrowser w) = Return true →
  navigator w = Some nav →
  (∀ pre c rest pre' digits post,
     nav_userAgent nav = pre +:+ "Trident/" +:+ String c rest →
     is_digit c = true →
     free_of true browser_names pre = true →
     nav_userAgent nav = pre' +:+ "rv:" +:+ digits +:+ post →
     decimal digits →
     opens_with is_digit post = false →
     ends_in_word pre' = false →
     free_of false ["rv"] pre' = true →
     browserInfo w = (Return (Str ("IE " +:+ digits)), w))
  ∧ (∀ pre c rest pre' digits post,
       nav_userAgent nav = pre +:+ "Chrome/" +:+ String c rest →
       is_digit c = true →
       free_of true browser_names pre = true →
       nav_userAgent nav = pre' +:+ "OPR/" +:+ digits +:+ post →
       decimal digits →
       opens_with is_digit post = false →
       ends_in_word pre' = false →
       free_of false ["OPR"; "Edge"] pre' = true →
       browserInfo w = (Return (Str ("Opera " +:+ digits)), w)).
Proof.
  intros Hv%isBrowser_true Hnav. split.
  - intros pre c rest pre' digits post Hua Hc Hfree Hua' Hdec Hpost Hend Hfree'.
    destruct (exec_browser_re_token _ pre "Trident" c rest Hua
                (or_introl eq_refl) Hc Hfree) as (arr & Harr & H1).
    destruct (exec_rv_re_token _ pre' digits post Hua' Hdec Hpost Hend Hfree')
      as (tem & Htem & H2).
    unfold browserInfo. rewrite guard_run, Hv, bind_run, global_run, Hnav.
    cbv zeta. rewrite Harr, Htem.
    change (default [] (Some arr)) with arr.
    change (default [] (Some tem)) with tem.
    rewrite H1, H2. reflexivity.
  - intros pre c rest pre' digits post Hua Hc Hfree Hua' Hdec Hpost Hend Hfree'.
    destruct (exec_browser_re_token _ pre "Chrome" c rest Hua
                (or_intror eq_refl) Hc Hfree) as (arr & Harr & H1).
    destruct (exec_opr_edge_re_token _ pre' digits post Hua' Hdec Hpost Hend Hfree')
      as (whole & Htem).
    unfold browserInfo. rewrite guard_run, Hv, bind_run, global_run, Hnav.
    cbv zeta. rewrite Harr, Htem.
    change (default [] (Some arr)) with arr.
    rewrite H1. reflexivity.
Qed.

Lemma browserInfo_ie_and_opera_witness :
  browserInfo (browser_world sample_window ie11_ua)
    = (Return (Str "IE 11"), browser_world sample_window ie11_ua)
  ∧ browserInfo (browser_world sample_window opera_ua)
    = (Return (Str "Opera 57"), browser_world sample_window opera_ua).
Proof.
  split.
  - refine (proj1 (browserInfo_ie_and_opera (browser_world sample_window ie11_ua)
                     (sample_navigator ie11_ua) eq_refl eq_refl)
              "Mozilla/5.0 (Windows NT 6.1; WOW64; " "7"%char ".0; AS; rv:11.0) like Gecko"
              "Mozilla/5.0 (Windows NT 6.1; WOW64; Trident/7.0; AS; " "11"
              ".0) like Gecko"
              eq_refl eq_refl eq_refl eq_refl _ eq_refl eq_refl eq_refl).
    split; [discriminate|reflexivity].
  - refine (proj2 (browserInfo_ie_and_opera (browser_world sample_window opera_ua)
                     (sample_navigator opera_ua) eq_refl eq_refl)
              "Mozilla/5.0 (Windows NT 10.0; Win64; x64) AppleWebKit/537.36 (KHTML, like Gecko) "
              "7"%char "0.0.3538.102 Safari/537.36 OPR/57.0.3098.106"
              "Mozilla/5.0 (Windows NT 10.0; Win64; x64) AppleWebKit/537.36 (KHTML, like Gecko) Chrome/70.0.3538.102 Safari/537.36 "
              "57" ".0.3098.106"
              eq_refl eq_refl eq_refl eq_refl _ eq_refl eq_refl eq_refl).
    split; [discriminate|reflexivity].
Defined.

(** C7 as stated fails.  A client string that contains "Trident" and an
    rv:11.0 token, with an MSIE token before them, is reported as MSIE 7;
    a Chrome client string that contains an OPR/57 token, with an Edge token
    before it, is reported as "Edge 18". *)
Lemma browserInfo_not_by_containment :
  (occurs false "Trident" (list_ascii_of_string compat_ua) = true
   ∧ occurs false "rv:11.0" (list_ascii_of_string compat_ua) = true
   ∧ fst (browserInfo (browser_world sample_window compat_ua))
     = Return (Obj [("name", Str "MSIE"); ("version", Str "7")]))
  ∧ (occurs false "Chrome/" (list_ascii_of_string edge_opr_ua) = true
     ∧ occurs false " OPR/57" (list_ascii_of_string edge_opr_ua) = true
     ∧ fst (browserInfo (browser_world sample_window edge_opr_ua))
       = Return (Str "Edge 18")).
Proof. repeat split. Qed.

(** ** The boolean queries *)

Lemma hasTouch_outcome w win d :
  window w = Some win → document w = Some d →
  (∃ b, hasTouch w = (Return (Bool b), w))
  ∨ (win_has_ontouchstart win = false ∧ ∃ e, hasTouch w = (Throw e, w)).
Proof.
  intros Hwin Hd.
  assert (Hv : visual w = true) by (apply visual_true; rewrite Hwin, Hd; eauto).
  assert ((m ← mq hasTouch_query;
           if truthy m then mret (Bool true) else mret (Bool false)) w
          = (Return (Bool true), w)
          ∨ (m ← mq hasTouch_query;
             if truthy m then mret (Bool true) else mret (Bool false)) w
            = (Return (Bool false), w)
          ∨ ∃ e, (m ← mq hasTouch_query;
                  if truthy m then mret (Bool true) else mret (Bool false)) w
                 = (Throw e, w)) as Hmq.
  { rewrite bind_run, (mq_run w win) by done.
    destruct (win_matchMedia win) as [matchMedia|]; [|by eauto].
    destruct (matchMedia hasTouch_query) as [| | | | | |fields|];
      cbn -[field]; eauto.
    destruct (truthy (field "matches" (Obj fields))); eauto. }
  destruct (win_has_ontouchstart win) eqn:H1.
  { left. exists true. rewrite (hasTouch_touch w win true); [done..|].
    by rewrite H1. }
  assert (∀ e,
    (if win_has_ontouchstart win then mret true
     else if negb (truthy (win_DocumentTouch win)) then mret false
     else (doc ← global "document" document;
           C ← global "DocumentTouch" DocumentTouch;
           document_instanceof win C)) w = (Throw e, w) →
    (∃ b, hasTouch w = (Return (Bool b), w))
    ∨ (false = false ∧ ∃ e, hasTouch w = (Throw e, w))) as Hraise.
  { intros e He. right. split; [done|]. exists e.
    by apply (hasTouch_raises w win). }
  assert (∀ touch : bool,
    (if win_has_ontouchstart win then mret true
     else if negb (truthy (win_DocumentTouch win)) then mret false
     else (doc ← global "document" document;
           C ← global "DocumentTouch" DocumentTouch;
           document_instanceof win C)) w = (Return touch, w) →
    (∃ b, hasTouch w = (Return (Bool b), w))
    ∨ (false = false ∧ ∃ e, hasTouch w = (Throw e, w))) as Hret.
  { intros touch Ht. rewrite (hasTouch_touch w win touch) by done.
    destruct touch; [by eauto|].
    destruct Hmq as [-> | [-> | [e ->]]]; eauto. }
  rewrite H1 in Hraise, Hret.
  destruct (negb (truthy (win_DocumentTouch win))); [by apply (Hret false)|].
  rewrite bind_run, global_run, Hd, bind_run, global_run in Hraise, Hret.
  destruct (DocumentTouch w) as [C|]; [|by eapply Hraise].
  destruct C; try (by eapply Hraise).
  unfold document_instanceof, getter in Hraise, Hret.
  destruct (win_document_is_DocumentTouch win) as [b|e];
    [by eapply Hret|by eapply Hraise].
Qed.

(** X17.  In a visual host with a navigator, [isMobile], [hasWebGL],
    [hasWebVR], [hasMIDI] and [doNotTrack] return a boolean, whatever
    values the host's properties have.  [hasTouch] returns a boolean or
    raises, and raises only when 'ontouchstart' is not in [window].  None
    of the six returns a value that is not a boolean, and none changes the
    host. *)
Theorem boolean_queries_return_booleans (q : query) (w : World)
    (win : Window) (nav : Navigator) :
  q ∈ boolean_queries →
  window w = Some win →
  is_Some (document w) →
  navigator w = Some nav →
  (∃ b, run q w = (Return (Bool b), w))
  ∨ (q = QhasTouch ∧ win_has_ontouchstart win = false
     ∧ ∃ e, run q w = (Throw e, w)).
Proof.
  intros Hq Hwin [d Hd] Hnav.
  assert (Hv : visual w = true) by (apply visual_true; rewrite Hwin, Hd; eauto).
  in_list_cases Hq; subst q; unfold run.
  5: { destruct (hasTouch_outcome w win d Hwin Hd) as [?|[??]]; eauto. }
  all: left.
  all: [> unfold isMobile | unfold hasWebGL | unfold hasWebVR
        | unfold hasMIDI | unfold doNotTrack ].
  all: rewrite guard_run, Hv, ?bind_run, ?global_run, ?Hnav, ?Hwin.
  - destruct (test _ _); by eexists.
  - destruct (truthy _); cbn [negb]; [|by eexists].
    rewrite bind_run, global_run, Hd. by eexists.
  - by eexists.
  - destruct (truthy _); by eexists.
  - destruct (_ || _); by eexists.
Qed.

Lemma boolean_queries_return_booleans_witness :
  (∃ b, run QhasTouch sample_world = (Return (Bool b), sample_world))
  ∨ (QhasTouch = QhasTouch ∧ win_has_ontouchstart sample_window = false
     ∧ ∃ e, run QhasTouch sample_world = (Throw e, sample_world)).
Proof.
  apply (boolean_queries_return_booleans QhasTouch sample_world sample_window
           (sample_navigator firefox_ua)).
  - repeat constructor.
  - reflexivity.
  - exists sample_document. reflexivity.
  - reflexivity.
Defined.

Lemma gpuInfo_returns_iff w d :
  document w = Some d →
  (∃ v, fst (gpuInfo w) = Return v) ↔ is_Some (doc_canvas_getContext d "webgl").
Proof.
  intros Hd. unfold gpuInfo. rewrite bind_run, global_run, Hd.
  destruct (doc_canvas_getContext d "webgl") as [gl|].
  - split; [by eauto|intros _]. destruct (gl_getExtension gl _); by eexists.
  - split; [by intros [v ?]|by intros []].
Qed.

(** X18.  [hasWebGL()] and [gpuInfo()] ask the canvas for different
    contexts.  [hasWebGL()] is true iff [window.WebGLRenderingContext] is
    truthy and the canvas gives an "experimental-webgl" context;
    [gpuInfo()] returns iff the canvas gives a "webgl" context.  Neither
    answer decides the other. *)
Theorem hasWebGL_and_gpuInfo_contexts (w : World) (win : Window)
    (d : Document) :
  window w = Some win →
  document w = Some d →
  ∃ b, hasWebGL w = (Return (Bool b), w)
    ∧ (b = true
       ↔ truthy (win_WebGLRenderingContext win) = true
         ∧ is_Some (doc_canvas_getContext d "experimental-webgl"))
    ∧ ((∃ v, fst (gpuInfo w) = Return v)
       ↔ is_Some (doc_canvas_getContext d "webgl")).
Proof.
  intros Hwin Hd.
  assert (Hv : visual w = true) by (apply visual_true; rewrite Hwin, Hd; eauto).
  pose proof (gpuInfo_returns_iff w d Hd) as Hgpu.
  unfold hasWebGL.
  rewrite guard_run, Hv, !bind_run, !global_run, Hwin.
  destruct (truthy _); cbn [negb].
  - rewrite bind_run, global_run, Hd. eexists. split; [reflexivity|].
    split; [|exact Hgpu].
    rewrite bool_decide_eq_true. split; [by split|by intros [_ ?]].
  - eexists. split; [reflexivity|]. split; [|exact Hgpu].
    split; [done|by intros [? _]].
Qed.

Lemma hasWebGL_and_gpuInfo_contexts_witness :
  hasWebGL webgl_only_world = (Return (Bool false), webgl_only_world)
  ∧ ∃ v, fst (gpuInfo webgl_only_world) = Return v.
Proof.
  destruct (hasWebGL_and_gpuInfo_contexts webgl_only_world sample_window
              gl_document eq_refl eq_refl) as (b & Hb & Hiff & Hgpu).
  split.
  - destruct b; [|exact Hb].
    destruct (proj1 Hiff eq_refl) as [_ [gl Hgl]]. discriminate Hgl.
  - apply Hgpu. by exists sample_gl.
Defined.
